(** * git-stats: the repository analyzer and the batch coordinator

    A shallow embedding of [src/analyzer.ts] (class [RepositoryAnalyzer]) and
    [src/multi.ts] (class [MultiRepoAnalyzer]).

    - JavaScript strings are lists of characters ([str]); the inputs of
      interest are ASCII (URLs, git output).
    - Regular-expression literals are values of [regex], run by a
      backtracking matcher that returns every way of matching in the priority
      order of a backtracking engine; the first one is the match.
    - [shell.exec], [shell.cd], [shell.rm], [shell.mkdir] and
      [fs.existsSync] are the fields of a [Shell] over an abstract world;
      methods are computations in a state-and-exception monad that also
      records the commands issued.
    - [undefined] is [None]; a thrown [Error] is the left injection. *)

From Stdlib Require Import Ascii String.
From Stdlib Require Import List ZArith Lia Bool Arith.
From Stdlib Require Import Sorted Permutation.
Import ListNotations.

Set Implicit Arguments.

Open Scope char_scope.
Open Scope list_scope.

(* ================================================================== *)
(** ** Strings *)

Definition str := list ascii.

Definition lit (s : string) : str := list_ascii_of_string s.

Fixpoint str_eqb (a b : str) : bool :=
  match a, b with
  | [], [] => true
  | x :: a', y :: b' => Ascii.eqb x y && str_eqb a' b'
  | _, _ => false
  end.

(** [s.startsWith(p)] *)
Fixpoint is_prefix (p s : str) : bool :=
  match p, s with
  | [], _ => true
  | x :: p', y :: s' => Ascii.eqb x y && is_prefix p' s'
  | _ :: _, [] => false
  end.

(** White space of [String.prototype.trim] among the code units below 256:
    TAB, LF, VT, FF, CR, SPACE and NBSP. *)
Definition is_space (c : ascii) : bool :=
  let n := nat_of_ascii c in
  (((9 <=? n) && (n <=? 13)) || (n =? 32) || (n =? 160))%nat.

Definition is_digit (c : ascii) : bool :=
  let n := nat_of_ascii c in ((48 <=? n) && (n <=? 57))%nat.

Fixpoint trimStart (s : str) : str :=
  match s with
  | c :: s' => if is_space c then trimStart s' else s
  | [] => []
  end.

Definition trimEnd (s : str) : str := rev (trimStart (rev s)).

Definition trim (s : str) : str := trimEnd (trimStart s).

(** [s.split(sep)] for a one-character separator: never an empty array. *)
Fixpoint split (sep : ascii) (s : str) : list str :=
  match s with
  | [] => [[]]
  | c :: s' =>
      if Ascii.eqb c sep then [] :: split sep s'
      else match split sep s' with
           | h :: t => (c :: h) :: t
           | [] => [[c]]
           end
  end.

(** [s.replace(pat, rep)] with a string pattern: the first occurrence only. *)
Fixpoint replace_str (pat rep s : str) : str :=
  if is_prefix pat s then rep ++ skipn (length pat) s
  else match s with
       | c :: s' => c :: replace_str pat rep s'
       | [] => []
       end.

(* ================================================================== *)
(** ** Regular expressions *)

Module Regex.

(** The fragment of the regular-expression syntax that the program's
    literals use.  Quantifiers apply to character classes only. *)
Inductive regex : Type :=
| Str (s : str)                  (* a run of literal characters *)
| Cls (p : ascii -> bool)        (* one character of a class *)
| Star (p : ascii -> bool)       (* [c]*  greedy *)
| Plus (p : ascii -> bool)       (* [c]+  greedy *)
| PlusLazy (p : ascii -> bool)   (* [c]+? lazy *)
| Opt (r : regex)                (* r?    greedy *)
| Grp (i : nat) (r : regex)      (* capturing group number i *)
| Seq (r1 r2 : regex)
| Bol                            (* ^ without the m flag *)
| Eol.                           (* $ without the m flag *)

Record mstate : Type := MState {
  pos : nat;                     (* index in the input *)
  rest : str;                    (* input from [pos] on *)
  caps : list (option str)       (* captures, index 0 unused *)
}.

Definition advance (n : nat) (st : mstate) : mstate :=
  MState (pos st + n) (skipn n (rest st)) (caps st).

Fixpoint set_nth {A} (i : nat) (x : A) (l : list A) : list A :=
  match i, l with
  | O, _ :: l' => x :: l'
  | S i', y :: l' => y :: set_nth i' x l'
  | _, [] => []
  end.

(** Where a greedy [c]+ can stop: longest first.  [n] characters are
    already consumed. *)
Fixpoint greedy_ends (p : ascii -> bool) (n : nat) (s : str)
  : list (nat * str) :=
  match s with
  | c :: s' => if p c then greedy_ends p (S n) s' ++ [(S n, s')] else []
  | [] => []
  end.

(** Where a lazy [c]+? can stop: shortest first. *)
Fixpoint lazy_ends (p : ascii -> bool) (n : nat) (s : str)
  : list (nat * str) :=
  match s with
  | c :: s' => if p c then (S n, s') :: lazy_ends p (S n) s' else []
  | [] => []
  end.

Definition at_end (st : mstate) (e : nat * str) : mstate :=
  MState (pos st + fst e) (snd e) (caps st).

(** All the ways [r] matches at [st], in the order in which a backtracking
    matcher tries them. *)
Fixpoint runs (r : regex) (st : mstate) : list mstate :=
  match r with
  | Str l => if is_prefix l (rest st) then [advance (length l) st] else []
  | Cls p =>
      match rest st with
      | c :: _ => if p c then [advance 1 st] else []
      | [] => []
      end
  | Star p => map (at_end st) (greedy_ends p 0 (rest st)) ++ [st]
  | Plus p => map (at_end st) (greedy_ends p 0 (rest st))
  | PlusLazy p => map (at_end st) (lazy_ends p 0 (rest st))
  | Opt r' => runs r' st ++ [st]
  | Grp i r' =>
      map (fun st' =>
             MState (pos st') (rest st')
               (set_nth i (Some (firstn (pos st' - pos st) (rest st)))
                  (caps st')))
          (runs r' st)
  | Seq r1 r2 => flat_map (runs r2) (runs r1 st)
  | Bol => if (pos st =? 0)%nat then [st] else []
  | Eol => match rest st with [] => [st] | _ :: _ => [] end
  end.

(** A match: [index], the matched text (element 0 of the match array) and
    the captures (elements 1, 2, ...; [None] is undefined). *)
Record rmatch : Type := RMatch {
  index : nat;
  text : str;
  groups : list (option str)
}.

Definition group (m : rmatch) (i : nat) : option str :=
  nth i (groups m) None.

(** The match at exactly this position, if any. *)
Definition match_here (ngroups : nat) (r : regex) (p : nat) (s : str)
  : option rmatch :=
  match runs r (MState p s (repeat None (S ngroups))) with
  | st' :: _ => Some (RMatch p (firstn (pos st' - p) s) (caps st'))
  | [] => None
  end.

(** The leftmost match at or after position [p]; [s] is the input from
    [p] on. *)
Fixpoint search_from (ngroups : nat) (r : regex) (p : nat) (s : str)
  : option rmatch :=
  match match_here ngroups r p s with
  | Some m => Some m
  | None =>
      match s with
      | _ :: s' => search_from ngroups r (S p) s'
      | [] => None
      end
  end.

(** [s.match(r)] and [r.exec(s)] without the g flag. *)
Definition exec (ngroups : nat) (r : regex) (s : str) : option rmatch :=
  search_from ngroups r 0 s.

(** [r.test(s)] *)
Definition test (ngroups : nat) (r : regex) (s : str) : bool :=
  match exec ngroups r s with Some _ => true | None => false end.

(** [s.replace(r, rep)] without the g flag, [rep] without $-patterns. *)
Definition replace (ngroups : nat) (r : regex) (rep s : str) : str :=
  match exec ngroups r s with
  | Some m =>
      firstn (index m) s ++ rep ++ skipn (index m + length (text m)) s
  | None => s
  end.

(** [s.match(r)] with the g flag: the texts of the successive matches, each
    search starting where the previous match ended (one further after an
    empty match).  [skip] characters belong to the previous match. *)
Fixpoint match_all_from (ngroups : nat) (r : regex) (skip p : nat) (s : str)
  : list str :=
  match s with
  | [] =>
      match skip, match_here ngroups r p [] with
      | O, Some m => [text m]
      | _, _ => []
      end
  | _ :: s' =>
      match skip with
      | S k => match_all_from ngroups r k (S p) s'
      | O =>
          match match_here ngroups r p s with
          | Some m =>
              text m :: match_all_from ngroups r (length (text m) - 1) (S p) s'
          | None => match_all_from ngroups r 0 (S p) s'
          end
      end
  end.

(** The array of all matches, or [null] when there is none. *)
Definition match_all (ngroups : nat) (r : regex) (s : str)
  : option (list str) :=
  match match_all_from ngroups r 0 0 s with
  | [] => None
  | l => Some l
  end.

End Regex.
Import Regex.

(* ================================================================== *)
(** ** [parseGitUrl] and [normalizeGitUrl] *)

Definition not_slash (c : ascii) : bool := negb (Ascii.eqb c "/").

Definition colon_or_slash (c : ascii) : bool :=
  Ascii.eqb c ":" || Ascii.eqb c "/".

(** [(\.git)?$] *)
Definition git_end_re : regex := Seq (Opt (Grp 3 (Str (lit ".git")))) Eol.

(** [([^\/]+)\/([^\/]+?)(\.git)?$], the part the two patterns share. *)
Definition owner_repo_re : regex :=
  Seq (Grp 1 (Plus not_slash))
 (Seq (Str (lit "/"))
 (Seq (Grp 2 (PlusLazy not_slash))
      git_end_re)).

(** [/github\.com\/([^\/]+)\/([^\/]+?)(\.git)?$/] *)
Definition https_re : regex :=
  Seq (Str (lit "github.com/")) owner_repo_re.

(** [/github\.com[:\/]([^\/]+)\/([^\/]+?)(\.git)?$/] *)
Definition ssh_re : regex :=
  Seq (Str (lit "github.com")) (Seq (Cls colon_or_slash) owner_repo_re).

Record UrlParts : Type := mkUrlParts {
  username : option str;
  repoName : option str
}.

(** The errors the analyzer throws, one constructor per [new Error(...)]. *)
Inductive error : Type :=
| UnableToParse (url : str)          (* Unable to parse GitHub URL: url *)
| FetchFailed (stderr : str)         (* Failed to fetch updates: ... *)
| BranchUndetermined                 (* Could not determine default branch *)
| ResetFailed (branch stderr : str)  (* Failed to reset to origin/...: ... *)
| CleanFailed (stderr : str)         (* Failed to clean repository: ... *)
| CloneFailed (stderr : str).        (* Failed to clone repository: ... *)

Definition parseGitUrl (url : str) : error + UrlParts :=
  let m :=
    match exec 3 https_re url with
    | Some m => Some m
    | None => exec 3 ssh_re url
    end in
  match m with
  | None => inl (UnableToParse url)
  | Some m => inr (mkUrlParts (group m 1) (group m 2))
  end.

(** [/\.git$/] *)
Definition dot_git_re : regex := Seq (Str (lit ".git")) Eol.

Definition normalizeGitUrl (url : str) : str :=
  replace_str (lit "git@github.com:") (lit "https://github.com/")
    (replace 0 dot_git_re [] (trim url)).

(* ================================================================== *)
(** ** Numbers and [parseInt] *)

(** A JavaScript number as this program computes them: a double whose value
    is an integer ([Num z], for a [z] that a double has), an infinity or NaN.
    The sign of zero is not kept: nothing in the program tells 0 from -0. *)
Inductive number : Type :=
| Num (z : Z)
| Inf (negative : bool)
| NaN.

(** [a / 2^s] rounded to the nearest integer, a tie to the even one. *)
Definition round_shift (a s : Z) : Z :=
  if (s <=? 0)%Z then a
  else
    let q := Z.shiftr a s in
    let r := (a - Z.shiftl q s)%Z in
    let half := Z.shiftl 1 (s - 1) in
    if ((half <? r) || ((half =? r) && Z.odd q))%Z then (q + 1)%Z else q.

(** The double nearest to the integer [z]: 53 bits of precision, round to
    nearest, ties to even, an infinity from 2^1024 on.  Integers up to 2^53
    in absolute value are exact. *)
Definition to_double (z : Z) : number :=
  let a := Z.abs z in
  let s := (Z.log2 a - 52)%Z in
  let v := Z.shiftl (round_shift a s) (Z.max 0 s) in
  if (2 ^ 1024 <=? v)%Z then Inf (z <? 0)%Z
  else Num (Z.sgn z * v).

(** [a + b] on doubles: the exact sum, rounded. *)
Definition num_add (a b : number) : number :=
  match a, b with
  | Num x, Num y => to_double (x + y)
  | Inf s, Num _ => Inf s
  | Num _, Inf s => Inf s
  | Inf s, Inf t => if Bool.eqb s t then Inf s else NaN
  | _, _ => NaN
  end.

(** [a - b] on doubles. *)
Definition num_sub (a b : number) : number :=
  match a, b with
  | Num x, Num y => to_double (x - y)
  | Inf s, Num _ => Inf s
  | Num _, Inf s => Inf (negb s)
  | Inf s, Inf t => if Bool.eqb s t then NaN else Inf s
  | _, _ => NaN
  end.

Definition digit_val (c : ascii) : Z := Z.of_nat (nat_of_ascii c) - 48.

Definition is_hex_digit (c : ascii) : bool :=
  let n := nat_of_ascii c in
  (is_digit c || ((65 <=? n) && (n <=? 70)) || ((97 <=? n) && (n <=? 102)))%nat.

Definition hex_val (c : ascii) : Z :=
  let n := nat_of_ascii c in
  if is_digit c then digit_val c
  else if (n <=? 70)%nat then Z.of_nat n - 55
  else Z.of_nat n - 87.

Fixpoint take_while (p : ascii -> bool) (s : str) : str :=
  match s with
  | c :: s' => if p c then c :: take_while p s' else []
  | [] => []
  end.

Fixpoint drop_while (p : ascii -> bool) (s : str) : str :=
  match s with
  | c :: s' => if p c then drop_while p s' else s
  | [] => []
  end.

Definition radix_value (radix : Z) (val : ascii -> Z) (ds : str) : Z :=
  fold_left (fun acc c => (radix * acc + val c)%Z) ds 0%Z.

(** [parseInt(s)] with no radix argument: leading white space, a sign, a
    [0x] prefix, then the longest run of digits; NaN when there is none.
    The result is the double nearest to the integer written (as V8 computes
    it; the language lets an implementation approximate past 20 digits). *)
Definition parseInt (s : str) : number :=
  let s1 := trimStart s in
  let negative :=
    match s1 with c :: _ => Ascii.eqb c "-" | [] => false end in
  let signed :=
    match s1 with
    | c :: _ => Ascii.eqb c "-" || Ascii.eqb c "+"
    | [] => false
    end in
  let s2 := if signed then tl s1 else s1 in
  let hex :=
    match s2 with
    | c0 :: c1 :: _ =>
        Ascii.eqb c0 "0" && (Ascii.eqb c1 "x" || Ascii.eqb c1 "X")
    | _ => false
    end in
  let ds :=
    if hex then take_while is_hex_digit (skipn 2 s2)
    else take_while is_digit s2 in
  match ds with
  | [] => NaN
  | _ :: _ =>
      to_double ((if negative then -1 else 1)
                 * (if hex then radix_value 16 hex_val ds
                    else radix_value 10 digit_val ds))%Z
  end.

(* ================================================================== *)
(** ** The records of [types.ts] *)

(** [getCommitHistory] destructures an array that may be too short, so a
    field of a [CommitInfo] is a string or undefined. *)
Record CommitInfo : Type := mkCommitInfo {
  hash : option str;
  author : option str;
  date : option str;
  message : option str
}.

Record ContributorStats : Type := mkContributorStats {
  name : str;
  email : str;
  commits : number;
  additions : number;
  deletions : number;
  c_firstCommit : str;
  c_lastCommit : str
}.

Record RepositorySummary : Type := mkRepositorySummary {
  totalCommits : nat;
  totalContributors : nat;
  firstCommit : str;
  lastCommit : str
}.

Record AnalysisResult : Type := mkAnalysisResult {
  summary : RepositorySummary;
  contributors : list ContributorStats;
  recentCommits : list CommitInfo;
  repositoryPath : str
}.

(* ================================================================== *)
(** ** The parsers inside [getCommitHistory] and [analyzeContributors] *)

(** [line => { const [hash, author, date, message] = line.split('|'); ... }] *)
Definition parseCommitLine (line : str) : CommitInfo :=
  let parts := split "|" line in
  mkCommitInfo (nth_error parts 0) (nth_error parts 1)
               (nth_error parts 2) (nth_error parts 3).

(** [log.split('\n').map(...)] *)
Definition parseCommitLog (log : str) : list CommitInfo :=
  map parseCommitLine (split "010" log).

(** [x?.date || ''] : undefined and the empty string both give ''. *)
Definition date_or_empty (c : option CommitInfo) : str :=
  match c with
  | Some ci => match date ci with Some d => d | None => [] end
  | None => []
  end.

(** [commits[commits.length - 1]]: undefined on an empty array. *)
Definition last_commit_of (commits : list CommitInfo) : option CommitInfo :=
  match commits with
  | [] => None
  | c :: cs => Some (last cs c)
  end.

(** The [summary] object literal of [cloneAndAnalyze]. *)
Definition makeSummary (contributors : list ContributorStats)
                       (commits : list CommitInfo) : RepositorySummary :=
  mkRepositorySummary
    (length commits)
    (length contributors)
    (date_or_empty (last_commit_of commits))
    (date_or_empty (hd_error commits)).

(** [/(\d+) insertion/g] and [/(\d+) deletion/g] *)
Definition count_re (word : str) : regex :=
  Seq (Grp 1 (Plus is_digit)) (Str (" " :: word)).

Definition insertion_re : regex := count_re (lit "insertion").
Definition deletion_re : regex := count_re (lit "deletion").

(** [authorStats.match(re)?.map(n => parseInt(n)) || []] followed by
    [.reduce((a, b) => a + b, 0)] *)
Definition sumMatches (re : regex) (authorStats : str) : number :=
  let found :=
    match match_all 1 re authorStats with
    | Some ms => map parseInt ms
    | None => []
    end in
  fold_left num_add found (Num 0).

(** [.]: any character but a line terminator. *)
Definition not_newline (c : ascii) : bool :=
  negb (Ascii.eqb c "010" || Ascii.eqb c "013").

(** [/^\s*(\d+)\s+(.+?)\s+<(.+)>$/] *)
Definition shortlog_re : regex :=
  Seq Bol
 (Seq (Star is_space)
 (Seq (Grp 1 (Plus is_digit))
 (Seq (Plus is_space)
 (Seq (Grp 2 (PlusLazy not_newline))
 (Seq (Plus is_space)
 (Seq (Str (lit "<"))
 (Seq (Grp 3 (Plus not_newline))
 (Seq (Str (lit ">"))
      Eol)))))))).

(** [Map.prototype.set] on a map kept in insertion order: an existing key
    keeps its place. *)
Fixpoint map_set (k : str) (v : ContributorStats)
                 (m : list (str * ContributorStats))
  : list (str * ContributorStats) :=
  match m with
  | [] => [(k, v)]
  | (k', v') :: m' =>
      if str_eqb k' k then (k, v) :: m' else (k', v') :: map_set k v m'
  end.

(** The body of the [forEach] over the lines of the shortlog.  The three
    groups are not optional, so a match has all of them. *)
Definition addShortlogLine (m : list (str * ContributorStats)) (line : str)
  : list (str * ContributorStats) :=
  match exec 3 shortlog_re (trim line) with
  | Some mt =>
      match group mt 1, group mt 2, group mt 3 with
      | Some commits, Some name, Some email =>
          map_set email
            (mkContributorStats name email (parseInt commits)
               (Num 0) (Num 0) [] [])
            m
      | _, _, _ => m
      end
  | None => m
  end.

Definition parseShortlog (shortlog : str) : list (str * ContributorStats) :=
  fold_left addShortlogLine (split "010" shortlog) [].

(** [.sort((a, b) => b.commits - a.commits)]: a stable sort; a comparison
    that is not negative or positive (zero, NaN) leaves the order alone. *)
Definition comes_after (a b : ContributorStats) : bool :=
  match num_sub (commits b) (commits a) with
  | Num z => (0 <? z)%Z
  | Inf negative => negb negative
  | NaN => false
  end.

Fixpoint insert_sorted (a : ContributorStats) (l : list ContributorStats)
  : list ContributorStats :=
  match l with
  | [] => [a]
  | b :: l' => if comes_after a b then b :: insert_sorted a l' else a :: b :: l'
  end.

Definition sortByCommits (l : list ContributorStats) : list ContributorStats :=
  fold_right insert_sorted [] l.

(* ================================================================== *)
(** ** The shell and the monad of the methods *)

Record ExecResult : Type := mkExecResult {
  code : Z;
  stdout : str;
  stderr : str
}.

(** What the methods use of [shelljs], [fs] and [path], over a world [W]
    (file system, remote repositories, current directory). *)
Record Shell (W : Type) : Type := mkShell {
  sh_exec : str -> W -> ExecResult * W;     (* shell.exec(cmd, {silent}) *)
  sh_cd : str -> W -> W;                    (* shell.cd(dir) *)
  sh_rm_rf : str -> W -> W;                 (* shell.rm('-rf', path) *)
  sh_mkdir_p : str -> W -> W;               (* shell.mkdir('-p', dir) *)
  fs_existsSync : str -> W -> bool;         (* fs.existsSync(path) *)
  path_dirname : str -> str                 (* path.dirname(path) *)
}.

(** What a run does to the outside, in order.  Progress messages of the
    analyzer are left out; [EvReport] is the pair of [console.error] calls of
    the batch coordinator. *)
Inductive event : Type :=
| EvExec (cmd : str)
| EvCd (dir : str)
| EvRm (path : str)
| EvMkdir (dir : str)
| EvReport (path : str) (e : error).

Record state (W : Type) : Type := mkState {
  world : W;
  trace : list event
}.

Definition M (W A : Type) : Type := state W -> (error + A) * state W.

Definition ret {W A} (a : A) : M W A := fun st => (inr a, st).

Definition throw {W A} (e : error) : M W A := fun st => (inl e, st).

Definition bind {W A B} (c : M W A) (k : A -> M W B) : M W B :=
  fun st =>
    match c st with
    | (inr a, st') => k a st'
    | (inl e, st') => (inl e, st')
    end.

(** [try { c } catch (e) { h e }] *)
Definition try_catch {W A} (c : M W A) (h : error -> M W A) : M W A :=
  fun st =>
    match c st with
    | (inr a, st') => (inr a, st')
    | (inl e, st') => h e st'
    end.

(** [try { c } finally { f }], where [f] does not throw. *)
Definition try_finally {W A} (c : M W A) (f : M W unit) : M W A :=
  fun st =>
    match c st with
    | (r, st') => (r, snd (f st'))
    end.

Notation "x <- c ;; k" := (bind c (fun x => k))
  (at level 61, c at next level, right associativity).
Notation "c ;; k" := (bind c (fun _ => k))
  (at level 61, right associativity).

(* ================================================================== *)
(** ** [RepositoryAnalyzer] *)

(** The fields the constructor sets from the URL and the directory. *)
Record RepositoryAnalyzer : Type := mkRepositoryAnalyzer {
  repoUrl : str;
  urlParts : UrlParts;
  repoPath : str
}.

Definition dquote : ascii := "034".

Definition branch_char (c : ascii) : bool :=
  let n := nat_of_ascii c in
  (((97 <=? n) && (n <=? 122)) || ((65 <=? n) && (n <=? 90))
   || ((48 <=? n) && (n <=? 57))
   || (n =? 95) || (n =? 46) || (n =? 45))%nat.

(** [/^[a-zA-Z0-9_.-]+$/] *)
Definition branch_re : regex := Seq Bol (Seq (Plus branch_char) Eol).

(** [!defaultBranch || !/^[a-zA-Z0-9_.-]+$/.test(defaultBranch)] *)
Definition invalid_branch (defaultBranch : str) : bool :=
  match defaultBranch with
  | [] => true
  | _ :: _ => negb (test 0 branch_re defaultBranch)
  end.

Definition cmd_fetch : str := lit "git fetch --all --tags".
Definition cmd_head_branch : str :=
  lit "git remote show origin | grep " ++ [dquote] ++ lit "HEAD branch"
    ++ [dquote] ++ lit " | cut -d: -f2".
Definition cmd_symbolic_ref : str :=
  lit "git symbolic-ref refs/remotes/origin/HEAD".
Definition cmd_rev_parse (branch : str) : str :=
  lit "git rev-parse --verify origin/" ++ branch.
Definition cmd_reset (defaultBranch : str) : str :=
  lit "git reset --hard origin/" ++ defaultBranch.
Definition cmd_clean : str := lit "git clean -fd".
Definition cmd_get_url : str := lit "git remote get-url origin".
Definition cmd_clone (url path : str) : str :=
  lit "git clone " ++ url ++ lit " " ++ path.
Definition cmd_shortlog : str := lit "git shortlog -sne --all".
Definition cmd_author_dates (email : str) : str :=
  lit "git log --author=" ++ [dquote] ++ email ++ [dquote]
    ++ lit " --pretty=format:" ++ [dquote] ++ lit "%ad" ++ [dquote]
    ++ lit " --date=short --reverse".
Definition cmd_author_stats (email : str) : str :=
  lit "git log --author=" ++ [dquote] ++ email ++ [dquote]
    ++ lit " --shortstat --pretty=format:" ++ [dquote; dquote].
Definition cmd_log : str :=
  lit "git log --pretty=format:" ++ [dquote] ++ lit "%H|%an|%ad|%s"
    ++ [dquote] ++ lit " --date=short".

Section Methods.

Variable W : Type.
Variable sh : Shell W.

Definition shell_exec (cmd : str) : M W ExecResult :=
  fun st =>
    let (r, w) := sh_exec sh cmd (world st) in
    (inr r, mkState w (trace st ++ [EvExec cmd])).

Definition shell_cd (dir : str) : M W unit :=
  fun st => (inr tt, mkState (sh_cd sh dir (world st)) (trace st ++ [EvCd dir])).

Definition shell_rm_rf (path : str) : M W unit :=
  fun st =>
    (inr tt, mkState (sh_rm_rf sh path (world st)) (trace st ++ [EvRm path])).

Definition shell_mkdir_p (dir : str) : M W unit :=
  fun st =>
    (inr tt,
     mkState (sh_mkdir_p sh dir (world st)) (trace st ++ [EvMkdir dir])).

Definition existsSync (path : str) : M W bool :=
  fun st => (inr (fs_existsSync sh path (world st)), st).

Definition console_error_failure (path : str) (e : error) : M W unit :=
  fun st => (inr tt, mkState (world st) (trace st ++ [EvReport path e])).

Fixpoint mapM {A B} (f : A -> M W B) (l : list A) : M W (list B) :=
  match l with
  | [] => ret []
  | a :: l' => b <- f a ;; bs <- mapM f l' ;; ret (b :: bs)
  end.

Variable self : RepositoryAnalyzer.

Definition isValidGitRepo (path : str) : M W bool :=
  e <- existsSync path ;;
  if e then existsSync (path ++ lit "/.git") else ret false.

Definition getCurrentRemoteUrl : M W str :=
  result <- shell_exec cmd_get_url ;;
  ret (if (code result =? 0)%Z then trim (stdout result) else []).

Definition performFreshClone : M W unit :=
  result <- shell_exec (cmd_clone (repoUrl self) (repoPath self)) ;;
  if negb (code result =? 0)%Z then throw (CloneFailed (stderr result))
  else shell_cd (repoPath self).

(** The loop over ['main', 'master']: the first branch that exists on the
    remote, or [defaultBranch] unchanged. *)
Fixpoint probeBranches (branches : list str) (defaultBranch : str)
  : M W str :=
  match branches with
  | [] => ret defaultBranch
  | branch :: more =>
      checkBranch <- shell_exec (cmd_rev_parse branch) ;;
      if (code checkBranch =? 0)%Z then ret branch
      else probeBranches more defaultBranch
  end.

(** Lines 158-179 of [cloneRepo]: the value of [defaultBranch] when the
    final validation is reached. *)
Definition resolveDefaultBranch : M W str :=
  branchResult <- shell_exec cmd_head_branch ;;
  let defaultBranch := trim (stdout branchResult) in
  if invalid_branch defaultBranch then
    refsResult <- shell_exec cmd_symbolic_ref ;;
    if (code refsResult =? 0)%Z then
      ret (replace_str (lit "refs/remotes/origin/") []
             (trim (stdout refsResult)))
    else probeBranches [lit "main"; lit "master"] defaultBranch
  else ret defaultBranch.

(** Lines 181-198 of [cloneRepo]: validation, reset and clean. *)
Definition resetTo (defaultBranch : str) : M W unit :=
  if invalid_branch defaultBranch then throw BranchUndetermined
  else
    resetResult <- shell_exec (cmd_reset defaultBranch) ;;
    if negb (code resetResult =? 0)%Z
    then throw (ResetFailed defaultBranch (stderr resetResult))
    else
      cleanResult <- shell_exec cmd_clean ;;
      if negb (code cleanResult =? 0)%Z
      then throw (CleanFailed (stderr cleanResult))
      else ret tt.

(** Lines 151-198 of [cloneRepo]: the update of an existing working copy. *)
Definition updateExisting : M W unit :=
  fetchResult <- shell_exec cmd_fetch ;;
  if negb (code fetchResult =? 0)%Z
  then throw (FetchFailed (stderr fetchResult))
  else
    defaultBranch <- resolveDefaultBranch ;;
    resetTo defaultBranch.

Definition cloneRepo : M W unit :=
  shell_mkdir_p (path_dirname sh (repoPath self)) ;;
  valid <- isValidGitRepo (repoPath self) ;;
  if valid then
    shell_cd (repoPath self) ;;
    currentUrl <- getCurrentRemoteUrl ;;
    let expectedUrl := repoUrl self in
    if str_eqb (normalizeGitUrl currentUrl) (normalizeGitUrl expectedUrl)
    then updateExisting
    else
      shell_rm_rf (repoPath self) ;;
      performFreshClone
  else performFreshClone.

(** The body of the loop over the contributors map. *)
Definition authorDetails (entry : str * ContributorStats)
  : M W ContributorStats :=
  let (email, stats) := entry in
  datesResult <- shell_exec (cmd_author_dates email) ;;
  let authorLog := split "010" (stdout datesResult) in
  let '(firstDate, lastDate) :=
    match authorLog with
    | [] => (c_firstCommit stats, c_lastCommit stats)
    | d :: ds => (d, last ds d)
    end in
  statsResult <- shell_exec (cmd_author_stats email) ;;
  let authorStats := stdout statsResult in
  ret (mkContributorStats (name stats) (email) (commits stats)
         (sumMatches insertion_re authorStats)
         (sumMatches deletion_re authorStats)
         firstDate lastDate).

Definition analyzeContributors : M W (list ContributorStats) :=
  shortlogResult <- shell_exec cmd_shortlog ;;
  let contributors := parseShortlog (stdout shortlogResult) in
  detailed <- mapM authorDetails contributors ;;
  ret (sortByCommits detailed).

Definition getCommitHistory : M W (list CommitInfo) :=
  logResult <- shell_exec cmd_log ;;
  ret (parseCommitLog (stdout logResult)).

Definition cleanup : M W unit := shell_rm_rf (repoPath self).

(** The [try] block of [cloneAndAnalyze]. *)
Definition analysis : M W AnalysisResult :=
  cloneRepo ;;
  contributors <- analyzeContributors ;;
  commits <- getCommitHistory ;;
  ret (mkAnalysisResult (makeSummary contributors commits)
         contributors (firstn 10 commits) (repoPath self)).

Definition cloneAndAnalyze : M W AnalysisResult :=
  try_catch analysis (fun e => cleanup ;; throw e).

End Methods.

(* ================================================================== *)
(** ** [MultiRepoAnalyzer] *)

Section Sequential.

Variable W : Type.
Variable sh : Shell W.

(** The [for ... of] loop of [analyzeAll]. *)
Fixpoint analyzeAll_loop (originalCwd : str)
    (analyzers : list RepositoryAnalyzer) (results : list AnalysisResult)
  : M W (list AnalysisResult) :=
  match analyzers with
  | [] => ret results
  | analyzer :: more =>
      results' <-
        try_finally
          (try_catch
             (result <- cloneAndAnalyze sh analyzer ;;
              ret (results ++ [result]))
             (fun e =>
                console_error_failure (repoPath analyzer) e ;;
                ret results))
          (shell_cd sh originalCwd) ;;
      analyzeAll_loop originalCwd more results'
  end.

(** [originalCwd] is [process.cwd()] at the call. *)
Definition analyzeAll (originalCwd : str)
    (analyzers : list RepositoryAnalyzer) : M W (list AnalysisResult) :=
  analyzeAll_loop originalCwd analyzers [].

End Sequential.

Section Parallel.

(** [a.slice(i, j)] for [0 <= i <= j]. *)
Definition slice {A} (i j : nat) (l : list A) : list A :=
  firstn (j - i) (skipn i l).

(** The chunk-splitting loop
    [for (let i = 0; i < analyzers.length; i += concurrency)].
    [None]: the loop is still running after [fuel] iterations. *)
Fixpoint chunk_loop {A} (fuel i concurrency : nat) (analyzers : list A)
    (chunks : list (list A)) : option (list (list A)) :=
  match fuel with
  | O => None
  | S fuel' =>
      if (i <? length analyzers)%nat then
        chunk_loop fuel' (i + concurrency) concurrency analyzers
          (chunks ++ [slice i (i + concurrency) analyzers])
      else Some chunks
  end.

(** How the promise of [analyzer.cloneAndAnalyze()] settles, under
    whatever interleaving the event loop gives the analyses of a chunk.  The
    shell is not part of this model, so the [shell.cd(originalCwd)] of the
    callback does not appear.  The outcome is taken as given for each
    analyzer: the model does not derive it from the shell, and says nothing
    on how the analyses of a chunk affect each other through the shared
    working directory. *)
Variable settle : RepositoryAnalyzer -> error + AnalysisResult.

(** The async callback given to [chunk.map]: it catches every error and
    resolves to the result or to [null]. *)
Definition chunkTask (analyzer : RepositoryAnalyzer)
  : error + option AnalysisResult :=
  match settle analyzer with
  | inr result => inr (Some result)
  | inl _ => inr None
  end.

(** [Promise.all]: the values in the order of the promises, or a
    rejection. *)
Fixpoint promise_all {X} (ps : list (error + X)) : error + list X :=
  match ps with
  | [] => inr []
  | inl e :: _ => inl e
  | inr x :: ps' =>
      match promise_all ps' with
      | inl e => inl e
      | inr xs => inr (x :: xs)
      end
  end.

(** [chunkResults.filter(result => result !== null)] *)
Fixpoint filter_non_null {X} (l : list (option X)) : list X :=
  match l with
  | [] => []
  | Some x :: l' => x :: filter_non_null l'
  | None :: l' => filter_non_null l'
  end.

(** The loop over the chunks. *)
Fixpoint process_chunks (chunks : list (list RepositoryAnalyzer))
    (results : list AnalysisResult) : error + list AnalysisResult :=
  match chunks with
  | [] => inr results
  | chunk :: more =>
      match promise_all (map chunkTask chunk) with
      | inl e => inl e
      | inr chunkResults =>
          process_chunks more (results ++ filter_non_null chunkResults)
      end
  end.

Definition analyzeAllParallel (fuel concurrency : nat)
    (analyzers : list RepositoryAnalyzer)
  : option (error + list AnalysisResult) :=
  match chunk_loop fuel 0 concurrency analyzers [] with
  | None => None
  | Some chunks => Some (process_chunks chunks [])
  end.

End Parallel.

(* ================================================================== *)
(** ** Specifications used by the statements *)

(** [tl] is a split of [analyzers] from index [i] on into consecutive chunks
    of [concurrency] elements, the last one possibly shorter. *)
Record chunks_from {A} (analyzers : list A) (concurrency i : nat)
    (tl : list (list A)) : Prop := {
  cf_concat : concat tl = skipn i analyzers;
  cf_done : length analyzers <= i -> tl = [];
  cf_nth : forall k, k < length tl ->
      nth k tl [] = slice (i + k * concurrency)
                          (i + k * concurrency + concurrency) analyzers;
  cf_size : Forall (fun c => 1 <= length c <= concurrency) tl;
  cf_full : forall k, S k < length tl -> length (nth k tl []) = concurrency
}.

(** Following the words of the specification of the shortstat totals: the
    sum of the integers of [s] that are immediately followed by [word].  An
    integer is a maximal run of decimal digits; in a shortstat line one space
    separates it from its word ([3 insertions(+)]).  [in_number] tells that
    the previous character was a digit of the same integer. *)
Fixpoint marked_sum (word : str) (in_number : bool) (s : str) : Z :=
  match s with
  | [] => 0
  | c :: s' =>
      if is_digit c then
        ((if in_number then 0
          else if is_prefix (" " :: word) (drop_while is_digit s)
               then radix_value 10 digit_val (take_while is_digit s)
               else 0)
         + marked_sum word true s')%Z
      else marked_sum word false s'
  end.

(** The integers of that sum, in the order of the text. *)
Fixpoint marked_counts (word : str) (in_number : bool) (s : str) : list Z :=
  match s with
  | [] => []
  | c :: s' =>
      if is_digit c then
        (if in_number then []
         else if is_prefix (" " :: word) (drop_while is_digit s)
              then [radix_value 10 digit_val (take_while is_digit s)]
              else [])
        ++ marked_counts word true s'
      else marked_counts word false s'
  end.

(** The results among settled outcomes, in order. *)
Fixpoint successes {X} (l : list (error + X)) : list X :=
  match l with
  | [] => []
  | inr x :: l' => x :: successes l'
  | inl _ :: l' => successes l'
  end.

Section SequentialOutcomes.

Variable W : Type.
Variable sh : Shell W.
Variable originalCwd : str.

(** One repository in sequential mode: how its analysis ends, and the state
    in which the next one starts (after the report of a failure and the
    return to the original directory). *)
Definition run_one (analyzer : RepositoryAnalyzer) (st : state W)
  : (error + AnalysisResult) * state W :=
  let (r, st1) := cloneAndAnalyze sh analyzer st in
  match r with
  | inr _ => (r, snd (shell_cd sh originalCwd st1))
  | inl e =>
      (r, snd (shell_cd sh originalCwd
                 (snd (console_error_failure (repoPath analyzer) e st1))))
  end.

(** All the repositories in input order: the outcome of each, and the
    final state. *)
Fixpoint run_each (analyzers : list RepositoryAnalyzer) (st : state W)
  : list (error + AnalysisResult) * state W :=
  match analyzers with
  | [] => ([], st)
  | analyzer :: more =>
      let (r, st1) := run_one analyzer st in
      let (rs, st2) := run_each more st1 in
      (r :: rs, st2)
  end.

End SequentialOutcomes.

(** [c] keeps the events already recorded. *)
Definition appends {W A} (c : M W A) : Prop :=
  forall st, exists t, trace (snd (c st)) = trace st ++ t.

(* ================================================================== *)
(** ** Concrete shells and repositories for the examples *)

(** A shell without state: a command's result depends on the command only,
    and every path either exists or not. *)
Definition scripted_shell (present : bool) (script : str -> ExecResult)
  : Shell unit :=
  mkShell (fun cmd w => (script cmd, w))
          (fun _ w => w) (fun _ w => w) (fun _ w => w)
          (fun _ _ => present)
          (fun path => path ++ lit "/..").

Definition demo_analyzer (owner repo : string) : RepositoryAnalyzer :=
  mkRepositoryAnalyzer
    (lit "https://github.com/" ++ lit owner ++ lit "/" ++ lit repo)
    (mkUrlParts (Some (lit owner)) (Some (lit repo)))
    (lit "/work/temp/" ++ lit owner ++ lit "/" ++ lit repo).

Definition demo_result (path : string) : AnalysisResult :=
  mkAnalysisResult (mkRepositorySummary 1 0 [] []) [] [] (lit path).

(** Five repositories of which the third fails to clone. *)
Definition demo_settle (a : RepositoryAnalyzer) : error + AnalysisResult :=
  if str_eqb (repoPath a) (lit "/work/temp/o/r3")
  then inl (CloneFailed (lit "fatal: repository not found"))
  else inr (mkAnalysisResult (mkRepositorySummary 1 0 [] []) [] []
              (repoPath a)).

(** Every hard reset recorded in the trace is to a branch name that passes
    the allow-list test. *)
Definition resets_validated (t : list event) : Prop :=
  forall b, In (EvExec (cmd_reset b)) t -> test 0 branch_re b = true.

(** A command that is not a hard reset, or one to a validated branch. *)
Definition safe_cmd (cmd : str) : Prop :=
  forall b, cmd = cmd_reset b -> test 0 branch_re b = true.

(** [c] issues safe commands only. *)
Definition keeps_resets_validated {W A} (c : M W A) : Prop :=
  forall st, resets_validated (trace st) ->
             resets_validated (trace (snd (c st))).

(** The state in which [cleanup] leaves [st]. *)
Definition cleaned {W} (sh : Shell W) (self : RepositoryAnalyzer)
    (st : state W) : state W :=
  mkState (sh_rm_rf sh (repoPath self) (world st))
          (trace st ++ [EvRm (repoPath self)]).

Definition not_reset (cmd : str) : Prop := forall b, cmd <> cmd_reset b.

(** [c] returns a value and issues no hard reset. *)
Definition queries_only {W A} (c : M W A) : Prop :=
  forall st,
    (exists a, fst (c st) = inr a)
    /\ forall b, In (EvExec (cmd_reset b)) (trace (snd (c st))) ->
                 In (EvExec (cmd_reset b)) (trace st).

(** A repository whose remote HEAD query prints nothing and whose symbolic
    ref names a branch with a slash. *)
Definition demo_unresolved_script (cmd : str) : ExecResult :=
  if str_eqb cmd cmd_symbolic_ref
  then mkExecResult 0 (lit "refs/remotes/origin/feature/x") []
  else mkExecResult 0 [] [].

(** Every command fails, as without network. *)
Definition demo_failing_script (cmd : str) : ExecResult :=
  mkExecResult 128 [] (lit "fatal").

(** Every command succeeds and prints nothing: a repository without
    commits. *)
Definition demo_silent_script (cmd : str) : ExecResult :=
  mkExecResult 0 [] [].

(** The working copy is a clone of another repository. *)
Definition demo_other_remote_script (cmd : str) : ExecResult :=
  mkExecResult 0 (lit "https://github.com/o/other") [].

(* ================================================================== *)
(** ** Further specifications *)

(** [st'] is [st] after the characters [x]. *)
Definition after (x : str) (st st' : mstate) : Prop :=
  rest st = x ++ rest st' /\ pos st' = pos st + length x.

(** What a failure of the acquisition says about the command it stopped at:
    [e] is the error thrown, [cmd] the last command run and [r] its
    result. *)
Definition failed_at (self : RepositoryAnalyzer) (e : error) (cmd : str)
    (r : ExecResult) : Prop :=
  match e with
  | CloneFailed msg =>
      cmd = cmd_clone (repoUrl self) (repoPath self)
      /\ code r <> 0%Z /\ msg = stderr r
  | FetchFailed msg => cmd = cmd_fetch /\ code r <> 0%Z /\ msg = stderr r
  | ResetFailed b msg =>
      cmd = cmd_reset b /\ code r <> 0%Z /\ msg = stderr r
      /\ test 0 branch_re b = true
  | CleanFailed msg => cmd = cmd_clean /\ code r <> 0%Z /\ msg = stderr r
  | BranchUndetermined =>
      (cmd = cmd_symbolic_ref /\ code r = 0%Z)
      \/ (cmd = cmd_rev_parse (lit "master") /\ code r <> 0%Z)
  | UnableToParse _ => False
  end.

(** [parts.join(sep)], the inverse of [split]. *)
Fixpoint join (sep : ascii) (parts : list str) : str :=
  match parts with
  | [] => []
  | [p] => p
  | p :: more => p ++ sep :: join sep more
  end.

(** A line of [git log --pretty=format:"%H|%an|%ad|%s"]. *)
Definition formatCommit (c : str * str * str * str) : str :=
  let '(h, a, d, m) := c in h ++ "|" :: a ++ "|" :: d ++ "|" :: m.

(** The record of a commit whose four fields are known. *)
Definition commitOf (c : str * str * str * str) : CommitInfo :=
  let '(h, a, d, m) := c in mkCommitInfo (Some h) (Some a) (Some d) (Some m).

(** None of the first three fields has a bar, and no field a newline. *)
Definition clean_commit (c : str * str * str * str) : Prop :=
  let '(h, a, d, m) := c in
  ~ In "|" h /\ ~ In "|" a /\ ~ In "|" d
  /\ ~ In "010" h /\ ~ In "010" a /\ ~ In "010" d /\ ~ In "010" m.

(** The two queries [analyzeContributors] runs for an entry of the map. *)
Definition author_queries (entry : str * ContributorStats) : list event :=
  [EvExec (cmd_author_dates (fst entry));
   EvExec (cmd_author_stats (fst entry))].

(** A number that is neither NaN nor negative: an integer from 0 on, or
    the positive infinity. *)
Definition not_negative (n : number) : Prop :=
  match n with
  | Num z => (0 <= z)%Z
  | Inf negative => negative = false
  | NaN => False
  end.

(** [a <= b] on numbers; false as soon as one of them is NaN. *)
Definition num_leb (a b : number) : bool :=
  match a, b with
  | NaN, _ => false
  | _, NaN => false
  | Inf true, _ => true
  | _, Inf false => true
  | Num x, Num y => (x <=? y)%Z
  | _, _ => false
  end.

(** [a === b] on numbers. *)
Definition num_eqb (a b : number) : bool :=
  match a, b with
  | Num x, Num y => (x =? y)%Z
  | Inf s, Inf t => Bool.eqb s t
  | _, _ => false
  end.

(** The commit count is a number that is not negative. *)
Definition counted (c : ContributorStats) : Prop := not_negative (commits c).

(** From the most commits to the fewest. *)
Definition by_commits_desc (a b : ContributorStats) : Prop :=
  num_leb (commits b) (commits a) = true.

(** The additions and deletions are numbers that are not negative. *)
Definition totalled (c : ContributorStats) : Prop :=
  not_negative (additions c) /\ not_negative (deletions c).

(** [c] is the entry [entry] of the map after its two queries. *)
Definition details_of (entry : str * ContributorStats) (c : ContributorStats)
  : Prop :=
  email c = fst entry /\ name c = name (snd entry)
  /\ commits c = commits (snd entry) /\ totalled c.

(** The count [ds], the name [nm] and the address [em] of a line of
    [git shortlog -sne], with the white space [sp1] and [sp2] between
    them. *)
Definition shortlog_fields (ds sp1 nm sp2 em : str) : Prop :=
  (ds <> [] /\ forallb is_digit ds = true)
  /\ (sp1 <> [] /\ forallb is_space sp1 = true)
  /\ (nm <> [] /\ forallb not_newline nm = true)
  /\ (sp2 <> [] /\ forallb is_space sp2 = true)
  /\ (em <> [] /\ forallb not_newline em = true).

(** The name is set off from the rest of the line: it has no [<] and
    neither starts nor ends with white space. *)
Definition plain_name (nm : str) : Prop :=
  is_space (hd "x" nm) = false /\ is_space (last nm "x") = false
  /\ ~ In "<" nm.

(** The entry that a line with these fields sets. *)
Definition shortlog_entry (ds nm em : str) : ContributorStats :=
  mkContributorStats nm em (to_double (radix_value 10 digit_val ds))
    (Num 0) (Num 0) [] [].

(** No line of [lines] ends, white space apart, with [<em>]. *)
Definition no_line_of (em : str) (lines : list str) : Prop :=
  forall line pre, In line lines -> trim line <> pre ++ "<" :: em ++ [">"].

(* ================================================================== *)
(** ** The constructors and [getRepositoryInfo] *)

(** What the constructor of [RepositoryAnalyzer] can throw. *)
Inductive construction_error : Type :=
| UrlError (e : error)   (* thrown by parseGitUrl *)
| PathArgument           (* the TypeError of path.join on undefined *)
| GitRequired.           (* Git is required but not installed. *)

Section Construction.

Variable path_join : list str -> str.   (* path.join(...segments) *)
Variable cwd : str.                     (* process.cwd() *)
Variable gitInstalled : bool.           (* shell.which('git') is not null *)

(** [new RepositoryAnalyzer(repoUrl, tempDir)] *)
Definition newRepositoryAnalyzer (url tempDir : str)
  : construction_error + RepositoryAnalyzer :=
  match parseGitUrl url with
  | inl e => inl (UrlError e)
  | inr parts =>
      match username parts, repoName parts with
      | Some user, Some repo =>
          let path := path_join [cwd; tempDir; user; repo] in
          if gitInstalled then inr (mkRepositoryAnalyzer url parts path)
          else inl GitRequired
      | _, _ => inl PathArgument
      end
  end.

(** The constructor of [MultiRepoAnalyzer]:
    [repoUrls.map(url => new RepositoryAnalyzer(url, tempDir))] *)
Fixpoint newMultiRepoAnalyzer (repoUrls : list str) (tempDir : str)
  : construction_error + list RepositoryAnalyzer :=
  match repoUrls with
  | [] => inr []
  | url :: more =>
      match newRepositoryAnalyzer url tempDir with
      | inl e => inl e
      | inr analyzer =>
          match newMultiRepoAnalyzer more tempDir with
          | inl e => inl e
          | inr analyzers => inr (analyzer :: analyzers)
          end
      end
  end.

End Construction.

Record RepositoryInfo : Type := mkRepositoryInfo {
  info_username : option str;
  info_repoName : option str;
  fullPath : str
}.

Definition getRepositoryInfo (self : RepositoryAnalyzer) : RepositoryInfo :=
  mkRepositoryInfo (username (urlParts self)) (repoName (urlParts self))
                   (repoPath self).

Definition getRepositoriesInfo (analyzers : list RepositoryAnalyzer)
  : list RepositoryInfo :=
  map getRepositoryInfo analyzers.

(** A path join for the examples: the segments with slashes between. *)
Fixpoint demo_path_join (segments : list str) : str :=
  match segments with
  | [] => []
  | [s] => s
  | s :: more => s ++ "/" :: demo_path_join more
  end.

(** The four ways of writing the repository at [path] ([owner/repo]) on
    github.com. *)
Definition github_forms (path : str) : list str :=
  [lit "https://github.com/" ++ path;
   lit "https://github.com/" ++ path ++ lit ".git";
   lit "git@github.com:" ++ path;
   lit "git@github.com:" ++ path ++ lit ".git"].

(** The working copy was cloned over SSH: every command prints the SSH URL
    and a newline. *)
Definition demo_ssh_remote_script (cmd : str) : ExecResult :=
  mkExecResult 0 (lit "git@github.com:o/r.git" ++ ["010"]) [].

(** The run of [r] that a backtracking matcher finds first from [st]: it
    consumes [x], leaves [z] and the captures [c]. *)
Definition first_run (r : regex) (x z : str) (c : list (option str))
    (st st' : mstate) : Prop :=
  hd_error (runs r st) = Some st'
  /\ rest st = x ++ z /\ rest st' = z
  /\ pos st' = pos st + length x /\ caps st' = c.

(** An up-to-date working copy of the repository: the remote is the
    analyzer's URL with [.git], the remote HEAD is [main], every command
    succeeds. *)
Definition demo_update_script (cmd : str) : ExecResult :=
  if str_eqb cmd cmd_get_url
  then mkExecResult 0 (lit "https://github.com/o/r.git" ++ ["010"]) []
  else if str_eqb cmd cmd_head_branch
       then mkExecResult 0 (lit " main" ++ ["010"]) []
       else mkExecResult 0 [] [].

(* ================================================================== *)
(** ** Commands whose failure is fatal *)

(** The commands whose exit code [cloneRepo] reads and turns into an error
    when it is not 0: the clone, the fetch, the reset and the clean. *)
Definition fatal_if_failed (cmd : str) : bool :=
  is_prefix (lit "git clone ") cmd
  || str_eqb cmd cmd_fetch
  || is_prefix (lit "git reset --hard origin/") cmd
  || str_eqb cmd cmd_clean.

(** The world after one event, and after the events of a trace. *)
Definition world_step {W} (sh : Shell W) (w : W) (ev : event) : W :=
  match ev with
  | EvExec cmd => snd (sh_exec sh cmd w)
  | EvCd dir => sh_cd sh dir w
  | EvRm path => sh_rm_rf sh path w
  | EvMkdir dir => sh_mkdir_p sh dir w
  | EvReport _ _ => w
  end.

Definition world_after {W} (sh : Shell W) (w : W) (t : list event) : W :=
  fold_left (world_step sh) t w.

(** Every clone, fetch, reset and clean among the events [t], run from the
    world [w], exits with code 0. *)
Fixpoint fatal_ok {W} (sh : Shell W) (w : W) (t : list event) : Prop :=
  match t with
  | [] => True
  | ev :: t' =>
      match ev with
      | EvExec cmd =>
          fatal_if_failed cmd = true -> code (fst (sh_exec sh cmd w)) = 0%Z
      | _ => True
      end
      /\ fatal_ok sh (world_step sh w ev) t'
  end.

(** The clone succeeds and every other command fails, as [git log] does in
    a repository that has no commit yet. *)
Definition demo_history_fails_script (cmd : str) : ExecResult :=
  if is_prefix (lit "git clone ") cmd then mkExecResult 0 [] []
  else mkExecResult 128 []
         (lit "fatal: your current branch 'main' does not have any commits yet").

(** The entry of [k] with value [v] is what a line of [lines] sets. *)
Definition set_by_line (lines : list str) (k : str) (v : ContributorStats)
  : Prop :=
  exists line sp0 ds sp1 nm sp2,
    In line lines
    /\ trim line = sp0 ++ ds ++ sp1 ++ nm ++ sp2 ++ "<" :: k ++ [">"]
    /\ forallb is_space sp0 = true
    /\ shortlog_fields ds sp1 nm sp2 k
    /\ v = shortlog_entry ds nm k.

(** The shortlog names two authors; the other commands print nothing. *)
Definition demo_shortlog_script (cmd : str) : ExecResult :=
  if str_eqb cmd cmd_shortlog
  then mkExecResult 0
         (lit "     3" ++ "009" :: lit "Ann <a@e.c>" ++ "010"
            :: lit "     1" ++ "009" :: lit "Bob <b@e.c>") []
  else mkExecResult 0 [] [].

(* ================================================================== *)
(** ** Lists and prefixes *)

Lemma firstn_exact {A} (l x : list A) : firstn (length l) (l ++ x) = l.
Proof. induction l as [|a l IH]; simpl; [now destruct x | now rewrite IH]. Qed.

Lemma skipn_exact {A} (l x : list A) : skipn (length l) (l ++ x) = x.
Proof. induction l as [|a l IH]; simpl; [reflexivity | exact IH]. Qed.

Lemma is_prefix_app (l x : str) : is_prefix l (l ++ x) = true.
Proof.
  induction l as [|a l IH]; simpl; [reflexivity|].
  now rewrite Ascii.eqb_refl, IH.
Qed.

Lemma is_prefix_true (l s : str) :
  is_prefix l s = true -> s = l ++ skipn (length l) s.
Proof.
  revert s. induction l as [|a l IH]; intros [|b s]; simpl; try discriminate;
    [reflexivity | reflexivity |].
  rewrite andb_true_iff, Ascii.eqb_eq. intros [-> H].
  now rewrite <- (IH s H).
Qed.

Lemma flat_map_nil {A B} (f : A -> list B) (l : list A) :
  (forall a, In a l -> f a = []) -> flat_map f l = [].
Proof.
  induction l as [|a l IH]; simpl; intros H; [reflexivity|].
  rewrite (H a (or_introl eq_refl)), IH; [reflexivity|].
  intros b Hb. apply H. now right.
Qed.

(* ================================================================== *)
(** ** The matcher *)

Module RegexFacts.

Lemma runs_Str_app (l x : str) (p : nat) (c : list (option str)) :
  runs (Str l) (MState p (l ++ x) c) = [MState (p + length l) x c].
Proof.
  simpl. rewrite is_prefix_app. unfold advance. simpl.
  now rewrite skipn_exact.
Qed.

Lemma runs_Seq_Str_fail (l : str) (r : regex) (st : mstate) :
  is_prefix l (rest st) = false -> runs (Seq (Str l) r) st = [].
Proof. intros H. simpl. now rewrite H. Qed.

Lemma runs_Seq_Str_app (l x : str) (r : regex) (p : nat)
    (c : list (option str)) :
  runs (Seq (Str l) r) (MState p (l ++ x) c)
  = runs r (MState (p + length l) x c).
Proof.
  change (runs (Seq (Str l) r) (MState p (l ++ x) c))
    with (flat_map (runs r) (runs (Str l) (MState p (l ++ x) c))).
  rewrite runs_Str_app. simpl. apply app_nil_r.
Qed.

Lemma match_here_none (n : nat) (r : regex) (p : nat) (s : str) :
  runs r (MState p s (repeat None (S n))) = [] -> match_here n r p s = None.
Proof. unfold match_here. now intros ->. Qed.

Lemma search_from_skip (n : nat) (r : regex) (p : nat) (a : ascii) (s : str) :
  match_here n r p (a :: s) = None ->
  search_from n r p (a :: s) = search_from n r (S p) s.
Proof. intros H. simpl. now rewrite H. Qed.

Lemma search_from_found (n : nat) (r : regex) (p : nat) (s : str)
    (m : rmatch) :
  match_here n r p s = Some m -> search_from n r p s = Some m.
Proof. intros H. destruct s; simpl; now rewrite H. Qed.

Lemma search_from_none (n : nat) (r : regex) (s : str) :
  forall p,
    (forall k, k <= length s -> match_here n r (p + k) (skipn k s) = None) ->
    search_from n r p s = None.
Proof.
  induction s as [|a s IH]; intros p H.
  - simpl. specialize (H 0 (le_n _)). rewrite Nat.add_0_r in H.
    simpl in H. now rewrite H.
  - rewrite search_from_skip.
    + apply IH. intros k Hk. specialize (H (S k)).
      rewrite Nat.add_succ_r in H. apply H. simpl. lia.
    + specialize (H 0). rewrite Nat.add_0_r in H. apply H. lia.
Qed.

(** A greedy [c]+ followed by something that cannot start with a [c]:
    only the longest run goes on. *)
Lemma greedy_then {B} (p : ascii -> bool) (f : mstate -> list B)
    (g : nat * str -> mstate) (c : ascii) (x : str) :
  p c = false ->
  (forall m a y, p a = true -> f (g (m, a :: y)) = []) ->
  forall o n,
    o <> [] -> forallb p o = true ->
    flat_map f (map g (greedy_ends p n (o ++ c :: x)))
    = f (g (n + length o, c :: x)).
Proof.
  intros Hc Hfail. induction o as [|a o IH]; intros n Hne Ho; [congruence|].
  simpl in Ho. apply andb_true_iff in Ho as [Ha Ho].
  simpl. rewrite Ha, map_app, flat_map_app. simpl.
  destruct o as [|b o].
  - simpl. rewrite Hc. simpl. rewrite app_nil_r.
    now replace (n + 1) with (S n) by lia.
  - rewrite IH by (auto; discriminate).
    change ((b :: o) ++ c :: x) with (b :: o ++ c :: x).
    rewrite (Hfail (S n) b), !app_nil_r.
    + f_equal. f_equal. f_equal. simpl. lia.
    + simpl in Ho. now apply andb_true_iff in Ho as [Hb _].
Qed.

(** A lazy [c]+? : the stops that the continuation refuses are passed
    over. *)
Lemma lazy_then {B} (p : ascii -> bool) (f : mstate -> list B)
    (g : nat * str -> mstate) (z : str) :
  forall q n a,
    p a = true -> forallb p q = true ->
    (forall m k, k < length q -> f (g (m, skipn k q ++ z)) = []) ->
    flat_map f (map g (lazy_ends p n (a :: q ++ z)))
    = f (g (n + 1 + length q, z))
      ++ flat_map f (map g (lazy_ends p (n + 1 + length q) z)).
Proof.
  induction q as [|b q IH]; intros n a Ha Hq Hfail.
  - simpl. rewrite Ha. simpl.
    now replace (n + 1 + 0) with (S n) by lia.
  - simpl in Hq. apply andb_true_iff in Hq as [Hb Hq].
    change (a :: (b :: q) ++ z) with (a :: b :: q ++ z).
    cbn [lazy_ends]. rewrite Ha. cbn [map flat_map].
    pose proof (Hfail (S n) 0 ltac:(simpl; lia)) as H0.
    cbn [skipn app] in H0. rewrite H0. cbn [app].
    specialize (IH (S n) b Hb Hq). cbn [lazy_ends] in IH.
    rewrite Hb in IH. rewrite Hb. rewrite IH.
    + simpl. now replace (n + 1 + S (length q)) with (S (n + 1 + length q))
        by lia.
    + intros m k Hk. apply (Hfail m (S k)). simpl. lia.
Qed.

End RegexFacts.

(* ================================================================== *)
(** ** Strings: equality *)

Lemma str_eqb_eq (a b : str) : str_eqb a b = true <-> a = b.
Proof.
  revert b. induction a as [|x a IH]; intros [|y b]; simpl;
    try (split; [discriminate | discriminate]); [tauto|].
  rewrite andb_true_iff, Ascii.eqb_eq, IH.
  split; [intros [-> ->]; reflexivity | intros H; injection H; auto].
Qed.

Lemma str_eqb_neq (a b : str) : str_eqb a b = false <-> a <> b.
Proof.
  rewrite <- str_eqb_eq. destruct (str_eqb a b); split; congruence.
Qed.

(* ================================================================== *)
(** ** [cloneAndAnalyze]: failures *)

Section AnalysisFacts.

Variable W : Type.
Variable sh : Shell W.
Variable self : RepositoryAnalyzer.

Lemma authorDetails_returns (entry : str * ContributorStats) (st : state W) :
  exists c st', authorDetails sh entry st = (inr c, st').
Proof.
  destruct entry as [email stats]. unfold authorDetails, bind, shell_exec, ret.
  destruct (sh_exec sh (cmd_author_dates email) (world st)) as [r1 w1].
  destruct (split "010" (stdout r1)); simpl;
    destruct (sh_exec sh (cmd_author_stats email) w1); eauto.
Qed.

Lemma mapM_authorDetails_returns (l : list (str * ContributorStats)) :
  forall st, exists cs st', mapM (authorDetails sh) l st = (inr cs, st').
Proof.
  induction l as [|entry l IH]; intros st; simpl.
  - unfold ret. eauto.
  - unfold bind at 1.
    destruct (authorDetails_returns entry st) as (c & st1 & ->).
    unfold bind at 1. destruct (IH st1) as (cs & st2 & ->).
    unfold ret. eauto.
Qed.

Lemma analyzeContributors_returns (st : state W) :
  exists cs st', analyzeContributors sh st = (inr cs, st').
Proof.
  unfold analyzeContributors, bind at 1, shell_exec.
  destruct (sh_exec sh cmd_shortlog (world st)) as [r w].
  unfold bind.
  destruct (mapM_authorDetails_returns (parseShortlog (stdout r))
              (mkState w (trace st ++ [EvExec cmd_shortlog])))
    as (cs & st1 & ->).
  unfold ret. eauto.
Qed.

Lemma getCommitHistory_returns (st : state W) :
  exists commits st', getCommitHistory sh st = (inr commits, st').
Proof.
  unfold getCommitHistory, bind, shell_exec, ret.
  destruct (sh_exec sh cmd_log (world st)). eauto.
Qed.

(** Only the acquisition can fail; nothing runs after it fails. *)
Lemma analysis_fails_in_cloneRepo (st st1 : state W) (e : error) :
  analysis sh self st = (inl e, st1) <-> cloneRepo sh self st = (inl e, st1).
Proof.
  unfold analysis, bind at 1.
  destruct (cloneRepo sh self st) as [[e0|[]] st0]; cbv iota beta.
  - split; intros H; injection H as -> ->; reflexivity.
  - unfold bind at 1.
    destruct (analyzeContributors_returns st0) as (cs & st2 & ->).
    unfold bind at 1.
    destruct (getCommitHistory_returns st2) as (commits & st3 & ->).
    unfold ret. split; discriminate.
Qed.

End AnalysisFacts.

(* ================================================================== *)
(** ** The commit log and the summary *)

Lemma split_nonempty (sep : ascii) (s : str) : split sep s <> [].
Proof.
  induction s as [|c s IH]; simpl; [discriminate|].
  destruct (Ascii.eqb c sep); [discriminate|].
  destruct (split sep s); [congruence | discriminate].
Qed.

Lemma parseCommitLog_nonempty (log : str) : parseCommitLog log <> [].
Proof.
  unfold parseCommitLog. pose proof (split_nonempty "010" log) as H.
  destruct (split "010" log); [congruence | discriminate].
Qed.

(** The summary counts the records; its dates are those of the last and of
    the first record. *)
Lemma makeSummary_fields (contributors : list ContributorStats)
    (first : CommitInfo) (more : list CommitInfo) :
  let s := makeSummary contributors (first :: more) in
  totalCommits s = S (length more)
  /\ firstCommit s = date_or_empty (Some (last more first))
  /\ lastCommit s = date_or_empty (Some first).
Proof. repeat split. Qed.

(** The summary of [cloneAndAnalyze] never counts zero commits. *)
Lemma totalCommits_positive {W} (sh : Shell W) (self : RepositoryAnalyzer)
    (st st' : state W) (r : AnalysisResult) :
  cloneAndAnalyze sh self st = (inr r, st') -> 1 <= totalCommits (summary r).
Proof.
  unfold cloneAndAnalyze, try_catch, analysis, bind at 1.
  destruct (cloneRepo sh self st) as [[e|[]] st0].
  - unfold cleanup, bind, shell_rm_rf, throw. discriminate.
  - unfold bind at 1.
    destruct (analyzeContributors_returns sh st0) as (cs & st1 & ->).
    unfold bind at 1, getCommitHistory, bind, shell_exec, ret.
    destruct (sh_exec sh cmd_log (world st1)) as [r0 w0].
    intros H. injection H as <- _. cbn [summary makeSummary totalCommits].
    pose proof (parseCommitLog_nonempty (stdout r0)) as Hne.
    destruct (parseCommitLog (stdout r0)); [congruence | simpl; lia].
Qed.

(** C1, at the empty commit log.  An empty log is parsed into one record,
    whose hash is the empty string and whose other fields are undefined, so
    the summary counts one commit; both dates are empty strings and nothing
    is thrown.  The run is that of a repository whose every git command
    prints nothing. *)
Theorem empty_log_counts_one_commit :
  parseCommitLog [] = [mkCommitInfo (Some []) None None None]
  /\ (forall contributors,
        makeSummary contributors (parseCommitLog [])
        = mkRepositorySummary 1 (length contributors) [] [])
  /\ fst (cloneAndAnalyze
            (scripted_shell false demo_silent_script)
            (demo_analyzer "o" "r") (mkState tt []))
     = inr (mkAnalysisResult (mkRepositorySummary 1 0 [] []) []
              [mkCommitInfo (Some []) None None None]
              (lit "/work/temp/o/r")).
Proof. repeat split. Qed.

(** C4, as the code has it.  A line is split on the bar; the hash is always
    the first part, and a field for which the line has no part is undefined
    (not the empty string).  Parsing never fails, and the record at an index
    is the parse of the line at that index. *)
Theorem short_commit_line_fields_undefined :
  (forall line : str,
      let parts := split "|" line in
      let c := parseCommitLine line in
      hash c = Some (hd [] parts)
      /\ (length parts < 2 -> author c = None)
      /\ (length parts < 3 -> date c = None)
      /\ (length parts < 4 -> message c = None)
      /\ (4 <= length parts ->
          author c = Some (nth 1 parts []) /\ date c = Some (nth 2 parts [])
          /\ message c = Some (nth 3 parts [])))
  /\ (forall log : str,
        length (parseCommitLog log) = length (split "010" log)
        /\ forall i, nth_error (parseCommitLog log) i
                     = option_map parseCommitLine
                         (nth_error (split "010" log) i)).
Proof.
  split.
  - intros line parts c. subst c. unfold parseCommitLine. fold parts.
    pose proof (split_nonempty "|" line) as Hne. fold parts in Hne.
    cbn [hash author date message].
    destruct parts as [|p0 [|p1 [|p2 [|p3 parts]]]]; simpl;
      repeat split; intros; try reflexivity; try congruence; try lia.
  - intros log. unfold parseCommitLog. split.
    + apply length_map.
    + intros i. apply nth_error_map.
Qed.

Lemma short_commit_line_fields_undefined_witness :
  author (parseCommitLine (lit "abc")) = None
  /\ message (parseCommitLine (lit "abc|Jane|2024-01-02")) = None.
Proof.
  destruct short_commit_line_fields_undefined as [Hline _].
  split.
  - apply (proj1 (proj2 (Hline (lit "abc")))). vm_compute. lia.
  - apply (proj1 (proj2 (proj2 (proj2 (Hline (lit "abc|Jane|2024-01-02")))))).
    vm_compute. lia.
Defined.

(** The claim of C4 fails as stated: a line without a bar has fewer than
    four fields, and the missing author is undefined, not the empty
    string. *)
Lemma short_commit_line_counterexample :
  length (split "|" (lit "abc")) < 4
  /\ author (parseCommitLine (lit "abc")) = None
  /\ author (parseCommitLine (lit "abc")) <> Some [].
Proof.
  split; [vm_compute; lia|]. split; [reflexivity | discriminate].
Qed.

(* ================================================================== *)
(** ** [parseGitUrl] *)

Module UrlFacts.
Import RegexFacts.

Lemma git_end_refuses (st : mstate) :
  rest st <> [] -> rest st <> lit ".git" -> runs git_end_re st = [].
Proof.
  destruct st as [p x c]. cbn [rest]. intros Hne Hgit.
  unfold git_end_re. cbn [runs rest pos caps].
  rewrite flat_map_app. cbn [flat_map runs rest app].
  destruct x as [|a x]; [congruence|]. rewrite app_nil_r.
  destruct (is_prefix (lit ".git") (a :: x)) eqn:Hpre; [|reflexivity].
  apply is_prefix_true in Hpre. cbn [map flat_map runs rest advance].
  destruct (skipn (length (lit ".git")) (a :: x)) eqn:Hskip.
  - rewrite app_nil_r in Hpre. congruence.
  - reflexivity.
Qed.

Lemma git_end_at_git (p : nat) (c : list (option str)) :
  exists more,
    runs git_end_re (MState p (lit ".git") c)
    = MState (p + 4) [] (set_nth 3 (Some (lit ".git")) c) :: more.
Proof.
  eexists. unfold git_end_re. cbn.
  replace (p + 4 - p) with 4 by lia. reflexivity.
Qed.

Lemma git_end_at_end (p : nat) (c : list (option str)) :
  runs git_end_re (MState p [] c) = [MState p [] c].
Proof. reflexivity. Qed.

Lemma not_slash_slash : not_slash "/" = false.
Proof. reflexivity. Qed.

Section OwnerRepo.

Variables owner repo : str.
Hypothesis owner_nonempty : owner <> [].
Hypothesis owner_no_slash : forallb not_slash owner = true.
Hypothesis repo_nonempty : repo <> [].
Hypothesis repo_no_slash : forallb not_slash repo = true.

(** After the owner and the slash: the lazy group 2 and the end. *)
Lemma repo_part (z : str) (p0 : nat) (c0 : list (option str)) :
  (forall k, 0 < k -> k < length repo ->
             skipn k repo ++ z <> [] /\ skipn k repo ++ z <> lit ".git") ->
  exists more,
  runs (Seq (Grp 2 (PlusLazy not_slash)) git_end_re)
       (MState p0 (repo ++ z) c0)
  = runs git_end_re
      (MState (p0 + length repo) z (set_nth 2 (Some repo) c0)) ++ more.
Proof.
  intros Hrefuse.
  destruct repo as [|a q] eqn:Hrepo; [congruence|].
  cbn [forallb] in repo_no_slash.
  apply andb_true_iff in repo_no_slash as [Ha Hq].
  change (runs (Seq (Grp 2 (PlusLazy not_slash)) git_end_re)
            (MState p0 ((a :: q) ++ z) c0))
    with (flat_map (runs git_end_re)
            (map (fun st' =>
                    MState (pos st') (rest st')
                      (set_nth 2
                         (Some (firstn (pos st' - p0) ((a :: q) ++ z)))
                         (caps st')))
               (map (at_end (MState p0 ((a :: q) ++ z) c0))
                  (lazy_ends not_slash 0 (a :: q ++ z))))).
  rewrite map_map.
  rewrite lazy_then; [| exact Ha | exact Hq |].
  - eexists. f_equal. unfold at_end. cbn [pos rest caps fst snd].
    replace (p0 + (0 + 1 + length q) - p0) with (length (a :: q))
      by (simpl; lia).
    rewrite firstn_exact. reflexivity.
  - intros m k Hk. apply git_end_refuses; unfold at_end;
      cbn [pos rest caps fst snd];
      specialize (Hrefuse (S k) ltac:(lia) ltac:(simpl; lia));
      cbn [skipn] in Hrefuse; tauto.
Qed.

(** The whole shared part, from the owner on. *)
Lemma owner_repo_part (z : str) (p0 : nat) (c0 : list (option str)) :
  (forall k, 0 < k -> k < length repo ->
             skipn k repo ++ z <> [] /\ skipn k repo ++ z <> lit ".git") ->
  exists more,
  runs owner_repo_re (MState p0 (owner ++ "/" :: repo ++ z) c0)
  = runs git_end_re
      (MState (p0 + length owner + 1 + length repo) z
         (set_nth 2 (Some repo) (set_nth 1 (Some owner) c0))) ++ more.
Proof.
  intros Hrefuse.
  change (runs owner_repo_re (MState p0 (owner ++ "/" :: repo ++ z) c0))
    with (flat_map
            (runs (Seq (Str (lit "/"))
                     (Seq (Grp 2 (PlusLazy not_slash)) git_end_re)))
            (map (fun st' =>
                    MState (pos st') (rest st')
                      (set_nth 1
                         (Some (firstn (pos st' - p0)
                                  (owner ++ "/" :: repo ++ z)))
                         (caps st')))
               (map (at_end (MState p0 (owner ++ "/" :: repo ++ z) c0))
                  (greedy_ends not_slash 0
                     (owner ++ "/" :: repo ++ z))))).
  rewrite map_map.
  rewrite greedy_then;
    [| exact not_slash_slash | | exact owner_nonempty
     | exact owner_no_slash ].
  - unfold at_end. cbn [pos rest caps fst snd].
    replace (p0 + (0 + length owner) - p0) with (length owner) by lia.
    rewrite firstn_exact.
    change ("/" :: repo ++ z) with (lit "/" ++ (repo ++ z)).
    rewrite runs_Seq_Str_app.
    match goal with
    | |- context [MState ?p1 (repo ++ z) ?c1] =>
        destruct (repo_part z p1 c1 Hrefuse) as [more ->]
    end.
    exists more. reflexivity.
  - intros m a y Ha. apply runs_Seq_Str_fail.
    unfold at_end. cbn [pos rest caps fst snd is_prefix lit
                        list_ascii_of_string].
    unfold not_slash in Ha. apply negb_true_iff in Ha.
    rewrite Ascii.eqb_sym, Ha. reflexivity.
Qed.

Lemma repo_tail_length (k : nat) (z : str) :
  k < length repo -> length z < length (skipn k repo ++ z).
Proof. intros Hk. rewrite length_app, length_skipn. lia. Qed.

(** The URL ends with the repository name. *)
Lemma owner_repo_plain (p0 : nat) (c0 : list (option str)) :
  (forall pre, pre <> [] -> repo <> pre ++ lit ".git") ->
  exists more,
  runs owner_repo_re (MState p0 (owner ++ "/" :: repo) c0)
  = MState (p0 + length owner + 1 + length repo) []
      (set_nth 2 (Some repo) (set_nth 1 (Some owner) c0)) :: more.
Proof.
  intros Hgit.
  destruct (owner_repo_part [] p0 c0) as [more Hruns].
  - intros k Hpos Hk. pose proof (repo_tail_length [] Hk) as Hlen.
    split; intros Heq.
    + rewrite Heq in Hlen. simpl in Hlen. lia.
    + rewrite app_nil_r in Heq.
      apply (Hgit (firstn k repo)).
      * intros Hnil. apply (f_equal (@length ascii)) in Hnil.
        rewrite length_firstn in Hnil. simpl in Hnil. lia.
      * rewrite <- Heq. symmetry. apply firstn_skipn.
  - rewrite app_nil_r in Hruns. rewrite Hruns, git_end_at_end.
    eexists. reflexivity.
Qed.

(** The URL ends with the repository name and [.git]. *)
Lemma owner_repo_git (p0 : nat) (c0 : list (option str)) :
  exists more,
  runs owner_repo_re (MState p0 (owner ++ "/" :: repo ++ lit ".git") c0)
  = MState (p0 + length owner + 1 + length repo + 4) []
      (set_nth 3 (Some (lit ".git"))
         (set_nth 2 (Some repo) (set_nth 1 (Some owner) c0))) :: more.
Proof.
  destruct (owner_repo_part (lit ".git") p0 c0) as [more Hruns].
  - intros k Hpos Hk.
    pose proof (repo_tail_length (lit ".git") Hk) as Hlen.
    split; intros Heq; rewrite Heq in Hlen; simpl in Hlen; lia.
  - rewrite Hruns.
    destruct (git_end_at_git (p0 + length owner + 1 + length repo)
                (set_nth 2 (Some repo) (set_nth 1 (Some owner) c0)))
      as [more' ->].
    eexists. reflexivity.
Qed.

End OwnerRepo.

(** *** Where the search starts matching *)

Lemma search_https_scheme (x : str) :
  search_from 3 https_re 0 (lit "https://" ++ x)
  = search_from 3 https_re 8 x.
Proof.
  cbn [lit list_ascii_of_string app].
  repeat (rewrite search_from_skip
            by (apply match_here_none, runs_Seq_Str_fail; reflexivity)).
  reflexivity.
Qed.

Lemma search_ssh_user (x : str) :
  search_from 3 ssh_re 0 (lit "git@" ++ x) = search_from 3 ssh_re 4 x.
Proof.
  cbn [lit list_ascii_of_string app].
  repeat (rewrite search_from_skip
            by (apply match_here_none, runs_Seq_Str_fail; reflexivity)).
  reflexivity.
Qed.

Lemma match_here_first (n : nat) (r : regex) (p : nat) (s : str)
    (st' : mstate) (more : list mstate) :
  runs r (MState p s (repeat None (S n))) = st' :: more ->
  match_here n r p s = Some (RMatch p (firstn (pos st' - p) s) (caps st')).
Proof. unfold match_here. now intros ->. Qed.

Lemma runs_ssh_host (x : str) (p : nat) (c : list (option str)) :
  runs ssh_re (MState p (lit "github.com:" ++ x) c)
  = runs owner_repo_re (MState (p + 11) x c).
Proof.
  unfold ssh_re.
  change (lit "github.com:" ++ x) with (lit "github.com" ++ (":" :: x)).
  rewrite runs_Seq_Str_app. cbn [runs rest flat_map advance pos caps skipn].
  change (colon_or_slash ":") with true. cbn [flat_map].
  rewrite app_nil_r. f_equal. unfold advance. cbn [pos rest caps skipn].
  f_equal. change (length (lit "github.com")) with 10. lia.
Qed.

(** *** The first pattern needs two slashes *)

Lemma greedy_ends_suffix (p q : ascii -> bool) (s : str) :
  forall n e,
    In e (greedy_ends p n s) -> forallb q s = true ->
    forallb q (snd e) = true.
Proof.
  induction s as [|a s IH]; intros n e Hin Hq; simpl in *; [tauto|].
  apply andb_true_iff in Hq as [_ Hq].
  destruct (p a); [|contradiction].
  apply in_app_or in Hin as [Hin|[<-|[]]]; [eauto | exact Hq].
Qed.

Lemma owner_repo_needs_slash (s : str) (p : nat) (c : list (option str)) :
  forallb not_slash s = true -> runs owner_repo_re (MState p s c) = [].
Proof.
  intros Hs. unfold owner_repo_re. cbn [runs rest pos caps].
  apply flat_map_nil. intros st Hin.
  apply in_map_iff in Hin as (st0 & <- & Hin).
  apply in_map_iff in Hin as (e & <- & Hin).
  apply (greedy_ends_suffix _ not_slash) in Hin; [|exact Hs].
  unfold at_end. cbn [pos rest caps].
  destruct (snd e) as [|a y]; [reflexivity|].
  cbn [forallb] in Hin. apply andb_true_iff in Hin as [Ha _].
  unfold not_slash in Ha. apply negb_true_iff in Ha.
  cbn [is_prefix lit list_ascii_of_string].
  rewrite Ascii.eqb_sym, Ha. reflexivity.
Qed.

Lemma no_slash_count (s : str) :
  count_occ ascii_dec s "/" = 0 <-> forallb not_slash s = true.
Proof.
  induction s as [|a s IH]; simpl; [tauto|].
  unfold not_slash at 1. destruct (ascii_dec a "/") as [->|Hne].
  - rewrite Ascii.eqb_refl. simpl. split; [discriminate | discriminate].
  - apply Ascii.eqb_neq in Hne. rewrite Hne. simpl. exact IH.
Qed.

Lemma no_slash_In (s : str) :
  ~ In "/" s <-> forallb not_slash s = true.
Proof.
  rewrite <- no_slash_count. apply count_occ_not_In.
Qed.

Lemma https_needs_two_slashes (s : str) (p : nat) (c : list (option str)) :
  count_occ ascii_dec s "/" < 2 -> runs https_re (MState p s c) = [].
Proof.
  intros Hcount. unfold https_re.
  destruct (is_prefix (lit "github.com/") s) eqn:Hpre.
  - apply is_prefix_true in Hpre. rewrite Hpre.
    rewrite runs_Seq_Str_app. apply owner_repo_needs_slash.
    apply no_slash_count.
    rewrite Hpre, count_occ_app in Hcount.
    change (count_occ ascii_dec (lit "github.com/") "/") with 1 in Hcount.
    lia.
  - now apply runs_Seq_Str_fail.
Qed.

Lemma search_https_none (s : str) :
  forall p, count_occ ascii_dec s "/" < 2 -> search_from 3 https_re p s = None.
Proof.
  induction s as [|a s IH]; intros p Hcount.
  - reflexivity.
  - rewrite search_from_skip.
    + apply IH. simpl in Hcount. destruct (ascii_dec a "/"); lia.
    + apply match_here_none, https_needs_two_slashes, Hcount.
Qed.

End UrlFacts.

Section ParseForms.
Import RegexFacts UrlFacts.

Variables owner repo : str.
Hypothesis owner_nonempty : owner <> [].
Hypothesis repo_nonempty : repo <> [].
Hypothesis owner_no_slash : ~ In "/" owner.
Hypothesis repo_no_slash : ~ In "/" repo.

Lemma parse_https_plain :
  (forall pre, pre <> [] -> repo <> pre ++ lit ".git") ->
  parseGitUrl (lit "https://github.com/" ++ owner ++ lit "/" ++ repo)
  = inr (mkUrlParts (Some owner) (Some repo)).
Proof.
  intros Hgit. apply no_slash_In in owner_no_slash, repo_no_slash.
  unfold parseGitUrl, exec.
  change (lit "https://github.com/" ++ owner ++ lit "/" ++ repo)
    with (lit "https://" ++ lit "github.com/" ++ owner ++ "/" :: repo).
  rewrite search_https_scheme.
  destruct (owner_repo_plain owner_nonempty owner_no_slash repo_nonempty
              repo_no_slash (8 + length (lit "github.com/"))
              (repeat None 4) Hgit) as [more Hruns].
  erewrite search_from_found;
    [| apply match_here_first with (more := more);
       unfold https_re; rewrite runs_Seq_Str_app; exact Hruns ].
  reflexivity.
Qed.

Lemma parse_https_git :
  parseGitUrl (lit "https://github.com/" ++ owner ++ lit "/" ++ repo
                 ++ lit ".git")
  = inr (mkUrlParts (Some owner) (Some repo)).
Proof.
  apply no_slash_In in owner_no_slash, repo_no_slash.
  unfold parseGitUrl, exec.
  change (lit "https://github.com/" ++ owner ++ lit "/" ++ repo
            ++ lit ".git")
    with (lit "https://" ++ lit "github.com/" ++ owner
            ++ "/" :: repo ++ lit ".git").
  rewrite search_https_scheme.
  destruct (owner_repo_git owner_nonempty owner_no_slash repo_nonempty
              repo_no_slash (8 + length (lit "github.com/"))
              (repeat None 4)) as [more Hruns].
  erewrite search_from_found;
    [| apply match_here_first with (more := more);
       unfold https_re; rewrite runs_Seq_Str_app; exact Hruns ].
  reflexivity.
Qed.

Lemma ssh_url_one_slash :
  count_occ ascii_dec
    (lit "git@github.com:" ++ owner ++ lit "/" ++ repo ++ lit ".git") "/"
  = 1.
Proof.
  apply no_slash_In, no_slash_count in owner_no_slash, repo_no_slash.
  rewrite !count_occ_app, owner_no_slash, repo_no_slash. reflexivity.
Qed.

Lemma parse_ssh_git :
  parseGitUrl (lit "git@github.com:" ++ owner ++ lit "/" ++ repo
                 ++ lit ".git")
  = inr (mkUrlParts (Some owner) (Some repo)).
Proof.
  unfold parseGitUrl, exec.
  rewrite search_https_none by (rewrite ssh_url_one_slash; lia).
  apply no_slash_In in owner_no_slash, repo_no_slash.
  change (lit "git@github.com:" ++ owner ++ lit "/" ++ repo ++ lit ".git")
    with (lit "git@" ++ lit "github.com:" ++ owner
            ++ "/" :: repo ++ lit ".git").
  rewrite search_ssh_user.
  destruct (owner_repo_git owner_nonempty owner_no_slash repo_nonempty
              repo_no_slash (4 + 11) (repeat None 4)) as [more Hruns].
  erewrite search_from_found;
    [| apply match_here_first with (more := more);
       rewrite runs_ssh_host; exact Hruns ].
  reflexivity.
Qed.

End ParseForms.

(** C2, as the code has it.  For the host github.com, an owner and a
    repository name that are not empty and contain no slash, and a
    repository name that does not itself end in [.git] after at least one
    character, the three forms of the URL parse to the same pair: the owner
    and the repository name, without the [.git] of the URL. *)
Theorem parseGitUrl_forms_agree :
  forall owner repo : str,
    owner <> [] -> repo <> [] ->
    ~ In "/" owner -> ~ In "/" repo ->
    (forall pre, pre <> [] -> repo <> pre ++ lit ".git") ->
    let parts := inr (mkUrlParts (Some owner) (Some repo)) in
    parseGitUrl (lit "https://github.com/" ++ owner ++ lit "/" ++ repo)
      = parts
    /\ parseGitUrl (lit "https://github.com/" ++ owner ++ lit "/" ++ repo
                      ++ lit ".git") = parts
    /\ parseGitUrl (lit "git@github.com:" ++ owner ++ lit "/" ++ repo
                      ++ lit ".git") = parts.
Proof.
  intros owner repo Ho Hr Hos Hrs Hgit parts. subst parts.
  split; [|split].
  - now apply parse_https_plain.
  - now apply parse_https_git.
  - now apply parse_ssh_git.
Qed.

Lemma parseGitUrl_forms_agree_witness :
  parseGitUrl (lit "https://github.com/" ++ lit "cosmology-tech" ++ lit "/"
                 ++ lit "git-stats")
    = inr (mkUrlParts (Some (lit "cosmology-tech")) (Some (lit "git-stats")))
  /\ parseGitUrl (lit "git@github.com:" ++ lit "cosmology-tech" ++ lit "/"
                    ++ lit "git-stats" ++ lit ".git")
    = inr (mkUrlParts (Some (lit "cosmology-tech")) (Some (lit "git-stats"))).
Proof.
  assert (Hgit : forall pre, pre <> [] ->
                             lit "git-stats" <> pre ++ lit ".git").
  { intros pre _ Heq.
    apply (f_equal (fun s => nth 0 (rev s) "000")) in Heq.
    rewrite rev_app_distr in Heq. simpl in Heq. discriminate. }
  destruct (@parseGitUrl_forms_agree (lit "cosmology-tech") (lit "git-stats"))
    as (H1 & _ & H3); try discriminate; try exact Hgit.
  - simpl. intuition discriminate.
  - simpl. intuition discriminate.
  - split; [exact H1 | exact H3].
Defined.

(** The claim of C2 fails as stated: for another host no form parses, and
    for github.com a repository name that ends in [.git] is cut in the first
    form and kept, suffix included, in the second. *)
Lemma parseGitUrl_forms_counterexample :
  parseGitUrl (lit "https://gitlab.com/owner/repo")
    = inl (UnableToParse (lit "https://gitlab.com/owner/repo"))
  /\ parseGitUrl (lit "https://gitlab.com/owner/repo.git")
    = inl (UnableToParse (lit "https://gitlab.com/owner/repo.git"))
  /\ parseGitUrl (lit "git@gitlab.com:owner/repo.git")
    = inl (UnableToParse (lit "git@gitlab.com:owner/repo.git"))
  /\ parseGitUrl (lit "https://github.com/owner/" ++ lit "x.git")
    = inr (mkUrlParts (Some (lit "owner")) (Some (lit "x")))
  /\ parseGitUrl (lit "https://github.com/owner/" ++ lit "x.git" ++ lit ".git")
    = inr (mkUrlParts (Some (lit "owner")) (Some (lit "x.git")))
  /\ parseGitUrl (lit "https://github.com/owner/" ++ lit "x.git")
     <> parseGitUrl (lit "https://github.com/owner/" ++ lit "x.git"
                       ++ lit ".git").
Proof.
  do 5 (split; [vm_compute; reflexivity|]).
  vm_compute. discriminate.
Qed.

(* ================================================================== *)
(** ** [normalizeGitUrl] *)

Module NormalizeFacts.
Import RegexFacts.

Lemma trimStart_id (a : ascii) (s : str) :
  is_space a = false -> trimStart (a :: s) = a :: s.
Proof. intros H. simpl. now rewrite H. Qed.

Lemma trimEnd_id (s : str) (z : ascii) :
  is_space z = false -> trimEnd (s ++ [z]) = s ++ [z].
Proof.
  intros H. unfold trimEnd. rewrite rev_app_distr. cbn [rev app].
  rewrite trimStart_id by exact H.
  change (z :: rev s) with ([z] ++ rev s).
  now rewrite rev_app_distr, rev_involutive.
Qed.

Lemma trim_id (a z : ascii) (s : str) :
  is_space a = false -> is_space z = false ->
  trim (a :: s ++ [z]) = a :: s ++ [z].
Proof.
  intros Ha Hz. unfold trim. rewrite trimStart_id by exact Ha.
  change (a :: s ++ [z]) with ((a :: s) ++ [z]). now apply trimEnd_id.
Qed.

(** [/\.git$/] matches at a position only when exactly [.git] is left. *)
Lemma dot_git_here (p : nat) (s : str) (c : list (option str)) :
  s <> lit ".git" -> runs dot_git_re (MState p s c) = [].
Proof.
  intros Hne. unfold dot_git_re.
  destruct (is_prefix (lit ".git") s) eqn:Hpre.
  - apply is_prefix_true in Hpre. rewrite Hpre, runs_Seq_Str_app.
    cbn [runs rest].
    destruct (skipn (length (lit ".git")) s); [|reflexivity].
    rewrite app_nil_r in Hpre. congruence.
  - now apply runs_Seq_Str_fail.
Qed.

Lemma strip_without_git (s : str) :
  (forall pre, s <> pre ++ lit ".git") ->
  replace 0 dot_git_re [] s = s.
Proof.
  intros Hgit. unfold replace, exec.
  assert (Hnone : search_from 0 dot_git_re 0 s = None);
    [|now rewrite Hnone].
  apply search_from_none. intros k Hk. apply match_here_none, dot_git_here.
  intros Heq. apply (Hgit (firstn k s)).
  rewrite <- Heq. symmetry. apply firstn_skipn.
Qed.

Lemma ends_differently (s pre : str) (z : ascii) :
  z <> "t" -> s ++ [z] <> pre ++ lit ".git".
Proof.
  intros Hz Heq. apply (f_equal (@rev ascii)) in Heq.
  rewrite !rev_app_distr in Heq. simpl in Heq. congruence.
Qed.

Section ReplaceStr.

Variables pat rep : str.
Hypothesis pat_nonempty : pat <> [].
Hypothesis pat_no_slash : forallb not_slash pat = true.

Lemma is_prefix_before_slash (s t : str) :
  is_prefix pat (s ++ "/" :: t) = true ->
  is_prefix pat s = true /\ length pat <= length s.
Proof.
  revert s pat_no_slash. clear pat_nonempty.
  induction pat as [|a pat' IH]; intros s Hns Hpre.
  - simpl. split; [reflexivity | lia].
  - cbn [forallb] in Hns. apply andb_true_iff in Hns as [Ha Hns].
    destruct s as [|b s]; simpl in Hpre.
    + apply andb_true_iff in Hpre as [Hab _].
      apply Ascii.eqb_eq in Hab. subst a. discriminate.
    + apply andb_true_iff in Hpre as [Hab Hpre].
      destruct (IH s Hns Hpre) as [H1 H2].
      simpl. rewrite Hab, H1. split; [reflexivity | lia].
Qed.

Lemma is_prefix_more (s t : str) :
  is_prefix pat s = true -> is_prefix pat (s ++ t) = true.
Proof.
  clear. revert s. induction pat as [|a pat' IH]; intros s H;
    [reflexivity|].
  destruct s as [|b s]; [discriminate|]. simpl in *.
  apply andb_true_iff in H as [-> H]. now rewrite IH.
Qed.

(** A replacement of [pat] never reaches across a slash. *)
Lemma replace_str_before_slash (t : str) :
  replace_str pat rep t = t ->
  forall s,
    replace_str pat rep (s ++ "/" :: t) = replace_str pat rep s ++ "/" :: t.
Proof.
  intros Ht. induction s as [|b s IH].
  - cbn [app]. destruct pat as [|a pat'] eqn:Hpat; [congruence|].
    cbn [forallb] in pat_no_slash.
    apply andb_true_iff in pat_no_slash as [Ha _].
    unfold not_slash in Ha. apply negb_true_iff in Ha.
    cbn [replace_str is_prefix]. rewrite Ha. cbn [andb app].
    now rewrite Ht.
  - change ((b :: s) ++ "/" :: t) with (b :: s ++ "/" :: t).
    destruct (is_prefix pat (b :: s ++ "/" :: t)) eqn:Hpre.
    + destruct (is_prefix_before_slash (b :: s) t Hpre) as [Hin Hlen].
      destruct pat as [|a pat'] eqn:Hpat; [congruence|].
      cbn [replace_str]. rewrite Hpre, Hin.
      change (b :: s ++ "/" :: t) with ((b :: s) ++ "/" :: t).
      rewrite skipn_app.
      replace (length (a :: pat') - length (b :: s)) with 0 by lia.
      cbn [skipn]. now rewrite app_assoc.
    + assert (Hin : is_prefix pat (b :: s) = false).
      { destruct (is_prefix pat (b :: s)) eqn:E; [|reflexivity].
        apply is_prefix_more with (t := "/" :: t) in E.
        cbn [app] in E. congruence. }
      destruct pat as [|a pat'] eqn:Hpat; [congruence|].
      cbn [replace_str]. rewrite Hpre, Hin. cbn [app].
      rewrite <- Hpat in IH |- *. now rewrite IH.
Qed.

End ReplaceStr.

(** The normal form of an HTTPS URL of a repository [a/x], [x] one
    character other than white space and [t]. *)
Lemma normalize_https (host : str) (x : ascii) :
  is_space x = false -> x <> "t" ->
  replace_str (lit "git@github.com:") (lit "https://github.com/") [x] = [x] ->
  normalizeGitUrl (lit "https://" ++ host ++ lit "/a/" ++ [x])
  = replace_str (lit "git@github.com:") (lit "https://github.com/")
      (lit "https://" ++ host) ++ lit "/a/" ++ [x].
Proof.
  intros Hsp Ht Hrep. unfold normalizeGitUrl.
  replace (lit "https://" ++ host ++ lit "/a/" ++ [x])
    with ("h" :: (lit "ttps://" ++ host ++ lit "/a/") ++ [x])
    by (cbn [lit list_ascii_of_string app]; now rewrite <- !app_assoc).
  rewrite trim_id by (reflexivity || exact Hsp).
  rewrite strip_without_git.
  - replace ("h" :: (lit "ttps://" ++ host ++ lit "/a/") ++ [x])
      with ((lit "https://" ++ host) ++ "/" :: ("a" :: "/" :: [x]))
      by (cbn [lit list_ascii_of_string app]; now rewrite <- !app_assoc).
    rewrite replace_str_before_slash; try reflexivity; try discriminate.
    change ("a" :: "/" :: [x]) with (["a"] ++ "/" :: [x]).
    rewrite replace_str_before_slash; try reflexivity; try discriminate.
    exact Hrep.
  - intros pre.
    change ("h" :: (lit "ttps://" ++ host ++ lit "/a/") ++ [x])
      with (("h" :: lit "ttps://" ++ host ++ lit "/a/") ++ [x]).
    now apply ends_differently.
Qed.

End NormalizeFacts.

(** C3, as the code has it.  The SSH form is rewritten for the host
    github.com only: there, the normal forms of [git@github.com:a/b.git]
    and of [https://github.com/a/b] are equal.  For every host the normal
    forms of [https://host/a/b] and [https://host/a/c] differ. *)
Theorem normalizeGitUrl_examples :
  normalizeGitUrl (lit "git@github.com:a/b.git")
    = normalizeGitUrl (lit "https://github.com/a/b")
  /\ forall host : str,
       normalizeGitUrl (lit "https://" ++ host ++ lit "/a/b")
       <> normalizeGitUrl (lit "https://" ++ host ++ lit "/a/c").
Proof.
  split; [vm_compute; reflexivity|].
  intros host.
  change (lit "/a/b") with (lit "/a/" ++ ["b"]).
  change (lit "/a/c") with (lit "/a/" ++ ["c"]).
  rewrite !NormalizeFacts.normalize_https by (reflexivity || discriminate).
  intros Heq. apply app_inv_head in Heq. discriminate.
Qed.

(** The claim of C3 fails as stated: for the host gitlab.com the SSH form
    keeps its shape and the two normal forms differ. *)
Lemma normalizeGitUrl_counterexample :
  normalizeGitUrl (lit "git@gitlab.com:a/b.git") = lit "git@gitlab.com:a/b"
  /\ normalizeGitUrl (lit "https://gitlab.com/a/b") = lit "https://gitlab.com/a/b"
  /\ normalizeGitUrl (lit "git@gitlab.com:a/b.git")
     <> normalizeGitUrl (lit "https://gitlab.com/a/b").
Proof.
  split; [vm_compute; reflexivity|].
  split; [vm_compute; reflexivity|].
  vm_compute. discriminate.
Qed.

(* ================================================================== *)
(** ** [cloneRepo]: the branch name in the reset command *)

Lemma invalid_branch_test (b : str) :
  invalid_branch b = negb (test 0 branch_re b).
Proof. destruct b; reflexivity. Qed.

Ltac not_a_reset :=
  let b := fresh "b" in
  let H := fresh "H" in
  intros b H;
  cbv [cmd_reset cmd_fetch cmd_head_branch cmd_symbolic_ref cmd_rev_parse
       cmd_clean cmd_get_url cmd_clone lit list_ascii_of_string app] in H;
  discriminate H.

Lemma not_reset_fetch : not_reset cmd_fetch.
Proof. not_a_reset. Qed.

Lemma not_reset_head_branch : not_reset cmd_head_branch.
Proof. not_a_reset. Qed.

Lemma not_reset_symbolic_ref : not_reset cmd_symbolic_ref.
Proof. not_a_reset. Qed.

Lemma not_reset_rev_parse (branch : str) : not_reset (cmd_rev_parse branch).
Proof. not_a_reset. Qed.

Lemma not_reset_clean : not_reset cmd_clean.
Proof. not_a_reset. Qed.

Lemma not_reset_get_url : not_reset cmd_get_url.
Proof. not_a_reset. Qed.

Lemma not_reset_clone (url path : str) : not_reset (cmd_clone url path).
Proof. not_a_reset. Qed.

Lemma not_reset_safe (cmd : str) : not_reset cmd -> safe_cmd cmd.
Proof. intros H b Heq. now apply H in Heq. Qed.

Lemma safe_cmd_reset (b : str) :
  invalid_branch b = false -> safe_cmd (cmd_reset b).
Proof.
  intros Hb b' Heq. apply app_inv_head in Heq. subst b'.
  rewrite invalid_branch_test in Hb. now apply negb_false_iff in Hb.
Qed.

(** The allow-list test accepts exactly the strings that are not empty and
    made of letters, digits, underscore, dot and hyphen. *)
Section BranchTest.
Import RegexFacts.

Lemma whole_run (p : ascii -> bool) (st : mstate) (s : str) :
  forall n,
    flat_map (runs Eol) (map (at_end st) (greedy_ends p n s)) <> []
    <-> s <> [] /\ forallb p s = true.
Proof.
  induction s as [|a s IH]; intros n; cbn [greedy_ends forallb].
  - simpl. split; [congruence | intros [H _]; congruence].
  - destruct (p a); cbn [andb].
    + rewrite map_app, flat_map_app. cbn [map flat_map].
      unfold at_end at 2. cbn [runs rest snd]. rewrite app_nil_r.
      destruct s as [|b s].
      * simpl. split; [intros _; split; [discriminate | reflexivity]|].
        intros _. discriminate.
      * rewrite app_nil_r. rewrite IH.
        split; [intros [_ H]; split; [discriminate | exact H]|].
        intros [_ H]. split; [discriminate | exact H].
    + simpl. split; [congruence | intros [_ H]; discriminate].
Qed.

Lemma branch_re_later (s : str) (p : nat) :
  0 < p -> search_from 0 branch_re p s = None.
Proof.
  intros Hp. apply search_from_none. intros k _.
  apply match_here_none. unfold branch_re. cbn [runs pos flat_map].
  destruct (p + k) eqn:E; [lia | reflexivity].
Qed.

Lemma branch_re_test (b : str) :
  test 0 branch_re b = true <-> b <> [] /\ forallb branch_char b = true.
Proof.
  rewrite <- (whole_run branch_char (MState 0 b (repeat None 1)) b 0).
  unfold test, exec.
  assert (Hruns : runs branch_re (MState 0 b (repeat None 1))
                  = flat_map (runs Eol)
                      (map (at_end (MState 0 b (repeat None 1)))
                         (greedy_ends branch_char 0 b))).
  { unfold branch_re. cbn [runs pos rest flat_map Nat.eqb].
    now rewrite app_nil_r. }
  rewrite <- Hruns.
  destruct b as [|a b].
  - simpl. split; [discriminate | congruence].
  - cbn [search_from]. unfold match_here at 1.
    destruct (runs branch_re (MState 0 (a :: b) (repeat None 1))).
    + rewrite branch_re_later by lia. split; [discriminate | congruence].
    + split; [discriminate | reflexivity].
Qed.

End BranchTest.

Section ResetFacts.

Variable W : Type.
Variable sh : Shell W.

Lemma resets_validated_snoc (t : list event) (ev : event) :
  resets_validated t ->
  (forall cmd, ev = EvExec cmd -> safe_cmd cmd) ->
  resets_validated (t ++ [ev]).
Proof.
  intros Ht Hev b Hin. apply in_app_or in Hin as [Hin|[Hin|[]]].
  - now apply Ht.
  - exact (Hev _ Hin b eq_refl).
Qed.

Lemma keeps_ret {A} (a : A) : keeps_resets_validated (@ret W A a).
Proof. intros st H. exact H. Qed.

Lemma keeps_throw {A} (e : error) : keeps_resets_validated (@throw W A e).
Proof. intros st H. exact H. Qed.

Lemma keeps_bind {A B} (c : M W A) (k : A -> M W B) :
  keeps_resets_validated c -> (forall a, keeps_resets_validated (k a)) ->
  keeps_resets_validated (bind c k).
Proof.
  intros Hc Hk st Hst. unfold bind. specialize (Hc st Hst).
  destruct (c st) as [[e|a] st1]; simpl in *; [exact Hc|].
  now apply Hk.
Qed.

Lemma keeps_if {A} (b : bool) (c1 c2 : M W A) :
  keeps_resets_validated c1 -> keeps_resets_validated c2 ->
  keeps_resets_validated (if b then c1 else c2).
Proof. destruct b; auto. Qed.

Lemma keeps_shell_exec (cmd : str) :
  safe_cmd cmd -> keeps_resets_validated (shell_exec sh cmd).
Proof.
  intros Hcmd st Hst. unfold shell_exec.
  destruct (sh_exec sh cmd (world st)). simpl.
  apply resets_validated_snoc; [exact Hst|].
  intros cmd' Heq. now injection Heq as <-.
Qed.

Lemma keeps_shell_cd (dir : str) : keeps_resets_validated (shell_cd sh dir).
Proof.
  intros st Hst. simpl. apply resets_validated_snoc; [exact Hst|].
  discriminate.
Qed.

Lemma keeps_shell_rm_rf (path : str) :
  keeps_resets_validated (shell_rm_rf sh path).
Proof.
  intros st Hst. simpl. apply resets_validated_snoc; [exact Hst|].
  discriminate.
Qed.

Lemma keeps_shell_mkdir_p (dir : str) :
  keeps_resets_validated (shell_mkdir_p sh dir).
Proof.
  intros st Hst. simpl. apply resets_validated_snoc; [exact Hst|].
  discriminate.
Qed.

Lemma keeps_existsSync (path : str) :
  keeps_resets_validated (existsSync sh path).
Proof. intros st Hst. exact Hst. Qed.

Create HintDb resets.

Hint Resolve keeps_ret keeps_throw keeps_shell_cd keeps_shell_rm_rf
  keeps_shell_mkdir_p keeps_existsSync keeps_shell_exec
  not_reset_safe not_reset_fetch not_reset_head_branch
  not_reset_symbolic_ref not_reset_rev_parse not_reset_clean
  not_reset_get_url not_reset_clone : resets.

Ltac keeps_step :=
  first [ apply keeps_bind; [|intros ?]
        | apply keeps_if
        | solve [auto with resets] ].

Lemma keeps_probeBranches (branches : list str) (b : str) :
  keeps_resets_validated (probeBranches sh branches b).
Proof.
  induction branches as [|x more IH]; simpl; repeat keeps_step; exact IH.
Qed.

Lemma keeps_resolveDefaultBranch :
  keeps_resets_validated (resolveDefaultBranch sh).
Proof.
  unfold resolveDefaultBranch. repeat keeps_step.
Qed.

Lemma keeps_resetTo (b : str) : keeps_resets_validated (resetTo sh b).
Proof.
  unfold resetTo. destruct (invalid_branch b) eqn:Hb; [apply keeps_throw|].
  apply keeps_bind; [|intros ?; repeat keeps_step].
  apply keeps_shell_exec. now apply safe_cmd_reset.
Qed.

Lemma keeps_cloneRepo (self : RepositoryAnalyzer) :
  keeps_resets_validated (cloneRepo sh self).
Proof.
  unfold cloneRepo, isValidGitRepo, getCurrentRemoteUrl, updateExisting,
    performFreshClone.
  repeat first [ apply keeps_resolveDefaultBranch | apply keeps_resetTo
               | keeps_step ].
Qed.

Lemma queries_ret {A} (a : A) : queries_only (@ret W A a).
Proof. intros st. simpl. eauto. Qed.

Lemma queries_bind {A B} (c : M W A) (k : A -> M W B) :
  queries_only c -> (forall a, queries_only (k a)) ->
  queries_only (bind c k).
Proof.
  intros Hc Hk st. unfold bind. destruct (Hc st) as [[a Ha] Hkeep].
  destruct (c st) as [[e|a'] st1]; simpl in *; [discriminate|].
  destruct (Hk a' st1) as [Hret Hkeep']. split; [exact Hret|].
  intros b Hin. apply Hkeep, Hkeep', Hin.
Qed.

Lemma queries_if {A} (b : bool) (c1 c2 : M W A) :
  queries_only c1 -> queries_only c2 ->
  queries_only (if b then c1 else c2).
Proof. destruct b; auto. Qed.

Lemma queries_shell_exec (cmd : str) :
  not_reset cmd -> queries_only (shell_exec sh cmd).
Proof.
  intros Hcmd st. unfold shell_exec.
  destruct (sh_exec sh cmd (world st)) as [r w]. simpl. split; [eauto|].
  intros b Hin. apply in_app_or in Hin as [Hin|[Hin|[]]]; [exact Hin|].
  injection Hin as Hin. now apply Hcmd in Hin.
Qed.

Lemma queries_probeBranches (branches : list str) (b : str) :
  queries_only (probeBranches sh branches b).
Proof.
  induction branches as [|x more IH]; simpl.
  - apply queries_ret.
  - apply queries_bind.
    + apply queries_shell_exec, not_reset_rev_parse.
    + intros r. apply queries_if; [apply queries_ret | exact IH].
Qed.

(** The resolution of the default branch runs queries and always ends
    with some string. *)
Lemma queries_resolveDefaultBranch : queries_only (resolveDefaultBranch sh).
Proof.
  unfold resolveDefaultBranch.
  apply queries_bind; [apply queries_shell_exec, not_reset_head_branch|].
  intros r. apply queries_if; [|apply queries_ret].
  apply queries_bind; [apply queries_shell_exec, not_reset_symbolic_ref|].
  intros r'. apply queries_if; [apply queries_ret|].
  apply queries_probeBranches.
Qed.

End ResetFacts.

(** C5.  Whatever the shell answers, every [git reset --hard origin/<name>]
    that [cloneRepo] issues has a name that passes
    [/^[a-zA-Z0-9_.-]+$/].  The resolution of the default branch (remote
    HEAD query, symbolic ref, probing main and master) always ends with some
    string and issues no reset; when that string fails the test, the update
    throws the could-not-determine error right there, and no reset has been
    issued. *)
Theorem reset_only_to_validated_branch :
  forall (W : Type) (sh : Shell W) (self : RepositoryAnalyzer) (st : state W),
    (resets_validated (trace st) ->
     resets_validated (trace (snd (cloneRepo sh self st))))
    /\ (exists b st1, resolveDefaultBranch sh st = (inr b, st1))
    /\ (forall fetchResult st0 b st1,
          shell_exec sh cmd_fetch st = (inr fetchResult, st0) ->
          code fetchResult = 0%Z ->
          resolveDefaultBranch sh st0 = (inr b, st1) ->
          test 0 branch_re b = false ->
          updateExisting sh st = (inl BranchUndetermined, st1)
          /\ forall b', In (EvExec (cmd_reset b')) (trace st1) ->
                        In (EvExec (cmd_reset b')) (trace st)).
Proof.
  intros W sh self st. split; [|split].
  - apply keeps_cloneRepo.
  - destruct (queries_resolveDefaultBranch sh st) as [[b Hb] _].
    destruct (resolveDefaultBranch sh st) as [r st1]. simpl in Hb. subst r.
    eauto.
  - intros fetchResult st0 b st1 Hfetch Hcode Hres Htest. split.
    + unfold updateExisting, bind. rewrite Hfetch, Hcode. simpl.
      rewrite Hres. unfold resetTo.
      rewrite invalid_branch_test, Htest. reflexivity.
    + intros b' Hin.
      destruct (queries_resolveDefaultBranch sh st0) as [_ Hkeep].
      rewrite Hres in Hkeep. apply Hkeep in Hin.
      destruct (queries_shell_exec sh not_reset_fetch st) as [_ Hkeep0].
      rewrite Hfetch in Hkeep0. now apply Hkeep0.
Qed.

Lemma reset_only_to_validated_branch_witness :
  updateExisting (scripted_shell true demo_unresolved_script) (mkState tt [])
  = (inl BranchUndetermined,
     mkState tt [EvExec cmd_fetch; EvExec cmd_head_branch;
                 EvExec cmd_symbolic_ref]).
Proof.
  destruct (@reset_only_to_validated_branch unit
              (scripted_shell true demo_unresolved_script)
              (demo_analyzer "o" "r") (mkState tt [])) as (_ & _ & Hfail).
  refine (proj1 (Hfail (mkExecResult 0 [] [])
                   (mkState tt [EvExec cmd_fetch]) (lit "feature/x")
                   (mkState tt [EvExec cmd_fetch; EvExec cmd_head_branch;
                                EvExec cmd_symbolic_ref])
                   eq_refl eq_refl eq_refl _)).
  vm_compute. reflexivity.
Defined.

(* ================================================================== *)
(** ** [cloneRepo]: a working copy of another remote *)

(** C8.  When the working copy exists with its [.git] directory and the URL
    of its remote, normalized, differs from the expected one, [cloneRepo]
    removes the directory and then runs the fresh clone: the commands issued
    are the remote-URL query, the removal and the clone (followed by the
    change of directory when the clone succeeds), and none of fetch, reset
    or clean. *)
Theorem mismatched_remote_reclones :
  forall (W : Type) (sh : Shell W) (self : RepositoryAnalyzer) (w : W),
    let p := repoPath self in
    let d := path_dirname sh p in
    let w1 := sh_mkdir_p sh d w in
    let current := sh_exec sh cmd_get_url (sh_cd sh p w1) in
    let currentUrl :=
      if (code (fst current) =? 0)%Z then trim (stdout (fst current)) else [] in
    fs_existsSync sh p w1 = true ->
    fs_existsSync sh (p ++ lit "/.git") w1 = true ->
    normalizeGitUrl currentUrl <> normalizeGitUrl (repoUrl self) ->
    cloneRepo sh self (mkState w [])
    = performFreshClone sh self
        (mkState (sh_rm_rf sh p (snd current))
                 [EvMkdir d; EvCd p; EvExec cmd_get_url; EvRm p])
    /\ trace (snd (cloneRepo sh self (mkState w [])))
       = [EvMkdir d; EvCd p; EvExec cmd_get_url; EvRm p;
          EvExec (cmd_clone (repoUrl self) p)]
         ++ match fst (cloneRepo sh self (mkState w [])) with
            | inr _ => [EvCd p]
            | inl _ => []
            end.
Proof.
  intros W sh self w p d w1 current currentUrl Hdir Hgit Hdiff.
  apply str_eqb_neq in Hdiff.
  assert (Hrun : cloneRepo sh self (mkState w [])
                 = performFreshClone sh self
                     (mkState (sh_rm_rf sh p (snd current))
                        [EvMkdir d; EvCd p; EvExec cmd_get_url; EvRm p])).
  { unfold cloneRepo, isValidGitRepo, getCurrentRemoteUrl, bind, shell_mkdir_p,
      existsSync, shell_cd, shell_exec, shell_rm_rf, ret.
    cbn [world trace app]. fold p. fold d. fold w1. rewrite Hdir.
    cbn [world trace app]. rewrite Hgit.
    cbn [world trace app]. fold current.
    subst currentUrl. destruct current as [r w3].
    cbn [world trace app fst snd] in *. rewrite Hdiff. reflexivity. }
  split; [exact Hrun|].
  rewrite Hrun. unfold performFreshClone, bind, shell_exec, shell_cd, throw.
  cbn [world trace app]. fold p.
  destruct (sh_exec sh (cmd_clone (repoUrl self) p) (sh_rm_rf sh p (snd current)))
    as [r w4].
  destruct (code r =? 0)%Z; reflexivity.
Qed.

Lemma mismatched_remote_reclones_witness :
  trace (snd (cloneRepo (scripted_shell true demo_other_remote_script)
                (demo_analyzer "o" "r") (mkState tt [])))
  = [EvMkdir (lit "/work/temp/o/r/.."); EvCd (lit "/work/temp/o/r");
     EvExec cmd_get_url; EvRm (lit "/work/temp/o/r");
     EvExec (cmd_clone (repoUrl (demo_analyzer "o" "r"))
               (repoPath (demo_analyzer "o" "r")));
     EvCd (lit "/work/temp/o/r")].
Proof.
  refine (proj2 (@mismatched_remote_reclones unit
                   (scripted_shell true demo_other_remote_script)
                   (demo_analyzer "o" "r") tt eq_refl eq_refl _)).
  vm_compute. discriminate.
Defined.

(* ================================================================== *)
(** ** Numbers *)

Module NumFacts.

Open Scope Z_scope.

Lemma round_shift_lower (a s : Z) :
  0 < s -> Z.shiftr a s <= round_shift a s.
Proof.
  intros Hs. unfold round_shift.
  destruct (Z.leb_spec s 0) as [H|_]; [lia|]. cbv zeta.
  destruct ((Z.shiftl 1 (s - 1) <? a - Z.shiftl (Z.shiftr a s) s)
            || (Z.shiftl 1 (s - 1) =? a - Z.shiftl (Z.shiftr a s) s)
               && Z.odd (Z.shiftr a s)); lia.
Qed.

(** The magnitude that [to_double] rounds to. *)
Lemma rounded_positive (a : Z) :
  0 < a ->
  0 < Z.shiftl (round_shift a (Z.log2 a - 52)) (Z.max 0 (Z.log2 a - 52)).
Proof.
  intros Ha. set (s := Z.log2 a - 52).
  destruct (Z.le_gt_cases s 0) as [Hs|Hs].
  - unfold round_shift. destruct (Z.leb_spec s 0) as [_|H]; [|lia].
    rewrite Z.max_l by exact Hs. now rewrite Z.shiftl_0_r.
  - rewrite Z.max_r by lia. rewrite Z.shiftl_mul_pow2 by lia.
    apply Z.mul_pos_pos; [|apply Z.pow_pos_nonneg; lia].
    pose proof (@round_shift_lower a s Hs) as Hlow.
    rewrite Z.shiftr_div_pow2 in Hlow by lia.
    assert (Hq : 0 < a / 2 ^ s).
    { apply Z.div_str_pos. split; [apply Z.pow_pos_nonneg; lia|].
      apply Z.le_trans with (2 ^ Z.log2 a).
      - apply Z.pow_le_mono_r; subst s; lia.
      - now apply Z.log2_spec. }
    lia.
Qed.

(** The double of an integer is that integer rounded, with its sign, or the
    infinity of its sign; never NaN. *)
Lemma to_double_cases (z : Z) :
  exists v,
    (0 < Z.abs z -> 0 < v) /\ (z = 0 -> v = 0)
    /\ (to_double z = Num (Z.sgn z * v) \/ to_double z = Inf (z <? 0)).
Proof.
  unfold to_double. cbv zeta.
  exists (Z.shiftl (round_shift (Z.abs z) (Z.log2 (Z.abs z) - 52))
            (Z.max 0 (Z.log2 (Z.abs z) - 52))).
  split; [apply rounded_positive|]. split.
  - intros ->. reflexivity.
  - destruct (2 ^ 1024 <=? _); auto.
Qed.

Lemma to_double_not_NaN (z : Z) : to_double z <> NaN.
Proof.
  destruct (to_double_cases z) as (v & _ & _ & [H|H]); rewrite H;
    discriminate.
Qed.

(** Rounding keeps the sign. *)
Lemma to_double_sign (z : Z) :
  match to_double z with
  | Num v => 0 <? v
  | Inf negative => negb negative
  | NaN => false
  end = (0 <? z).
Proof.
  destruct (to_double_cases z) as (v & Hpos & Hzero & [H|H]); rewrite H.
  - destruct (Z.ltb_spec 0 z) as [Hz|Hz].
    + apply Z.ltb_lt. specialize (Hpos ltac:(lia)). nia.
    + apply Z.ltb_ge. destruct (Z.eq_dec z 0) as [->|Hne]; [lia|].
      specialize (Hpos ltac:(lia)). nia.
  - destruct (Z.ltb_spec z 0) as [Hz|Hz], (Z.ltb_spec 0 z) as [Hz'|Hz'];
      try reflexivity; try lia.
    (* z = 0 is not rounded to an infinity *)
    assert (z = 0) by lia. subst z. discriminate H.
Qed.

Lemma to_double_not_negative (z : Z) : 0 <= z -> not_negative (to_double z).
Proof.
  intros Hz. destruct (to_double_cases z) as (v & Hpos & Hzero & [H|H]);
    rewrite H; cbn [not_negative].
  - destruct (Z.eq_dec z 0) as [->|Hne]; [lia|].
    specialize (Hpos ltac:(lia)). nia.
  - apply Z.ltb_ge. exact Hz.
Qed.

(** Integers up to 2^53 are doubles. *)
Lemma to_double_exact (z : Z) : Z.abs z <= 2 ^ 53 -> to_double z = Num z.
Proof.
  intros Hz.
  destruct (Z.eq_dec (Z.abs z) (2 ^ 53)) as [Heq|Hne].
  - destruct (Z.abs_eq_or_opp z) as [H|H]; rewrite H in Heq.
    + subst z. vm_compute. reflexivity.
    + assert (z = - 2 ^ 53) by lia. subst z. vm_compute. reflexivity.
  - assert (Hlt : Z.abs z < 2 ^ 53) by lia.
    assert (Hs : Z.log2 (Z.abs z) - 52 <= 0).
    { destruct (Z.eq_dec (Z.abs z) 0) as [->|Hnz]; [cbn; lia|].
      assert (Z.log2 (Z.abs z) < 53);
        [apply Z.log2_lt_pow2; lia | lia]. }
    unfold to_double. cbv zeta. unfold round_shift.
    destruct (Z.leb_spec (Z.log2 (Z.abs z) - 52) 0) as [_|H]; [|lia].
    rewrite Z.max_l by exact Hs. rewrite Z.shiftl_0_r.
    destruct (Z.leb_spec (2 ^ 1024) (Z.abs z)) as [Hbig|_].
    + exfalso.
      assert (2 ^ 53 <= 2 ^ 1024) by (apply Z.pow_le_mono_r; lia). lia.
    + f_equal. lia.
Qed.

Lemma not_negative_add (a b : number) :
  not_negative a -> not_negative b -> not_negative (num_add a b).
Proof.
  destruct a as [x|s|], b as [y|t|]; cbn [not_negative num_add];
    try tauto.
  - intros Hx Hy. apply to_double_not_negative. lia.
  - intros -> ->. reflexivity.
Qed.

(** The [reduce] of non-negative integers that stay within 2^53 is their
    sum. *)
Lemma fold_exact (zs : list Z) :
  forall acc,
    0 <= acc -> Forall (fun z => 0 <= z) zs ->
    acc + fold_right Z.add 0 zs <= 2 ^ 53 ->
    fold_left num_add (map to_double zs) (Num acc)
    = Num (acc + fold_right Z.add 0 zs).
Proof.
  induction zs as [|z zs IH]; intros acc Hacc Hzs Hsum; cbn [map fold_left
    fold_right] in *.
  - now rewrite Z.add_0_r.
  - inversion Hzs as [|? ? Hz Hzs']; subst.
    assert (Hrest : 0 <= fold_right Z.add 0 zs).
    { clear -Hzs'. induction Hzs'; cbn [fold_right]; lia. }
    rewrite (@to_double_exact z) by lia. cbn [num_add].
    rewrite (@to_double_exact (acc + z)) by lia.
    rewrite IH by (try assumption; lia). f_equal. lia.
Qed.

Lemma fold_not_negative (zs : list Z) :
  forall a,
    not_negative a -> Forall (fun z => 0 <= z) zs ->
    not_negative (fold_left num_add (map to_double zs) a).
Proof.
  induction zs as [|z zs IH]; intros a Ha Hzs; cbn [map fold_left];
    [exact Ha|].
  inversion Hzs as [|? ? Hz Hzs']; subst.
  apply IH; [|exact Hzs'].
  apply not_negative_add; [exact Ha | now apply to_double_not_negative].
Qed.

Close Scope Z_scope.

End NumFacts.

(* ================================================================== *)
(** ** The shortstat totals *)

Module StatFacts.
Import RegexFacts.

(** *** Characters *)

Lemma digit_not_space (d : ascii) : is_digit d = true -> is_space d = false.
Proof.
  unfold is_digit, is_space. intros H.
  apply andb_true_iff in H as [H1 H2].
  apply Nat.leb_le in H1, H2.
  repeat (apply orb_false_iff; split).
  - apply andb_false_iff. right. apply Nat.leb_gt. lia.
  - apply Nat.eqb_neq. lia.
  - apply Nat.eqb_neq. lia.
Qed.

Lemma digit_differs (d c : ascii) :
  is_digit d = true -> is_digit c = false -> Ascii.eqb d c = false.
Proof.
  intros Hd Hc. apply Ascii.eqb_neq. intros ->. congruence.
Qed.

(** *** Runs of digits *)

Lemma take_drop_while (p : ascii -> bool) (s : str) :
  take_while p s ++ drop_while p s = s.
Proof.
  induction s as [|a s IH]; simpl; [reflexivity|].
  destruct (p a); simpl; [now rewrite IH | reflexivity].
Qed.

Lemma take_while_all (p : ascii -> bool) (s : str) :
  forallb p (take_while p s) = true.
Proof.
  induction s as [|a s IH]; simpl; [reflexivity|].
  destruct (p a) eqn:Ha; simpl; [now rewrite Ha, IH | reflexivity].
Qed.

Lemma take_while_app (p : ascii -> bool) (ds : str) (c : ascii) (x : str) :
  forallb p ds = true -> p c = false ->
  take_while p (ds ++ c :: x) = ds.
Proof.
  intros Hds Hc. induction ds as [|d ds IH]; simpl in *.
  - now rewrite Hc.
  - apply andb_true_iff in Hds as [-> Hds]. now rewrite IH.
Qed.

(** *** [parseInt] of a match *)

Lemma parseInt_count (ds word : str) :
  ds <> [] -> forallb is_digit ds = true ->
  parseInt (ds ++ " " :: word) = to_double (radix_value 10 digit_val ds).
Proof.
  intros Hne Hds. destruct ds as [|d ds]; [congruence|].
  cbn [forallb] in Hds. apply andb_true_iff in Hds as [Hd Hds].
  unfold parseInt. change ((d :: ds) ++ " " :: word)
    with (d :: ds ++ " " :: word).
  rewrite NormalizeFacts.trimStart_id by (now apply digit_not_space).
  cbv zeta.
  rewrite (@digit_differs d "-" Hd eq_refl), (@digit_differs d "+" Hd eq_refl).
  cbn [orb].
  assert (Hhex : match d :: ds ++ " " :: word with
                 | c0 :: c1 :: _ =>
                     Ascii.eqb c0 "0"
                     && (Ascii.eqb c1 "x" || Ascii.eqb c1 "X")
                 | _ => false
                 end = false).
  { destruct ds as [|d' ds]; cbn [app].
    - now rewrite andb_false_r.
    - cbn [forallb] in Hds. apply andb_true_iff in Hds as [Hd' _].
      rewrite (@digit_differs d' "x" Hd' eq_refl),
        (@digit_differs d' "X" Hd' eq_refl).
      now rewrite andb_false_r. }
  rewrite Hhex.
  change (d :: ds ++ " " :: word) with ((d :: ds) ++ " " :: word).
  rewrite take_while_app; [| cbn [forallb]; now rewrite Hd, Hds
                           | reflexivity ].
  now rewrite Z.mul_1_l.
Qed.

(** *** Runs of digits *)

Lemma radix_value_nonneg (ds : str) :
  forallb is_digit ds = true -> (0 <= radix_value 10 digit_val ds)%Z.
Proof.
  unfold radix_value. intros Hds.
  assert (H : forall acc,
             (0 <= acc)%Z ->
             (0 <= fold_left (fun a c => (10 * a + digit_val c)%Z) ds acc)%Z).
  { induction ds as [|d ds IH]; intros acc Hacc; [exact Hacc|].
    cbn [forallb] in Hds. apply andb_true_iff in Hds as [Hd Hds].
    cbn [fold_left]. apply IH; [exact Hds|].
    unfold is_digit in Hd. apply andb_true_iff in Hd as [H1 _].
    apply Nat.leb_le in H1. unfold digit_val. lia. }
  apply H. lia.
Qed.

(** *** Skipping the characters of a match *)

Lemma match_all_from_skip (n : nat) (r : regex) (x y : str) :
  forall p,
    match_all_from n r (length x) p (x ++ y)
    = match_all_from n r 0 (p + length x) y.
Proof.
  induction x as [|a x IH]; intros p.
  - simpl. now rewrite Nat.add_0_r.
  - cbn [length app match_all_from]. rewrite IH. f_equal. lia.
Qed.

Section Word.

Variable word : str.
Hypothesis word_no_digit : forallb (fun c => negb (is_digit c)) word = true.

Lemma word_no_digit' :
  forallb (fun c => negb (is_digit c)) (" " :: word) = true.
Proof. cbn [forallb]. now rewrite word_no_digit. Qed.

(** *** The match at one position *)

Lemma count_no_digit_here (p : nat) (s : str) :
  take_while is_digit s = [] -> match_here 1 (count_re word) p s = None.
Proof.
  intros Hs. apply match_here_none. unfold count_re.
  cbn [runs rest pos caps].
  destruct s as [|c s]; [reflexivity|]. simpl in Hs.
  cbn [greedy_ends]. destruct (is_digit c); [discriminate | reflexivity].
Qed.

Lemma word_after_digit (d : ascii) (y : str) :
  is_digit d = true -> is_prefix (" " :: word) (d :: y) = false.
Proof.
  intros Hd. cbn [is_prefix]. rewrite Ascii.eqb_sym.
  now rewrite (@digit_differs d " " Hd eq_refl).
Qed.

Lemma greedy_dead (s : str) :
  is_prefix (" " :: word) (drop_while is_digit s) = false ->
  forall n e, In e (greedy_ends is_digit n s) ->
              is_prefix (" " :: word) (snd e) = false.
Proof.
  induction s as [|d s IH]; intros Hdead n e Hin; simpl in *; [tauto|].
  destruct (is_digit d) eqn:Hd; [|contradiction].
  apply in_app_or in Hin as [Hin|[<-|[]]]; [eauto|]. cbn [snd].
  destruct s as [|d' s]; [reflexivity|].
  simpl in Hdead. destruct (is_digit d') eqn:Hd'; [|exact Hdead].
  now apply word_after_digit.
Qed.

Lemma count_dead_here (p : nat) (s : str) :
  is_prefix (" " :: word) (drop_while is_digit s) = false ->
  match_here 1 (count_re word) p s = None.
Proof.
  intros Hdead. apply match_here_none. unfold count_re.
  cbn [runs rest pos caps]. apply flat_map_nil. intros st Hin.
  apply in_map_iff in Hin as (st0 & <- & Hin).
  apply in_map_iff in Hin as (e & <- & Hin).
  apply (greedy_dead _ Hdead) in Hin.
  unfold at_end. cbn [runs pos rest caps]. now rewrite Hin.
Qed.

Lemma count_hit_here (p : nat) (ds y : str) :
  ds <> [] -> forallb is_digit ds = true ->
  exists m,
    match_here 1 (count_re word) p (ds ++ " " :: word ++ y) = Some m
    /\ text m = ds ++ " " :: word.
Proof.
  intros Hne Hds. unfold match_here, count_re.
  cbn [runs rest pos caps]. rewrite map_map.
  rewrite greedy_then; [| reflexivity | | exact Hne | exact Hds ].
  - unfold at_end. cbn [runs pos rest caps fst snd].
    change (" " :: word ++ y) with ((" " :: word) ++ y).
    rewrite is_prefix_app. eexists. split; [reflexivity|].
    cbn [text advance pos].
    replace (p + (0 + length ds) + length (" " :: word) - p)
      with (length (ds ++ " " :: word))
      by (rewrite length_app; lia).
    change (ds ++ (" " :: word) ++ y) with (ds ++ " " :: word ++ y).
    replace (ds ++ " " :: word ++ y) with ((ds ++ " " :: word) ++ y)
      by (now rewrite <- app_assoc).
    apply firstn_exact.
  - intros m a z Ha. unfold at_end. cbn [runs pos rest caps fst snd].
    now rewrite (@word_after_digit a z Ha).
Qed.

(** *** The integers of the specification *)

Lemma marked_counts_in_number (ds r : str) :
  forallb is_digit ds = true ->
  marked_counts word true (ds ++ r) = marked_counts word true r.
Proof.
  induction ds as [|d ds IH]; intros Hds; [reflexivity|].
  cbn [forallb] in Hds. apply andb_true_iff in Hds as [Hd Hds].
  cbn [app marked_counts]. rewrite Hd. now rewrite IH.
Qed.

Lemma marked_counts_no_digit (b : bool) (x r : str) :
  x <> [] -> forallb (fun c => negb (is_digit c)) x = true ->
  marked_counts word b (x ++ r) = marked_counts word false r.
Proof.
  revert b. induction x as [|c x IH]; intros b Hne Hx; [congruence|].
  cbn [forallb] in Hx. apply andb_true_iff in Hx as [Hc Hx].
  apply negb_true_iff in Hc. cbn [app marked_counts]. rewrite Hc.
  destruct x as [|c' x]; [reflexivity|]. apply IH; [discriminate | exact Hx].
Qed.

Lemma marked_sum_counts (s : str) :
  forall b, marked_sum word b s = fold_right Z.add 0%Z (marked_counts word b s).
Proof.
  induction s as [|c s IH]; intros b; cbn [marked_sum marked_counts];
    [reflexivity|].
  destruct (is_digit c); [|apply IH].
  rewrite IH. destruct b; [reflexivity|].
  destruct (is_prefix (" " :: word) (drop_while is_digit (c :: s)));
    reflexivity.
Qed.

Lemma marked_counts_nonneg (s : str) :
  forall b, Forall (fun z => (0 <= z)%Z) (marked_counts word b s).
Proof.
  induction s as [|c s IH]; intros b; cbn [marked_counts]; [constructor|].
  destruct (is_digit c); [|apply IH].
  apply Forall_app. split; [|apply IH].
  destruct b; [constructor|].
  destruct (is_prefix (" " :: word) (drop_while is_digit (c :: s)));
    [|constructor].
  constructor; [|constructor].
  apply radix_value_nonneg, take_while_all.
Qed.

(** *** The matches are these integers *)

Lemma counts_agree (n : nat) :
  forall s, length s <= n -> forall p,
    map parseInt (match_all_from 1 (count_re word) 0 p s)
    = map to_double (marked_counts word false s)
    /\ (is_prefix (" " :: word) (drop_while is_digit s) = false ->
        map parseInt (match_all_from 1 (count_re word) 0 p s)
        = map to_double (marked_counts word true s)).
Proof.
  induction n as [|n IH]; intros s Hlen p.
  - destruct s; [|simpl in Hlen; lia].
    cbn [match_all_from]. rewrite count_no_digit_here by reflexivity.
    split; reflexivity.
  - destruct s as [|c s'].
    { cbn [match_all_from]. rewrite count_no_digit_here by reflexivity.
      split; reflexivity. }
    simpl in Hlen. cbn [match_all_from].
    destruct (is_digit c) eqn:Hc.
    + destruct (is_prefix (" " :: word) (drop_while is_digit (c :: s')))
        eqn:Hp.
      * (* an integer followed by the word *)
        pose proof (is_prefix_true _ _ Hp) as Hr.
        pose proof (take_drop_while is_digit (c :: s')) as Hs.
        rewrite Hr in Hs.
        set (ds := take_while is_digit (c :: s')) in *.
        set (y := skipn (length (" " :: word))
                    (drop_while is_digit (c :: s'))) in *.
        assert (Hds : forallb is_digit ds = true)
          by apply take_while_all.
        assert (Hne : ds <> [])
          by (subst ds; simpl; rewrite Hc; discriminate).
        destruct (count_hit_here p y Hne Hds) as (m & Hm & Htext).
        change (ds ++ (" " :: word) ++ y) with (ds ++ " " :: word ++ y)
          in Hs.
        rewrite Hs in Hm. rewrite Hm.
        assert (Hs' : s' = tl (text m) ++ y).
        { rewrite Htext. destruct ds as [|d ds']; [congruence|].
          cbn [app tl]. cbn [app] in Hs. rewrite <- app_assoc.
          now injection Hs. }
        assert (Hlen' : length (text m) - 1 = length (tl (text m))).
        { rewrite Htext. destruct ds; [congruence|]. simpl. lia. }
        rewrite Hlen', Hs', match_all_from_skip.
        cbn [map]. rewrite Htext at 1.
        rewrite (@parseInt_count ds word Hne Hds).
        destruct (IH y) with (p := S p + length (tl (text m)))
          as [Hy _].
        { rewrite Hs', length_app in Hlen. lia. }
        rewrite Hy. split; [|discriminate].
        rewrite <- Hs'. cbn [marked_counts]. rewrite Hc, Hp. fold ds.
        cbn [app map]. f_equal. f_equal. rewrite Hs', Htext.
        destruct ds as [|d ds']; [congruence|]. cbn [app tl].
        cbn [forallb] in Hds. apply andb_true_iff in Hds as [_ Hds].
        rewrite <- app_assoc, marked_counts_in_number by exact Hds.
        symmetry. apply marked_counts_no_digit;
          [discriminate | exact word_no_digit'].
      * (* a run of digits that the word does not follow *)
        rewrite count_dead_here by exact Hp.
        destruct (IH s') with (p := S p) as [_ Hdead]; [lia|].
        cbn [drop_while] in Hp. rewrite Hc in Hp. specialize (Hdead Hp).
        rewrite Hdead. cbn [marked_counts]. rewrite Hc.
        cbn [drop_while]. rewrite Hc, Hp. split; reflexivity.
    + rewrite count_no_digit_here by (simpl; now rewrite Hc).
      destruct (IH s') with (p := S p) as [Hplain _]; [lia|].
      rewrite Hplain. cbn [marked_counts]. rewrite Hc. split; reflexivity.
Qed.

(** The code adds the doubles of these integers from left to right. *)
Lemma sumMatches_marked_counts (authorStats : str) :
  sumMatches (count_re word) authorStats
  = fold_left num_add (map to_double (marked_counts word false authorStats))
      (Num 0).
Proof.
  unfold sumMatches, match_all.
  destruct (@counts_agree (length authorStats) authorStats (le_n _) 0)
    as [Hsum _].
  destruct (match_all_from 1 (count_re word) 0 0 authorStats) eqn:E.
  - rewrite <- Hsum. reflexivity.
  - now rewrite <- Hsum.
Qed.

(** Up to 2^53 that is their sum. *)
Lemma sumMatches_marked_sum (authorStats : str) :
  (marked_sum word false authorStats <= 2 ^ 53)%Z ->
  sumMatches (count_re word) authorStats
  = Num (marked_sum word false authorStats).
Proof.
  intros Hsum. rewrite sumMatches_marked_counts.
  rewrite marked_sum_counts in Hsum |- *.
  now rewrite NumFacts.fold_exact;
    [| lia | apply marked_counts_nonneg | lia].
Qed.

Lemma sumMatches_not_negative (authorStats : str) :
  not_negative (sumMatches (count_re word) authorStats).
Proof.
  rewrite sumMatches_marked_counts.
  apply NumFacts.fold_not_negative; [cbn; lia | apply marked_counts_nonneg].
Qed.

End Word.

End StatFacts.
(** C9.  For every shortstat text the parsed additions are the sum of the
    integers followed by the word insertion (one space between, singular or
    plural) as long as that sum is at most 2^53, and the parsed deletions
    likewise for deletion; the value is always a number that is not negative
    (the sum is made on doubles, so it is rounded past 2^53), and it is 0
    when there is no such integer.  These are the values that the loop of
    [analyzeContributors] stores for an author, from the output of the
    author's shortstat command.  The text
    [1 file changed, 3 insertions(+), 1 deletion(-)] gives 3 and 1. *)
Theorem shortstat_totals :
  (forall blob : str,
      ((marked_sum (lit "insertion") false blob <= 2 ^ 53)%Z ->
       sumMatches insertion_re blob
       = Num (marked_sum (lit "insertion") false blob))
      /\ ((marked_sum (lit "deletion") false blob <= 2 ^ 53)%Z ->
          sumMatches deletion_re blob
          = Num (marked_sum (lit "deletion") false blob))
      /\ not_negative (sumMatches insertion_re blob)
      /\ not_negative (sumMatches deletion_re blob)
      /\ (marked_counts (lit "insertion") false blob = [] ->
          sumMatches insertion_re blob = Num 0)
      /\ (marked_counts (lit "deletion") false blob = [] ->
          sumMatches deletion_re blob = Num 0))
  /\ (forall (W : Type) (sh : Shell W) (entry : str * ContributorStats)
             (st : state W),
        let after_dates :=
          snd (sh_exec sh (cmd_author_dates (fst entry)) (world st)) in
        let blob :=
          stdout (fst (sh_exec sh (cmd_author_stats (fst entry))
                         after_dates)) in
        exists c st',
          authorDetails sh entry st = (inr c, st')
          /\ additions c = sumMatches insertion_re blob
          /\ deletions c = sumMatches deletion_re blob)
  /\ sumMatches insertion_re
       (lit "1 file changed, 3 insertions(+), 1 deletion(-)") = Num 3
  /\ sumMatches deletion_re
       (lit "1 file changed, 3 insertions(+), 1 deletion(-)") = Num 1.
Proof.
  split; [|split; [|split]].
  - intros blob.
    split; [apply StatFacts.sumMatches_marked_sum; reflexivity|].
    split; [apply StatFacts.sumMatches_marked_sum; reflexivity|].
    split; [apply StatFacts.sumMatches_not_negative; reflexivity|].
    split; [apply StatFacts.sumMatches_not_negative; reflexivity|].
    unfold insertion_re, deletion_re.
    rewrite !StatFacts.sumMatches_marked_counts by reflexivity.
    split; intros ->; reflexivity.
  - intros W sh [email stats] st after_dates blob.
    subst blob after_dates. cbn [fst].
    unfold authorDetails, bind, shell_exec.
    destruct (sh_exec sh (cmd_author_dates email) (world st)) as [r1 w1].
    cbn [snd].
    destruct (split "010" (stdout r1)); cbn [world trace];
      destruct (sh_exec sh (cmd_author_stats email) w1) as [r2 w2];
      unfold ret; cbn [fst]; eexists; eexists;
      (split; [reflexivity|]); cbn [additions deletions]; split; reflexivity.
  - vm_compute. reflexivity.
  - vm_compute. reflexivity.
Qed.

Lemma shortstat_totals_witness :
  sumMatches insertion_re
    (lit "2 files changed, 10 insertions(+), 4 deletions(-)"
       ++ "010" :: lit " 1 file changed, 3 insertions(+)")
  = Num 13.
Proof.
  destruct shortstat_totals as (Hparse & _).
  apply (proj1 (Hparse
                  (lit "2 files changed, 10 insertions(+), 4 deletions(-)"
                     ++ "010" :: lit " 1 file changed, 3 insertions(+)"))).
  vm_compute. discriminate.
Defined.

(** Past 2^53 the sum is not exact: a count of 2^53 + 1 is stored as
    2^53. *)
Lemma shortstat_totals_counterexample :
  marked_sum (lit "insertion") false
    (lit "1 file changed, 9007199254740993 insertions(+)")
  = 9007199254740993%Z
  /\ sumMatches insertion_re
       (lit "1 file changed, 9007199254740993 insertions(+)")
     = Num 9007199254740992
  /\ sumMatches insertion_re
       (lit "1 file changed, 9007199254740993 insertions(+)")
     <> Num (marked_sum (lit "insertion") false
               (lit "1 file changed, 9007199254740993 insertions(+)")).
Proof.
  split; [vm_compute; reflexivity|].
  split; [vm_compute; reflexivity|].
  intros H. vm_compute in H. discriminate H.
Qed.

(* ================================================================== *)
(** ** The chunk-splitting loop of [analyzeAllParallel] *)

Section ChunkLoop.

Variable A : Type.
Variable analyzers : list A.
Variable concurrency : nat.

Lemma chunk_loop_more_fuel (fuel : nat) :
  forall i chunks r,
    chunk_loop fuel i concurrency analyzers chunks = Some r ->
    forall fuel', fuel <= fuel' ->
    chunk_loop fuel' i concurrency analyzers chunks = Some r.
Proof.
  induction fuel as [|fuel IH]; intros i chunks r Hrun fuel' Hle.
  - discriminate.
  - destruct fuel' as [|fuel']; [lia|].
    simpl in *. destruct (i <? length analyzers)%nat.
    + apply IH with (fuel' := fuel') in Hrun; [exact Hrun | lia].
    + exact Hrun.
Qed.

(** With a zero step the index stays where it is. *)
Lemma chunk_loop_stuck (fuel : nat) :
  forall i chunks,
    concurrency = 0 -> i < length analyzers ->
    chunk_loop fuel i concurrency analyzers chunks = None.
Proof.
  induction fuel as [|fuel IH]; intros i chunks Hz Hi; [reflexivity|].
  simpl. apply Nat.ltb_lt in Hi as Hb. rewrite Hb.
  subst concurrency. rewrite Nat.add_0_r. apply IH; [reflexivity | exact Hi].
Qed.

Hypothesis concurrency_pos : 1 <= concurrency.

Lemma slice_length (i : nat) :
  length (slice i (i + concurrency) analyzers)
  = Nat.min concurrency (length analyzers - i).
Proof.
  unfold slice. rewrite length_firstn, length_skipn.
  replace (i + concurrency - i) with concurrency by lia. reflexivity.
Qed.

Lemma slice_then_rest (i : nat) :
  slice i (i + concurrency) analyzers ++ skipn (i + concurrency) analyzers
  = skipn i analyzers.
Proof.
  unfold slice. replace (i + concurrency - i) with concurrency by lia.
  rewrite (Nat.add_comm i concurrency), <- skipn_skipn.
  apply firstn_skipn.
Qed.

Lemma chunk_loop_runs (fuel : nat) :
  forall i chunks,
    0 < fuel -> length analyzers < fuel + i ->
    exists tl,
      chunk_loop fuel i concurrency analyzers chunks = Some (chunks ++ tl)
      /\ chunks_from analyzers concurrency i tl.
Proof.
  induction fuel as [|fuel IH]; intros i chunks Hpos Hfuel; [lia|].
  simpl. destruct (i <? length analyzers)%nat eqn:Hi.
  - apply Nat.ltb_lt in Hi.
    destruct (IH (i + concurrency)
                (chunks ++ [slice i (i + concurrency) analyzers]))
      as (tl & Hrun & Htl); [lia | lia |].
    exists (slice i (i + concurrency) analyzers :: tl). split.
    + rewrite Hrun, <- app_assoc. reflexivity.
    + destruct Htl as [Hcat Hdone Hnth Hsize Hfull]. constructor.
      * simpl. rewrite Hcat. apply slice_then_rest.
      * intros Hge. lia.
      * intros [|k] Hk; simpl in *.
        -- rewrite Nat.add_0_r. reflexivity.
        -- rewrite Hnth by lia. f_equal; lia.
      * constructor; [|exact Hsize]. rewrite slice_length. lia.
      * intros [|k] Hk; simpl in *.
        -- rewrite slice_length.
           destruct (Nat.le_gt_cases (length analyzers) (i + concurrency))
             as [Hge|Hlt].
           ++ rewrite (Hdone Hge) in Hk. simpl in Hk. lia.
           ++ lia.
        -- apply Hfull. lia.
  - apply Nat.ltb_ge in Hi. exists []. split.
    + rewrite app_nil_r. reflexivity.
    + constructor; simpl; intros; try lia; auto.
      symmetry. apply skipn_all2. exact Hi.
Qed.

End ChunkLoop.

(** C10.  For a step [concurrency >= 1] the chunk-splitting loop ends (any
    fuel above the length of the list is enough) with consecutive chunks: the
    k-th is the slice from [k * concurrency], each has between 1 and
    [concurrency] elements, all but the last have exactly [concurrency], and
    their concatenation is the list.  For [concurrency = 0] and a list that
    is not empty the loop is still running after any number of iterations. *)
Theorem chunk_loop_partitions :
  forall (A : Type) (analyzers : list A) (concurrency : nat),
    (1 <= concurrency ->
     exists chunks,
       (forall fuel, length analyzers < fuel ->
          chunk_loop fuel 0 concurrency analyzers [] = Some chunks)
       /\ concat chunks = analyzers
       /\ (forall k, k < length chunks ->
             nth k chunks [] =
             slice (k * concurrency) (k * concurrency + concurrency) analyzers)
       /\ Forall (fun c => 1 <= length c <= concurrency) chunks
       /\ (forall k, S k < length chunks ->
             length (nth k chunks []) = concurrency))
    /\ (concurrency = 0 -> analyzers <> [] ->
        forall fuel, chunk_loop fuel 0 concurrency analyzers [] = None).
Proof.
  intros A analyzers concurrency. split.
  - intros Hpos.
    destruct (@chunk_loop_runs A analyzers concurrency Hpos
                (S (length analyzers)) 0 [])
      as (tl & Hrun & [Hcat _ Hnth Hsize Hfull]); [lia | lia |].
    exists tl. repeat split; auto.
    intros fuel Hfuel.
    apply chunk_loop_more_fuel with (fuel := S (length analyzers));
      [exact Hrun | lia].
  - intros Hz Hne fuel. apply chunk_loop_stuck; [exact Hz|].
    destruct analyzers; [congruence | simpl; lia].
Qed.

Lemma chunk_loop_partitions_witness :
  exists chunks,
    chunk_loop 6 0 2 [1; 2; 3; 4; 5] [] = Some chunks
    /\ concat chunks = [1; 2; 3; 4; 5].
Proof.
  destruct (@chunk_loop_partitions nat [1; 2; 3; 4; 5] 2) as [Hsplit _].
  destruct (Hsplit (le_S 1 1 (le_n 1))) as (chunks & Hrun & Hcat & _).
  exists chunks. split.
  - apply Hrun. simpl. lia.
  - exact Hcat.
Defined.

(* ================================================================== *)
(** ** Computations only add to the trace *)

Section Appends.

Variable W : Type.
Variable sh : Shell W.

Lemma appends_ret {A} (a : A) : appends (@ret W A a).
Proof. intros st. exists []. simpl. now rewrite app_nil_r. Qed.

Lemma appends_throw {A} (e : error) : appends (@throw W A e).
Proof. intros st. exists []. simpl. now rewrite app_nil_r. Qed.

Lemma appends_bind {A B} (c : M W A) (k : A -> M W B) :
  appends c -> (forall a, appends (k a)) -> appends (bind c k).
Proof.
  intros Hc Hk st. unfold bind. destruct (Hc st) as [t Ht].
  destruct (c st) as [[e|a] st1]; simpl in *.
  - exists t. exact Ht.
  - destruct (Hk a st1) as [t' Ht']. exists (t ++ t').
    rewrite Ht', Ht, app_assoc. reflexivity.
Qed.

Lemma appends_try_catch {A} (c : M W A) (h : error -> M W A) :
  appends c -> (forall e, appends (h e)) -> appends (try_catch c h).
Proof.
  intros Hc Hh st. unfold try_catch. destruct (Hc st) as [t Ht].
  destruct (c st) as [[e|a] st1]; simpl in *.
  - destruct (Hh e st1) as [t' Ht']. exists (t ++ t').
    rewrite Ht', Ht, app_assoc. reflexivity.
  - exists t. exact Ht.
Qed.

Lemma appends_if {A} (b : bool) (c1 c2 : M W A) :
  appends c1 -> appends c2 -> appends (if b then c1 else c2).
Proof. destruct b; auto. Qed.

Lemma appends_shell_exec (cmd : str) : appends (shell_exec sh cmd).
Proof.
  intros st. unfold shell_exec. destruct (sh_exec sh cmd (world st)).
  simpl. eauto.
Qed.

Lemma appends_shell_cd (dir : str) : appends (shell_cd sh dir).
Proof. intros st. simpl. eauto. Qed.

Lemma appends_shell_rm_rf (path : str) : appends (shell_rm_rf sh path).
Proof. intros st. simpl. eauto. Qed.

Lemma appends_shell_mkdir_p (dir : str) : appends (shell_mkdir_p sh dir).
Proof. intros st. simpl. eauto. Qed.

Lemma appends_existsSync (path : str) : appends (existsSync sh path).
Proof. intros st. exists []. simpl. now rewrite app_nil_r. Qed.

Lemma appends_mapM {A B} (f : A -> M W B) (l : list A) :
  (forall a, appends (f a)) -> appends (mapM f l).
Proof.
  intros Hf. induction l as [|a l IH]; simpl.
  - apply appends_ret.
  - apply appends_bind; [apply Hf|]. intros b.
    apply appends_bind; [exact IH|]. intros bs. apply appends_ret.
Qed.

Create HintDb appends.

Hint Resolve appends_ret appends_throw appends_shell_exec appends_shell_cd
  appends_shell_rm_rf appends_shell_mkdir_p appends_existsSync : appends.

Ltac appends_step :=
  first [ apply appends_bind; [|intros ?]
        | apply appends_try_catch; [|intros ?]
        | apply appends_if
        | solve [auto with appends] ].

Lemma appends_probeBranches (branches : list str) (b : str) :
  appends (probeBranches sh branches b).
Proof.
  induction branches as [|x more IH]; simpl; repeat appends_step; exact IH.
Qed.

Lemma appends_cloneRepo (self : RepositoryAnalyzer) :
  appends (cloneRepo sh self).
Proof.
  unfold cloneRepo, isValidGitRepo, getCurrentRemoteUrl, updateExisting,
    performFreshClone, resolveDefaultBranch, resetTo.
  repeat appends_step; apply appends_probeBranches.
Qed.

Lemma appends_authorDetails (entry : str * ContributorStats) :
  appends (authorDetails sh entry).
Proof.
  destruct entry as [email stats]. unfold authorDetails.
  apply appends_bind; [auto with appends|]. intros r.
  destruct (split "010" (stdout r)); repeat appends_step.
Qed.

Lemma appends_cloneAndAnalyze (self : RepositoryAnalyzer) :
  appends (cloneAndAnalyze sh self).
Proof.
  unfold cloneAndAnalyze, analysis, analyzeContributors, getCommitHistory,
    cleanup.
  apply appends_try_catch.
  - apply appends_bind; [apply appends_cloneRepo|]. intros _.
    apply appends_bind.
    + apply appends_bind; [auto with appends|]. intros r.
      apply appends_bind; [|intros ?; apply appends_ret].
      apply appends_mapM. apply appends_authorDetails.
    + intros cs. repeat appends_step.
  - intros e. repeat appends_step.
Qed.

End Appends.

(* ================================================================== *)
(** ** The batch coordinator *)

Section SequentialFacts.

Variable W : Type.
Variable sh : Shell W.
Variable cwd : str.

Lemma run_one_appends (a : RepositoryAnalyzer) (st : state W) :
  exists t, trace (snd (run_one sh cwd a st)) = trace st ++ t.
Proof.
  unfold run_one. destruct (appends_cloneAndAnalyze sh a st) as [t Ht].
  destruct (cloneAndAnalyze sh a st) as [[e|r] st1]; simpl in *;
    rewrite Ht, <- ?app_assoc; eauto.
Qed.

Lemma run_each_appends (analyzers : list RepositoryAnalyzer) :
  forall st, exists t,
    trace (snd (run_each sh cwd analyzers st)) = trace st ++ t.
Proof.
  induction analyzers as [|a more IH]; intros st; simpl.
  - exists []. now rewrite app_nil_r.
  - destruct (run_one_appends a st) as [t Ht].
    destruct (run_one sh cwd a st) as [r st1]. simpl in Ht.
    destruct (IH st1) as [t' Ht'].
    destruct (run_each sh cwd more st1) as [rs st2]. simpl in *.
    exists (t ++ t'). rewrite Ht', Ht, app_assoc. reflexivity.
Qed.

Lemma run_each_length (analyzers : list RepositoryAnalyzer) :
  forall st, length (fst (run_each sh cwd analyzers st)) = length analyzers.
Proof.
  induction analyzers as [|a more IH]; intros st; simpl; [reflexivity|].
  destruct (run_one sh cwd a st) as [r st1].
  specialize (IH st1). destruct (run_each sh cwd more st1) as [rs st2].
  simpl in *. now rewrite IH.
Qed.

Lemma run_one_reports (a : RepositoryAnalyzer) (st : state W) (e : error) :
  fst (run_one sh cwd a st) = inl e ->
  In (EvReport (repoPath a) e) (trace (snd (run_one sh cwd a st))).
Proof.
  unfold run_one. destruct (cloneAndAnalyze sh a st) as [[e'|r] st1];
    simpl; intros He; [|discriminate].
  injection He as ->. rewrite !in_app_iff. left. right. now left.
Qed.

Lemma run_each_reports (analyzers : list RepositoryAnalyzer) :
  forall st k a e,
    nth_error analyzers k = Some a ->
    nth_error (fst (run_each sh cwd analyzers st)) k = Some (inl e) ->
    In (EvReport (repoPath a) e)
       (trace (snd (run_each sh cwd analyzers st))).
Proof.
  induction analyzers as [|a0 more IH]; intros st k a e Ha Hk.
  - destruct k; discriminate.
  - simpl in *.
    pose proof (run_one_reports a0 st) as Hrep.
    destruct (run_one sh cwd a0 st) as [r st1].
    pose proof (run_each_appends more st1) as [t Ht].
    specialize (IH st1).
    destruct (run_each sh cwd more st1) as [rs st2]. simpl in *.
    destruct k as [|k]; simpl in *.
    + injection Ha as <-. injection Hk as ->.
      rewrite Ht. apply in_or_app. left. now apply Hrep.
    + eapply IH; eassumption.
Qed.

Lemma analyzeAll_loop_run_each (analyzers : list RepositoryAnalyzer) :
  forall results st,
    analyzeAll_loop sh cwd analyzers results st
    = (inr (results ++ successes (fst (run_each sh cwd analyzers st))),
       snd (run_each sh cwd analyzers st)).
Proof.
  induction analyzers as [|a more IH]; intros results st; simpl.
  - unfold ret. now rewrite app_nil_r.
  - unfold bind at 1, try_finally, try_catch, bind, ret, run_one.
    destruct (cloneAndAnalyze sh a st) as [[e|r] st1]; simpl.
    + rewrite IH.
      destruct (run_each sh cwd more _) as [rs st2]. reflexivity.
    + rewrite IH.
      destruct (run_each sh cwd more _) as [rs st2]. simpl.
      now rewrite <- app_assoc.
Qed.

End SequentialFacts.

Section ParallelFacts.

Variable settle : RepositoryAnalyzer -> error + AnalysisResult.

Lemma promise_all_chunkTask (chunk : list RepositoryAnalyzer) :
  exists chunkResults,
    promise_all (map (chunkTask settle) chunk) = inr chunkResults
    /\ filter_non_null chunkResults = successes (map settle chunk).
Proof.
  induction chunk as [|a chunk (rs & Hall & Hrs)]; simpl.
  - exists []. auto.
  - unfold chunkTask at 1. rewrite Hall.
    destruct (settle a) as [e|r].
    + exists (None :: rs). auto.
    + exists (Some r :: rs). simpl. now rewrite Hrs.
Qed.

Lemma successes_app {X} (l1 l2 : list (error + X)) :
  successes (l1 ++ l2) = successes l1 ++ successes l2.
Proof.
  induction l1 as [|[e|x] l1 IH]; simpl; [reflexivity | exact IH |].
  now rewrite IH.
Qed.

Lemma process_chunks_concat (chunks : list (list RepositoryAnalyzer)) :
  forall results,
    process_chunks settle chunks results
    = inr (results ++ successes (map settle (concat chunks))).
Proof.
  induction chunks as [|chunk more IH]; intros results; simpl.
  - now rewrite app_nil_r.
  - destruct (promise_all_chunkTask chunk) as (rs & -> & Hrs).
    rewrite IH, Hrs, map_app, successes_app, app_assoc. reflexivity.
Qed.

Lemma analyzeAllParallel_successes
    (analyzers : list RepositoryAnalyzer) (concurrency fuel : nat) :
  1 <= concurrency -> length analyzers < fuel ->
  analyzeAllParallel settle fuel concurrency analyzers
  = Some (inr (successes (map settle analyzers))).
Proof.
  intros Hpos Hfuel. unfold analyzeAllParallel.
  destruct (@chunk_loop_runs _ analyzers concurrency Hpos fuel 0 [])
    as (tl & Hrun & Htl); [lia | lia |].
  rewrite Hrun. simpl. rewrite process_chunks_concat.
  rewrite (cf_concat Htl). reflexivity.
Qed.

End ParallelFacts.

(** C7.  Sequential mode always returns a list and never an error: the
    results of the analyses that succeed, in input order; every repository
    is run, and each failure is reported on the console.  Bounded-parallel
    mode, for a concurrency of at least 1, returns the results of the
    analyses that settle with a result, in input order, whatever the others
    do.  With concurrency 2 and five repositories of which the third fails,
    the chunks are (1,2), (3,4), (5) and the results are those of 1, 2, 4
    and 5. *)
Theorem batch_skips_failures :
  forall (W : Type) (sh : Shell W) (cwd : str)
         (analyzers : list RepositoryAnalyzer) (st : state W),
    (analyzeAll sh cwd analyzers st
       = (inr (successes (fst (run_each sh cwd analyzers st))),
          snd (run_each sh cwd analyzers st))
     /\ length (fst (run_each sh cwd analyzers st)) = length analyzers
     /\ (forall k a e,
           nth_error analyzers k = Some a ->
           nth_error (fst (run_each sh cwd analyzers st)) k = Some (inl e) ->
           In (EvReport (repoPath a) e)
              (trace (snd (run_each sh cwd analyzers st)))))
    /\ (forall settle concurrency fuel,
          1 <= concurrency -> length analyzers < fuel ->
          analyzeAllParallel settle fuel concurrency analyzers
          = Some (inr (successes (map settle analyzers))))
    /\ (forall settle a1 a2 a3 a4 a5 r1 r2 e3 r4 r5,
          analyzers = [a1; a2; a3; a4; a5] ->
          settle a1 = inr r1 -> settle a2 = inr r2 -> settle a3 = inl e3 ->
          settle a4 = inr r4 -> settle a5 = inr r5 ->
          chunk_loop 6 0 2 analyzers [] = Some [[a1; a2]; [a3; a4]; [a5]]
          /\ analyzeAllParallel settle 6 2 analyzers
             = Some (inr [r1; r2; r4; r5])).
Proof.
  intros W sh cwd analyzers st. split; [|split].
  - split; [|split].
    + unfold analyzeAll. now rewrite analyzeAll_loop_run_each.
    + apply run_each_length.
    + apply run_each_reports.
  - intros settle concurrency fuel. apply analyzeAllParallel_successes.
  - intros settle a1 a2 a3 a4 a5 r1 r2 e3 r4 r5 -> H1 H2 H3 H4 H5.
    split; [reflexivity|].
    unfold analyzeAllParallel. simpl. unfold chunkTask.
    rewrite H1, H2, H3, H4, H5. reflexivity.
Qed.

Lemma batch_skips_failures_witness :
  analyzeAllParallel demo_settle 6 2
    [demo_analyzer "o" "r1"; demo_analyzer "o" "r2"; demo_analyzer "o" "r3";
     demo_analyzer "o" "r4"; demo_analyzer "o" "r5"]
  = Some (inr [demo_result "/work/temp/o/r1"; demo_result "/work/temp/o/r2";
               demo_result "/work/temp/o/r4"; demo_result "/work/temp/o/r5"]).
Proof.
  pose proof (@batch_skips_failures unit
                (scripted_shell false demo_failing_script)
                (lit "/work")
                [demo_analyzer "o" "r1"; demo_analyzer "o" "r2";
                 demo_analyzer "o" "r3"; demo_analyzer "o" "r4";
                 demo_analyzer "o" "r5"]
                (mkState tt [])) as (_ & _ & Hfive).
  apply (Hfive demo_settle _ _ _ _ _ _ _ _ _ _ eq_refl
           eq_refl eq_refl eq_refl eq_refl eq_refl).
Defined.

(* ================================================================== *)
(** ** What a run of the matcher consumes *)

Module RunFacts.

Lemma after_caps_text (x : str) (st st' : mstate) :
  after x st st' -> firstn (pos st' - pos st) (rest st) = x.
Proof.
  intros [Hrest Hpos]. rewrite Hpos, Hrest.
  replace (pos st + length x - pos st) with (length x) by lia.
  apply firstn_exact.
Qed.

Lemma after_trans (x y : str) (st st1 st2 : mstate) :
  after x st st1 -> after y st1 st2 -> after (x ++ y) st st2.
Proof.
  intros [H1 P1] [H2 P2]. split.
  - now rewrite H1, H2, app_assoc.
  - rewrite P2, P1, length_app. lia.
Qed.

Lemma greedy_ends_spec (p : ascii -> bool) (s : str) :
  forall n e,
    In e (greedy_ends p n s) ->
    exists x, x <> [] /\ forallb p x = true
              /\ s = x ++ snd e /\ fst e = n + length x.
Proof.
  induction s as [|a s IH]; intros n e Hin; simpl in Hin; [tauto|].
  destruct (p a) eqn:Ha; [|contradiction].
  apply in_app_or in Hin as [Hin|[<-|[]]].
  - destruct (IH _ _ Hin) as (x & Hne & Hx & Hs & Hn).
    exists (a :: x). repeat split.
    + discriminate.
    + simpl. now rewrite Ha, Hx.
    + simpl. now rewrite <- Hs.
    + rewrite Hn. simpl. lia.
  - exists [a]. repeat split.
    + discriminate.
    + simpl. now rewrite Ha.
    + simpl. lia.
Qed.

Lemma lazy_ends_spec (p : ascii -> bool) (s : str) :
  forall n e,
    In e (lazy_ends p n s) ->
    exists x, x <> [] /\ forallb p x = true
              /\ s = x ++ snd e /\ fst e = n + length x.
Proof.
  induction s as [|a s IH]; intros n e Hin; simpl in Hin; [tauto|].
  destruct (p a) eqn:Ha; [|contradiction].
  destruct Hin as [<-|Hin].
  - exists [a]. repeat split.
    + discriminate.
    + simpl. now rewrite Ha.
    + simpl. lia.
  - destruct (IH _ _ Hin) as (x & Hne & Hx & Hs & Hn).
    exists (a :: x). repeat split.
    + discriminate.
    + simpl. now rewrite Ha, Hx.
    + simpl. now rewrite <- Hs.
    + rewrite Hn. simpl. lia.
Qed.

Lemma in_runs_Seq (r1 r2 : regex) (st st' : mstate) :
  In st' (runs (Seq r1 r2) st) ->
  exists st1, In st1 (runs r1 st) /\ In st' (runs r2 st1).
Proof. intros H. now apply in_flat_map in H. Qed.

Lemma in_runs_Str (l : str) (st st' : mstate) :
  In st' (runs (Str l) st) -> after l st st' /\ caps st' = caps st.
Proof.
  cbn [runs]. destruct (is_prefix l (rest st)) eqn:Hpre; [|contradiction].
  intros [<-|[]]. apply is_prefix_true in Hpre.
  unfold after, advance. cbn [pos rest caps]. auto.
Qed.

Lemma in_runs_Cls (p : ascii -> bool) (st st' : mstate) :
  In st' (runs (Cls p) st) ->
  exists c, p c = true /\ after [c] st st' /\ caps st' = caps st.
Proof.
  cbn [runs]. destruct (rest st) as [|c x] eqn:Hrest; [contradiction|].
  destruct (p c) eqn:Hc; [|contradiction].
  intros [<-|[]]. exists c. unfold after, advance.
  cbn [pos rest caps]. rewrite Hrest. auto.
Qed.

Lemma in_runs_Plus (p : ascii -> bool) (st st' : mstate) :
  In st' (runs (Plus p) st) ->
  exists x, x <> [] /\ forallb p x = true
            /\ after x st st' /\ caps st' = caps st.
Proof.
  cbn [runs]. intros Hin. apply in_map_iff in Hin as (e & <- & He).
  destruct (greedy_ends_spec _ _ _ _ He) as (x & Hne & Hx & Hs & Hn).
  exists x. unfold after, at_end. cbn [pos rest caps].
  rewrite Hn. auto.
Qed.

Lemma in_runs_PlusLazy (p : ascii -> bool) (st st' : mstate) :
  In st' (runs (PlusLazy p) st) ->
  exists x, x <> [] /\ forallb p x = true
            /\ after x st st' /\ caps st' = caps st.
Proof.
  cbn [runs]. intros Hin. apply in_map_iff in Hin as (e & <- & He).
  destruct (lazy_ends_spec _ _ _ _ He) as (x & Hne & Hx & Hs & Hn).
  exists x. unfold after, at_end. cbn [pos rest caps].
  rewrite Hn. auto.
Qed.

Lemma in_runs_Star (p : ascii -> bool) (st st' : mstate) :
  In st' (runs (Star p) st) ->
  exists x, forallb p x = true /\ after x st st' /\ caps st' = caps st.
Proof.
  cbn [runs]. intros Hin. apply in_app_or in Hin as [Hin|[<-|[]]].
  - destruct (in_runs_Plus p st st' Hin) as (x & _ & Hx & Ha & Hc). eauto.
  - exists []. unfold after. simpl. auto.
Qed.

Lemma in_runs_Grp (i : nat) (r : regex) (st st' : mstate) :
  In st' (runs (Grp i r) st) ->
  exists st1,
    In st1 (runs r st) /\ pos st' = pos st1 /\ rest st' = rest st1
    /\ caps st'
       = set_nth i (Some (firstn (pos st1 - pos st) (rest st))) (caps st1).
Proof.
  cbn [runs]. intros Hin. apply in_map_iff in Hin as (st1 & <- & H1).
  exists st1. cbn [pos rest caps]. auto.
Qed.

Lemma in_runs_Opt (r : regex) (st st' : mstate) :
  In st' (runs (Opt r) st) -> In st' (runs r st) \/ st' = st.
Proof.
  cbn [runs]. intros Hin. apply in_app_or in Hin as [Hin|[<-|[]]]; auto.
Qed.

Lemma in_runs_Eol (st st' : mstate) :
  In st' (runs Eol st) -> st' = st /\ rest st = [].
Proof.
  cbn [runs]. destruct (rest st); [|contradiction]. intros [<-|[]]. auto.
Qed.

Lemma in_runs_Bol (st st' : mstate) :
  In st' (runs Bol st) -> st' = st /\ pos st = 0.
Proof.
  cbn [runs]. destruct (pos st =? 0)%nat eqn:E; [|contradiction].
  apply Nat.eqb_eq in E. intros [<-|[]]. auto.
Qed.

(** A capturing group records what its body consumed. *)
Lemma in_runs_Grp_text (i : nat) (r : regex) (Q : str -> Prop)
    (st st' : mstate) :
  (forall st1, In st1 (runs r st) ->
               exists x, Q x /\ after x st st1 /\ caps st1 = caps st) ->
  In st' (runs (Grp i r) st) ->
  exists x, Q x /\ after x st st'
            /\ caps st' = set_nth i (Some x) (caps st).
Proof.
  intros Hr Hin.
  destruct (in_runs_Grp _ _ _ _ Hin) as (st1 & H1 & Hp & Hrs & Hc).
  destruct (Hr st1 H1) as (x & HQ & Ha & Hc1).
  exists x. rewrite Hc, Hc1, (after_caps_text Ha).
  repeat split; auto.
  - destruct Ha as [Ha _]. now rewrite Hrs.
  - destruct Ha as [_ Ha]. now rewrite Hp.
Qed.

Lemma search_from_some (n : nat) (r : regex) (s : str) :
  forall p m,
    search_from n r p s = Some m ->
    exists k, k <= length s /\ match_here n r (p + k) (skipn k s) = Some m.
Proof.
  induction s as [|a s IH]; intros p m H.
  - exists 0. simpl in *. rewrite Nat.add_0_r.
    destruct (match_here n r p []); [auto | discriminate].
  - cbn [search_from] in H.
    destruct (match_here n r p (a :: s)) eqn:E.
    + exists 0. rewrite Nat.add_0_r. injection H as <-. simpl. split; [lia|auto].
    + destruct (IH _ _ H) as (k & Hk & Hm). exists (S k).
      rewrite Nat.add_succ_r. simpl. split; [lia | exact Hm].
Qed.

Lemma match_here_some (n : nat) (r : regex) (p : nat) (s : str) (m : rmatch) :
  match_here n r p s = Some m ->
  exists st', In st' (runs r (MState p s (repeat None (S n))))
              /\ groups m = caps st' /\ index m = p
              /\ text m = firstn (pos st' - p) s.
Proof.
  unfold match_here.
  destruct (runs r (MState p s (repeat None (S n)))) as [|st' l];
    [discriminate|].
  intros H. injection H as <-. exists st'. simpl. auto.
Qed.

End RunFacts.

(* ================================================================== *)
(** ** [parseGitUrl]: what a successful parse says about the URL *)

Module ParseSound.
Import RunFacts.

Lemma plus_not_slash (st st1 : mstate) :
  In st1 (runs (Plus not_slash) st) ->
  exists x, (x <> [] /\ forallb not_slash x = true)
            /\ after x st st1 /\ caps st1 = caps st.
Proof.
  intros H. destruct (in_runs_Plus _ _ _ H) as (x & ? & ? & ? & ?). eauto.
Qed.

Lemma lazy_not_slash (st st1 : mstate) :
  In st1 (runs (PlusLazy not_slash) st) ->
  exists x, (x <> [] /\ forallb not_slash x = true)
            /\ after x st st1 /\ caps st1 = caps st.
Proof.
  intros H. destruct (in_runs_PlusLazy _ _ _ H) as (x & ? & ? & ? & ?). eauto.
Qed.

Lemma str_dot_git (st st1 : mstate) :
  In st1 (runs (Str (lit ".git")) st) ->
  exists x, x = lit ".git" /\ after x st st1 /\ caps st1 = caps st.
Proof. intros H. destruct (in_runs_Str _ _ _ H). eauto. Qed.

Lemma owner_repo_sound (st st' : mstate) :
  In st' (runs owner_repo_re st) ->
  caps st = repeat None 4 ->
  exists o r g,
    rest st = o ++ "/" :: r ++ g
    /\ (g = [] \/ g = lit ".git")
    /\ o <> [] /\ r <> []
    /\ forallb not_slash o = true /\ forallb not_slash r = true
    /\ nth 1 (caps st') None = Some o /\ nth 2 (caps st') None = Some r.
Proof.
  unfold owner_repo_re, git_end_re. intros Hin Hcaps.
  apply in_runs_Seq in Hin as (st1 & H1 & Hin).
  apply (@in_runs_Grp_text _ _ (fun x => x <> [] /\ forallb not_slash x = true) _ _ (@plus_not_slash st)) in H1
    as (o & [Ho Hos] & [Ro _] & C1).
  apply in_runs_Seq in Hin as (st2 & H2 & Hin).
  apply in_runs_Str in H2 as [[R2 _] C2].
  apply in_runs_Seq in Hin as (st3 & H3 & Hin).
  apply (@in_runs_Grp_text _ _ (fun x => x <> [] /\ forallb not_slash x = true) _ _ (@lazy_not_slash st2)) in H3
    as (r & [Hr Hrs] & [Rr _] & C3).
  apply in_runs_Seq in Hin as (st4 & H4 & Hin).
  apply in_runs_Eol in Hin as [-> Hend].
  rewrite C2, C1, Hcaps in C3.
  apply in_runs_Opt in H4 as [H4| ->].
  - apply (@in_runs_Grp_text _ _ (fun x => x = lit ".git") _ _ (@str_dot_git st3)) in H4
      as (g & -> & [Rg _] & C4).
    exists o, r, (lit ".git"). rewrite Ro, R2, Rr, Rg, Hend, C4, C3.
    repeat split; auto.
  - exists o, r, []. rewrite Ro, R2, Rr, Hend, C3.
    repeat split; auto.
Qed.

Lemma https_sound (p : nat) (s : str) (st' : mstate) :
  In st' (runs https_re (MState p s (repeat None 4))) ->
  exists o r g,
    s = lit "github.com" ++ "/" :: o ++ "/" :: r ++ g
    /\ (g = [] \/ g = lit ".git")
    /\ o <> [] /\ r <> []
    /\ forallb not_slash o = true /\ forallb not_slash r = true
    /\ nth 1 (caps st') None = Some o /\ nth 2 (caps st') None = Some r.
Proof.
  unfold https_re. intros Hin.
  apply in_runs_Seq in Hin as (st1 & H1 & Hin).
  apply in_runs_Str in H1 as [[R1 _] C1]. cbn [rest caps] in R1, C1.
  destruct (owner_repo_sound _ _ Hin C1) as (o & r & g & R & H).
  exists o, r, g. rewrite R1, R. split; [reflexivity | exact H].
Qed.

Lemma ssh_sound (p : nat) (s : str) (st' : mstate) :
  In st' (runs ssh_re (MState p s (repeat None 4))) ->
  exists sep o r g,
    s = lit "github.com" ++ sep :: o ++ "/" :: r ++ g
    /\ (sep = "/" \/ sep = ":")
    /\ (g = [] \/ g = lit ".git")
    /\ o <> [] /\ r <> []
    /\ forallb not_slash o = true /\ forallb not_slash r = true
    /\ nth 1 (caps st') None = Some o /\ nth 2 (caps st') None = Some r.
Proof.
  unfold ssh_re. intros Hin.
  apply in_runs_Seq in Hin as (st1 & H1 & Hin).
  apply in_runs_Str in H1 as [[R1 _] C1]. cbn [rest caps] in R1, C1.
  apply in_runs_Seq in Hin as (st2 & H2 & Hin).
  apply in_runs_Cls in H2 as (sep & Hsep & [R2 _] & C2).
  rewrite C1 in C2.
  destruct (owner_repo_sound _ _ Hin C2) as (o & r & g & R & H).
  exists sep, o, r, g. rewrite R1, R2, R.
  split; [reflexivity|]. split; [|exact H].
  unfold colon_or_slash in Hsep. apply orb_true_iff in Hsep as [E|E];
    apply Ascii.eqb_eq in E; auto.
Qed.

Lemma exec_some (n : nat) (r : regex) (s : str) (m : rmatch) :
  exec n r s = Some m ->
  exists k st',
    In st' (runs r (MState k (skipn k s) (repeat None (S n))))
    /\ groups m = caps st'.
Proof.
  unfold exec. intros H.
  apply search_from_some in H as (k & _ & H).
  apply match_here_some in H as (st' & Hin & Hg & _).
  exists k, st'. auto.
Qed.

End ParseSound.

Lemma parse_sound :
  forall (url : str) (parts : UrlParts),
    parseGitUrl url = inr parts ->
    exists pre sep owner repo g,
      url = pre ++ lit "github.com" ++ sep :: owner ++ "/" :: repo ++ g
      /\ (sep = "/" \/ sep = ":")
      /\ (g = [] \/ g = lit ".git")
      /\ parts = mkUrlParts (Some owner) (Some repo)
      /\ owner <> [] /\ repo <> []
      /\ ~ In "/" owner /\ ~ In "/" repo.
Proof.
  intros url parts. unfold parseGitUrl.
  destruct (exec 3 https_re url) as [m|] eqn:E1.
  - intros H. injection H as <-.
    apply ParseSound.exec_some in E1 as (k & st' & Hin & Hg).
    apply ParseSound.https_sound in Hin
      as (o & r & g & Hs & Hgit & Ho & Hr & Hos & Hrs & G1 & G2).
    exists (firstn k url), "/", o, r, g. unfold group.
    rewrite Hg, G1, G2, <- Hs, firstn_skipn.
    repeat split; auto; now apply UrlFacts.no_slash_In.
  - destruct (exec 3 ssh_re url) as [m|] eqn:E2; [|discriminate].
    intros H. injection H as <-.
    apply ParseSound.exec_some in E2 as (k & st' & Hin & Hg).
    apply ParseSound.ssh_sound in Hin
      as (sep & o & r & g & Hs & Hsep & Hgit & Ho & Hr & Hos & Hrs & G1 & G2).
    exists (firstn k url), sep, o, r, g. unfold group.
    rewrite Hg, G1, G2, <- Hs, firstn_skipn.
    repeat split; auto; now apply UrlFacts.no_slash_In.
Qed.

(** X1.  When [parseGitUrl] succeeds, the URL ends with [github.com], a
    slash or a colon, an owner, a slash, a repository name and possibly
    [.git]; the parts returned are that owner and that name, both defined,
    not empty and without a slash. *)
Theorem parseGitUrl_sound :
  forall (url : str) (parts : UrlParts),
    parseGitUrl url = inr parts ->
    exists pre sep owner repo g,
      url = pre ++ lit "github.com" ++ sep :: owner ++ "/" :: repo ++ g
      /\ (sep = "/" \/ sep = ":")
      /\ (g = [] \/ g = lit ".git")
      /\ parts = mkUrlParts (Some owner) (Some repo)
      /\ owner <> [] /\ repo <> []
      /\ ~ In "/" owner /\ ~ In "/" repo.
Proof.
  intros url parts Hparse.
  destruct (@parse_sound url parts Hparse)
    as (pre & sep & owner & repo & g & Hurl & Hsep & Hg & Hparts & Hrest).
  exists pre, sep, owner, repo, g.
  split; [exact Hurl|]. split; [exact Hsep|]. split; [exact Hg|].
  split; [exact Hparts | exact Hrest].
Qed.

Lemma parseGitUrl_sound_witness :
  exists pre sep owner repo g,
    lit "ssh://git@github.com:cosmology-tech/git-stats.git"
    = pre ++ lit "github.com" ++ sep :: owner ++ "/" :: repo ++ g
    /\ owner <> [] /\ repo <> [].
Proof.
  destruct (@parseGitUrl_sound
              (lit "ssh://git@github.com:cosmology-tech/git-stats.git")
              (mkUrlParts (Some (lit "cosmology-tech"))
                 (Some (lit "git-stats"))))
    as (pre & sep & owner & repo & g & Hurl & _ & _ & _ & Ho & Hr & _).
  - vm_compute. reflexivity.
  - exists pre, sep, owner, repo, g. auto.
Defined.

(* ================================================================== *)
(** ** [normalizeGitUrl]: white space, suffix and the SSH prefix *)

Module NormalizeMore.
Import RegexFacts NormalizeFacts.

Lemma trimStart_spaces (w s : str) :
  forallb is_space w = true -> trimStart (w ++ s) = trimStart s.
Proof.
  induction w as [|a w IH]; intros Hw; [reflexivity|].
  cbn [forallb] in Hw. apply andb_true_iff in Hw as [Ha Hw].
  cbn [app trimStart]. rewrite Ha. now apply IH.
Qed.

Lemma forallb_rev {A} (p : A -> bool) (l : list A) :
  forallb p (rev l) = forallb p l.
Proof.
  induction l as [|a l IH]; [reflexivity|].
  cbn [rev]. rewrite forallb_app, IH. simpl.
  rewrite andb_true_r. apply andb_comm.
Qed.

Lemma trimEnd_spaces (s w : str) :
  forallb is_space w = true -> trimEnd (s ++ w) = trimEnd s.
Proof.
  intros Hw. unfold trimEnd. rewrite rev_app_distr.
  rewrite trimStart_spaces; [reflexivity|]. now rewrite forallb_rev.
Qed.

Lemma trim_spaces (w1 s w2 : str) :
  forallb is_space w1 = true -> forallb is_space w2 = true ->
  trim (w1 ++ s ++ w2) = trim s.
Proof.
  intros H1 H2. unfold trim. rewrite trimStart_spaces by exact H1.
  induction s as [|a s IH].
  - cbn [app]. rewrite <- (app_nil_r w2), trimStart_spaces by exact H2.
    reflexivity.
  - cbn [app trimStart]. destruct (is_space a); [exact IH|].
    change (a :: s ++ w2) with ((a :: s) ++ w2). now apply trimEnd_spaces.
Qed.

(** [/\.git$/] finds the suffix where it starts. *)
Lemma search_dot_git (x : str) :
  forall p,
    search_from 0 dot_git_re p (x ++ lit ".git")
    = Some (RMatch (p + length x) (lit ".git") (repeat None 1)).
Proof.
  induction x as [|a x IH]; intros p.
  - rewrite Nat.add_0_r. cbn. replace (p + 4 - p) with 4 by lia. reflexivity.
  - change ((a :: x) ++ lit ".git") with (a :: x ++ lit ".git").
    rewrite search_from_skip.
    + rewrite IH. do 2 f_equal. simpl. lia.
    + apply match_here_none, dot_git_here. intros H.
      apply (f_equal (@length ascii)) in H. simpl in H.
      rewrite length_app in H. simpl in H. lia.
Qed.

Lemma strip_dot_git (x : str) :
  replace 0 dot_git_re [] (x ++ lit ".git") = x.
Proof.
  unfold replace, exec. rewrite search_dot_git. cbn [index text app Nat.add].
  rewrite firstn_exact.
  replace (length x + length (lit ".git"))
    with (length (x ++ lit ".git")) by (rewrite length_app; lia).
  now rewrite skipn_all, app_nil_r.
Qed.

Lemma replace_str_prefix (pat rep t : str) :
  replace_str pat rep (pat ++ t) = rep ++ t.
Proof.
  destruct pat as [|a pat]; [now destruct t|].
  cbn [app replace_str].
  change (a :: pat ++ t) with ((a :: pat) ++ t).
  now rewrite is_prefix_app, skipn_exact.
Qed.

Lemma ssh_prefix_has_at (s : str) :
  is_prefix (lit "git@github.com:") s = true -> In "@" s.
Proof.
  intros H. apply is_prefix_true in H. rewrite H.
  apply in_or_app. left. simpl. tauto.
Qed.

Lemma replace_str_absent (rep s : str) :
  ~ In "@" s -> replace_str (lit "git@github.com:") rep s = s.
Proof.
  induction s as [|a s IH]; intros Hat; [reflexivity|].
  cbn [replace_str].
  destruct (is_prefix (lit "git@github.com:") (a :: s)) eqn:E.
  - apply ssh_prefix_has_at in E. contradiction.
  - rewrite IH; [reflexivity|]. intros H. apply Hat. now right.
Qed.

(** A URL under [github.com/] ends in [.git] only if its path does. *)
Lemma https_ends_with_git (path pre : str) :
  lit "https://github.com/" ++ path = pre ++ lit ".git" ->
  exists pre', path = pre' ++ lit ".git".
Proof.
  intros H. apply (f_equal (@rev ascii)) in H.
  rewrite !rev_app_distr in H. cbn [lit list_ascii_of_string rev app] in H.
  destruct (rev path) as [|a [|b [|c [|d l]]]] eqn:E;
    cbn [app] in H; try discriminate H.
  injection H as -> -> -> -> _.
  exists (rev l). apply (f_equal (@rev ascii)) in E.
  rewrite rev_involutive in E. rewrite E. cbn [rev].
  now rewrite <- !app_assoc.
Qed.

Lemma ssh_ends_with_git (path pre : str) :
  lit "git@github.com:" ++ path = pre ++ lit ".git" ->
  exists pre', path = pre' ++ lit ".git".
Proof.
  intros H. apply (f_equal (@rev ascii)) in H.
  rewrite !rev_app_distr in H. cbn [lit list_ascii_of_string rev app] in H.
  destruct (rev path) as [|a [|b [|c [|d l]]]] eqn:E;
    cbn [app] in H; try discriminate H.
  injection H as -> -> -> -> _.
  exists (rev l). apply (f_equal (@rev ascii)) in E.
  rewrite rev_involutive in E. rewrite E. cbn [rev].
  now rewrite <- !app_assoc.
Qed.

Lemma trim_clean (a : ascii) (s : str) :
  is_space a = false -> is_space (last s a) = false ->
  trim (a :: s) = a :: s.
Proof.
  intros Ha Hz. destruct (@exists_last _ (a :: s)) as (x & z & E);
    [discriminate|].
  assert (Hlast : last (a :: s) a = z) by (rewrite E; apply last_last).
  assert (Hz' : is_space z = false).
  { rewrite <- Hlast. destruct s as [|b s]; [exact Ha|exact Hz]. }
  rewrite E. destruct x as [|a' x].
  - cbn [app] in *. injection E as <- _. unfold trim.
    rewrite trimStart_id by exact Ha.
    apply (@trimEnd_id [] _ Hz').
  - cbn [app] in E. injection E as <- _.
    change ((a :: x) ++ [z]) with (a :: x ++ [z]). now apply trim_id.
Qed.

End NormalizeMore.
Lemma last_of_app (path : str) (Hne : path <> []) (l : str) (d d' : ascii) :
  last (l ++ path) d = last path d'.
Proof.
  destruct (@exists_last _ path Hne) as (x & z & ->).
  rewrite app_assoc, !last_last. reflexivity.
Qed.


Section GithubForms.
Import NormalizeFacts NormalizeMore.

Variable path : str.
Hypothesis path_nonempty : path <> [].
Hypothesis path_end : is_space (last path "x") = false.
Hypothesis path_no_at : ~ In "@" path.
Hypothesis path_no_git : forall pre, path <> pre ++ lit ".git".

Lemma https_no_at : ~ In "@" (lit "https://github.com/" ++ path).
Proof.
  intros H. apply in_app_or in H as [H|H]; [|contradiction].
  simpl in H. intuition discriminate.
Qed.

Lemma normalize_https_plain :
  normalizeGitUrl (lit "https://github.com/" ++ path)
  = lit "https://github.com/" ++ path.
Proof.
  unfold normalizeGitUrl.
  change (lit "https://github.com/" ++ path)
    with ("h" :: lit "ttps://github.com/" ++ path).
  rewrite trim_clean;
    [| reflexivity | now rewrite (@last_of_app path path_nonempty _ "h" "x") ].
  change ("h" :: lit "ttps://github.com/" ++ path)
    with (lit "https://github.com/" ++ path).
  rewrite strip_without_git.
  - apply replace_str_absent, https_no_at.
  - intros pre H. apply https_ends_with_git in H as [pre' H].
    now apply (path_no_git pre').
Qed.

Lemma normalize_https_git :
  normalizeGitUrl (lit "https://github.com/" ++ path ++ lit ".git")
  = lit "https://github.com/" ++ path.
Proof.
  unfold normalizeGitUrl.
  replace (lit "https://github.com/" ++ path ++ lit ".git")
    with ("h" :: (lit "ttps://github.com/" ++ path ++ lit ".gi") ++ ["t"])
    by (cbn [lit list_ascii_of_string app]; now rewrite <- !app_assoc).
  rewrite trim_id by reflexivity.
  replace ("h" :: (lit "ttps://github.com/" ++ path ++ lit ".gi") ++ ["t"])
    with ((lit "https://github.com/" ++ path) ++ lit ".git")
    by (cbn [lit list_ascii_of_string app]; now rewrite <- !app_assoc).
  rewrite strip_dot_git. apply replace_str_absent, https_no_at.
Qed.

Lemma normalize_ssh_plain :
  normalizeGitUrl (lit "git@github.com:" ++ path)
  = lit "https://github.com/" ++ path.
Proof.
  unfold normalizeGitUrl.
  change (lit "git@github.com:" ++ path)
    with ("g" :: lit "it@github.com:" ++ path).
  rewrite trim_clean;
    [| reflexivity | now rewrite (@last_of_app path path_nonempty _ "g" "x") ].
  change ("g" :: lit "it@github.com:" ++ path)
    with (lit "git@github.com:" ++ path).
  rewrite strip_without_git.
  - apply replace_str_prefix.
  - intros pre H. apply ssh_ends_with_git in H as [pre' H].
    now apply (path_no_git pre').
Qed.

End GithubForms.

(** The SSH form with [.git] needs no condition on what follows the
    colon. *)
Lemma normalize_ssh_git (path : str) :
  normalizeGitUrl (lit "git@github.com:" ++ path ++ lit ".git")
  = lit "https://github.com/" ++ path.
Proof.
  unfold normalizeGitUrl.
  replace (lit "git@github.com:" ++ path ++ lit ".git")
    with ("g" :: (lit "it@github.com:" ++ path ++ lit ".gi") ++ ["t"])
    by (cbn [lit list_ascii_of_string app]; now rewrite <- !app_assoc).
  rewrite NormalizeFacts.trim_id by reflexivity.
  replace ("g" :: (lit "it@github.com:" ++ path ++ lit ".gi") ++ ["t"])
    with ((lit "git@github.com:" ++ path) ++ lit ".git")
    by (cbn [lit list_ascii_of_string app]; now rewrite <- !app_assoc).
  rewrite NormalizeMore.strip_dot_git.
  apply NormalizeMore.replace_str_prefix.
Qed.

(** X2.  For a path ([owner/repo]) that is not empty, does not end in white
    space or in [.git] and has no [@], the four ways of writing the
    repository on github.com, HTTPS or SSH, with or without [.git], have
    the same normal form: the HTTPS URL without [.git]. *)
Theorem normalizeGitUrl_github_forms :
  forall path : str,
    path <> [] ->
    is_space (last path "x") = false ->
    ~ In "@" path ->
    (forall pre, path <> pre ++ lit ".git") ->
    let normal := lit "https://github.com/" ++ path in
    normalizeGitUrl (lit "https://github.com/" ++ path) = normal
    /\ normalizeGitUrl (lit "https://github.com/" ++ path ++ lit ".git")
       = normal
    /\ normalizeGitUrl (lit "git@github.com:" ++ path) = normal
    /\ normalizeGitUrl (lit "git@github.com:" ++ path ++ lit ".git")
       = normal.
Proof.
  intros path Hne Hend Hat Hgit normal. subst normal.
  split; [now apply normalize_https_plain|].
  split; [now apply normalize_https_git|].
  split; [now apply normalize_ssh_plain | apply normalize_ssh_git].
Qed.

Lemma normalizeGitUrl_github_forms_witness :
  normalizeGitUrl (lit "git@github.com:" ++ lit "cosmology-tech/git-stats")
  = normalizeGitUrl
      (lit "https://github.com/" ++ lit "cosmology-tech/git-stats"
         ++ lit ".git").
Proof.
  destruct (@normalizeGitUrl_github_forms (lit "cosmology-tech/git-stats"))
    as (_ & H2 & H3 & _).
  - discriminate.
  - reflexivity.
  - simpl. intuition discriminate.
  - intros pre H. apply (f_equal (@rev ascii)) in H.
    rewrite rev_app_distr in H. simpl in H. discriminate.
  - now rewrite H2, H3.
Defined.

(** X3.  White space around a URL does not change its normal form; in
    particular the newline that ends the output of
    [git remote get-url origin] does not. *)
Theorem normalizeGitUrl_ignores_spaces :
  forall w1 url w2 : str,
    forallb is_space w1 = true -> forallb is_space w2 = true ->
    normalizeGitUrl (w1 ++ url ++ w2) = normalizeGitUrl url.
Proof.
  intros w1 url w2 H1 H2. unfold normalizeGitUrl.
  now rewrite NormalizeMore.trim_spaces.
Qed.

Lemma normalizeGitUrl_ignores_spaces_witness :
  normalizeGitUrl ([] ++ lit "https://github.com/o/r" ++ ["010"])
  = normalizeGitUrl (lit "https://github.com/o/r").
Proof.
  apply normalizeGitUrl_ignores_spaces; reflexivity.
Defined.

(* ================================================================== *)
(** ** [cloneRepo]: the paths through the acquisition *)

Ltac run_shell sh :=
  repeat (cbv beta iota zeta delta [world trace fst snd];
          match goal with
          | |- context [sh_exec sh ?c ?w] =>
              let r := fresh "r" in
              let w' := fresh "w" in
              let E := fresh "E" in
              destruct (sh_exec sh c w) as [r w'] eqn:E
          | |- context [if ?b then _ else _] =>
              let E := fresh "E" in destruct b eqn:E
          end).

Ltac unfold_methods :=
  cbv [cloneRepo isValidGitRepo getCurrentRemoteUrl updateExisting
       performFreshClone resolveDefaultBranch resetTo probeBranches
       bind ret throw shell_exec shell_cd shell_rm_rf shell_mkdir_p
       existsSync world trace fst snd].

Ltac not_a_clone H :=
  cbv [cmd_reset cmd_fetch cmd_head_branch cmd_symbolic_ref cmd_rev_parse
       cmd_clean cmd_get_url cmd_clone lit list_ascii_of_string app] in H;
  discriminate H.

Lemma negb_code (r : ExecResult) :
  negb (code r =? 0)%Z = true -> code r <> 0%Z.
Proof. intros H. apply negb_true_iff, Z.eqb_neq in H. exact H. Qed.

(** X4.  When [cloneRepo] throws, the last thing it did was to run the
    command that the error is about, and nothing after it: a clone, fetch,
    reset or clean that exited with a code other than 0, whose standard
    error is the message of the error (and a reset is to a validated branch
    name); or, for the undetermined branch, the symbolic-ref query that
    succeeded with a name that fails the test, or the probe of [master] that
    failed after the one of [main]. *)
Theorem cloneRepo_stops_at_failure :
  forall (W : Type) (sh : Shell W) (self : RepositoryAnalyzer)
         (st st' : state W) (e : error),
    cloneRepo sh self st = (inl e, st') ->
    exists t cmd w r,
      trace st' = t ++ [EvExec cmd]
      /\ sh_exec sh cmd w = (r, world st')
      /\ failed_at self e cmd r.
Proof.
  intros W sh self st st' e.
  destruct st as [w0 t0]. unfold_methods. run_shell sh.
  all: intros H; try discriminate H.
  all: injection H as <- <-.
  all: try match goal with
           | E : invalid_branch (lit _) = true |- _ =>
               vm_compute in E; discriminate E
           end.
  all: match goal with
       | E : sh_exec _ ?c ?w = (?r, ?wf)
         |- exists _ _ _ _, _ /\ _ = (_, ?wf) /\ _ =>
           eexists _, c, w, r; split; [reflexivity|]; split; [exact E|]
       end.
  all: cbn [failed_at].
  all: repeat match goal with
              | E : negb (code _ =? 0)%Z = true |- _ =>
                  apply negb_code in E
              | E : (code _ =? 0)%Z = true |- _ => apply Z.eqb_eq in E
              | E : (code _ =? 0)%Z = false |- _ => apply Z.eqb_neq in E
              | E : invalid_branch ?b = false |- _ =>
                  rewrite invalid_branch_test in E;
                  apply negb_false_iff in E
              end.
  all: try congruence.
  all: auto 6.
Qed.

Lemma cloneRepo_stops_at_failure_witness :
  exists t cmd w r,
    t ++ [EvExec cmd]
    = [EvMkdir (lit "/work/temp/o/r/..");
       EvExec (cmd_clone (repoUrl (demo_analyzer "o" "r"))
                 (repoPath (demo_analyzer "o" "r")))]
    /\ sh_exec (scripted_shell false demo_failing_script) cmd w = (r, tt)
    /\ failed_at (demo_analyzer "o" "r") (CloneFailed (lit "fatal")) cmd r.
Proof.
  destruct (@cloneRepo_stops_at_failure unit
              (scripted_shell false demo_failing_script)
              (demo_analyzer "o" "r") (mkState tt [])
              (mkState tt
                 [EvMkdir (lit "/work/temp/o/r/..");
                  EvExec (cmd_clone (repoUrl (demo_analyzer "o" "r"))
                            (repoPath (demo_analyzer "o" "r")))])
              (CloneFailed (lit "fatal")) eq_refl)
    as (t & cmd & w & r & Ht & Hr & Hf).
  exists t, cmd, w, r. cbn [trace world] in Ht, Hr. auto.
Defined.

Lemma cloneRepo_destructive_cases :
  forall (W : Type) (sh : Shell W) (self : RepositoryAnalyzer) (w : W),
    let p := repoPath self in
    let w1 := sh_mkdir_p sh (path_dirname sh p) w in
    let valid :=
      fs_existsSync sh p w1 && fs_existsSync sh (p ++ lit "/.git") w1 in
    let current := fst (sh_exec sh cmd_get_url (sh_cd sh p w1)) in
    let currentUrl :=
      if (code current =? 0)%Z then trim (stdout current) else [] in
    let differs :=
      negb (str_eqb (normalizeGitUrl currentUrl)
              (normalizeGitUrl (repoUrl self))) in
    let t := trace (snd (cloneRepo sh self (mkState w []))) in
    (forall x, In (EvRm x) t -> x = p /\ valid = true /\ differs = true)
    /\ (forall url path,
          In (EvExec (cmd_clone url path)) t ->
          valid = false \/ differs = true).
Proof.
  intros W sh self w p w1 valid current currentUrl differs t.
  subst t differs currentUrl current valid w1 p.
  unfold_methods. run_shell sh.
  all: split; [intros x Hin | intros url path Hin].
  all: repeat (apply in_app_or in Hin as [Hin|Hin]).
  all: try contradiction.
  all: repeat match goal with
              | H : In _ [_] |- _ => destruct H as [H|[]]
              end.
  all: try discriminate.
  all: try (injection Hin as Hin; exfalso; not_a_clone Hin).
  all: try (injection Hin as <-).
  all: repeat match goal with
              | E : (_, _) = (_, _) |- _ => injection E as ? ?; subst
              end.
  all: repeat match goal with
              | E : (code ?r =? 0)%Z = _,
                H : str_eqb (normalizeGitUrl
                               (if (code ?r =? 0)%Z then _ else _)) _ = _
                |- _ => rewrite E in H
              end.
  all: repeat match goal with
              | E : sh_exec _ _ _ = _ |- _ => rewrite E
              | E : fs_existsSync _ _ _ = _ |- _ => rewrite E
              end.
  all: cbv beta iota zeta delta [fst snd andb].
  all: repeat match goal with
              | E : (code _ =? 0)%Z = _ |- _ => rewrite E
              end.
  all: repeat match goal with
              | E : str_eqb _ _ = _ |- _ => rewrite E
              end.
  all: auto.
Qed.

(** X5.  [cloneRepo] removes a directory or clones only when it has to:
    the only directory it ever removes is the working copy, and only when
    that exists with a remote whose normalized URL differs from the expected
    one; it clones only then or when there is no valid working copy.  A
    working copy whose remote matches is updated in place. *)
Theorem cloneRepo_removes_only_on_mismatch :
  forall (W : Type) (sh : Shell W) (self : RepositoryAnalyzer) (w : W),
    let p := repoPath self in
    let w1 := sh_mkdir_p sh (path_dirname sh p) w in
    let valid :=
      fs_existsSync sh p w1 && fs_existsSync sh (p ++ lit "/.git") w1 in
    let current := fst (sh_exec sh cmd_get_url (sh_cd sh p w1)) in
    let currentUrl :=
      if (code current =? 0)%Z then trim (stdout current) else [] in
    let differs :=
      negb (str_eqb (normalizeGitUrl currentUrl)
              (normalizeGitUrl (repoUrl self))) in
    let t := trace (snd (cloneRepo sh self (mkState w []))) in
    (forall x, In (EvRm x) t -> x = p /\ valid = true /\ differs = true)
    /\ (forall url path,
          In (EvExec (cmd_clone url path)) t ->
          valid = false \/ differs = true).
Proof.
  intros W sh self w p w1 valid current currentUrl differs t.
  destruct (@cloneRepo_destructive_cases W sh self w) as [Hrm Hclone].
  split.
  - intros x Hin. now apply Hrm.
  - intros url path Hin. now apply (Hclone url path).
Qed.

Lemma cloneRepo_removes_only_on_mismatch_witness :
  lit "/work/temp/o/r" = repoPath (demo_analyzer "o" "r").
Proof.
  refine (proj1 (proj1 (@cloneRepo_removes_only_on_mismatch unit
                          (scripted_shell true demo_other_remote_script)
                          (demo_analyzer "o" "r") tt)
                   (lit "/work/temp/o/r") _)).
  vm_compute. tauto.
Defined.

(* ================================================================== *)
(** ** [split] and the commit log *)

Module SplitFacts.

Lemma split_cons_shape (sep : ascii) (s : str) :
  exists h t, split sep s = h :: t.
Proof.
  pose proof (split_nonempty sep s) as H.
  destruct (split sep s) as [|h t]; [congruence | eauto].
Qed.

Lemma split_clean (sep : ascii) (x : str) :
  ~ In sep x -> split sep x = [x].
Proof.
  induction x as [|c x IH]; intros Hx; [reflexivity|].
  cbn [split]. destruct (Ascii.eqb_spec c sep) as [->|Hne].
  - exfalso. apply Hx. now left.
  - rewrite IH; [reflexivity|]. intros H. apply Hx. now right.
Qed.

Lemma split_app_sep (sep : ascii) (x y : str) :
  ~ In sep x -> split sep (x ++ sep :: y) = x :: split sep y.
Proof.
  induction x as [|c x IH]; intros Hx.
  - cbn [app split]. now rewrite Ascii.eqb_refl.
  - cbn [app split]. destruct (Ascii.eqb_spec c sep) as [->|Hne].
    + exfalso. apply Hx. now left.
    + rewrite IH; [reflexivity|]. intros H. apply Hx. now right.
Qed.

Lemma split_length (sep : ascii) (s : str) :
  length (split sep s) = S (count_occ ascii_dec s sep).
Proof.
  induction s as [|c s IH]; [reflexivity|].
  cbn [split count_occ]. destruct (Ascii.eqb_spec c sep) as [->|Hne].
  - destruct (ascii_dec sep sep); [|congruence]. simpl. now rewrite IH.
  - destruct (ascii_dec c sep); [congruence|].
    destruct (split_cons_shape sep s) as (h & t & E).
    rewrite E in *. exact IH.
Qed.

Lemma split_no_sep (sep : ascii) (s : str) :
  Forall (fun part => ~ In sep part) (split sep s).
Proof.
  induction s as [|c s IH]; [repeat constructor; auto|].
  cbn [split]. destruct (Ascii.eqb_spec c sep) as [->|Hne].
  - constructor; [auto | exact IH].
  - destruct (split_cons_shape sep s) as (h & t & E). rewrite E in *.
    inversion IH as [|? ? Hh Ht]; subst. constructor; [|exact Ht].
    intros [H|H]; [congruence | contradiction].
Qed.

Lemma join_split (sep : ascii) (s : str) : join sep (split sep s) = s.
Proof.
  induction s as [|c s IH]; [reflexivity|].
  cbn [split]. destruct (Ascii.eqb_spec c sep) as [->|Hne].
  - destruct (split_cons_shape sep s) as (h & t & E). rewrite E in *.
    change (join sep ([] :: h :: t)) with ([] ++ sep :: join sep (h :: t)).
    cbn [app]. now rewrite IH.
  - destruct (split_cons_shape sep s) as (h & t & E). rewrite E in *.
    destruct t as [|h' t]; cbn [join] in *; cbn [app]; now rewrite <- IH.
Qed.

Lemma split_join (sep : ascii) (parts : list str) :
  parts <> [] -> Forall (fun part => ~ In sep part) parts ->
  split sep (join sep parts) = parts.
Proof.
  induction parts as [|p parts IH]; intros Hne Hall; [congruence|].
  inversion Hall as [|? ? Hp Hparts]; subst.
  destruct parts as [|q parts].
  - cbn [join]. now apply split_clean.
  - change (join sep (p :: q :: parts)) with (p ++ sep :: join sep (q :: parts)).
    rewrite split_app_sep by exact Hp.
    rewrite IH; [reflexivity | discriminate | exact Hparts].
Qed.

End SplitFacts.

Lemma formatCommit_no_newline (c : str * str * str * str) :
  clean_commit c -> ~ In "010" (formatCommit c).
Proof.
  destruct c as [[[h a] d] m]. cbn [clean_commit formatCommit].
  intros (_ & _ & _ & Hh & Ha & Hd & Hm) Hin.
  repeat (apply in_app_or in Hin as [Hin|[Hin|Hin]];
          [tauto | discriminate Hin |]).
  tauto.
Qed.

Lemma parseCommitLine_formatCommit (h a d m1 m2 : str) :
  ~ In "|" h -> ~ In "|" a -> ~ In "|" d -> ~ In "|" m1 ->
  parseCommitLine (formatCommit (h, a, d, m1))
    = commitOf (h, a, d, m1)
  /\ parseCommitLine (formatCommit (h, a, d, m1 ++ "|" :: m2))
    = commitOf (h, a, d, m1).
Proof.
  intros Hh Ha Hd Hm. unfold parseCommitLine, formatCommit, commitOf.
  rewrite !SplitFacts.split_app_sep by assumption.
  rewrite SplitFacts.split_clean by assumption.
  split; reflexivity.
Qed.

Lemma last_cons_default {A} (l : list A) :
  forall a d, last (a :: l) d = last l a.
Proof.
  induction l as [|b l IH]; intros a d; [reflexivity|].
  change (last (a :: b :: l) d) with (last (b :: l) d).
  now rewrite (IH b d), (IH b a).
Qed.

Lemma map_last_default {A B} (f : A -> B) (l : list A) (d : A) :
  last (map f l) (f d) = f (last l d).
Proof.
  induction l as [|a l IH]; [reflexivity|].
  cbn [map]. destruct l as [|b l]; [reflexivity|]. exact IH.
Qed.

(** X6.  The commit log has one record per line, that is one more than it
    has newlines, so never none; and joining the lines again gives the log
    back. *)
Theorem commit_log_lines :
  forall log : str,
    length (parseCommitLog log) = S (count_occ ascii_dec log "010")
    /\ join "010" (split "010" log) = log
    /\ Forall (fun line => ~ In "010" line) (split "010" log).
Proof.
  intros log. unfold parseCommitLog. rewrite length_map.
  split; [apply SplitFacts.split_length|].
  split; [apply SplitFacts.join_split | apply SplitFacts.split_no_sep].
Qed.

(** X7.  The output of [git log] for a list of commits that is not empty,
    in the format the code asks for, with no bar in a hash, author or date
    and no newline in a field, is parsed back into these commits, in order
    (a bar in the subject is the next theorem); the summary then counts
    them and takes its last date from the first line and its first date
    from the last line. *)
Theorem commit_log_round_trip :
  forall (commits : list (str * str * str * str))
         (contributors : list ContributorStats),
    commits <> [] ->
    Forall clean_commit commits ->
    Forall (fun c => ~ In "|" (snd c)) commits ->
    let log := join "010" (map formatCommit commits) in
    parseCommitLog log = map commitOf commits
    /\ totalCommits (makeSummary contributors (parseCommitLog log))
       = length commits
    /\ lastCommit (makeSummary contributors (parseCommitLog log))
       = snd (fst (hd ([], [], [], []) commits))
    /\ firstCommit (makeSummary contributors (parseCommitLog log))
       = snd (fst (last commits ([], [], [], []))).
Proof.
  intros commits contributors Hne Hclean Hbar log.
  assert (Hparse : parseCommitLog log = map commitOf commits).
  { subst log. unfold parseCommitLog.
    rewrite SplitFacts.split_join.
    - rewrite map_map. apply map_ext_in. intros [[[h a] d] m] Hin.
      rewrite Forall_forall in Hclean, Hbar.
      pose proof (Hclean _ Hin) as (Hh & Ha & Hd & _).
      pose proof (Hbar _ Hin) as Hm. cbn [snd] in Hm.
      exact (proj1 (@parseCommitLine_formatCommit h a d m [] Hh Ha Hd Hm)).
    - destruct commits; [congruence | discriminate].
    - apply Forall_map. eapply Forall_impl; [|exact Hclean].
      intros c. apply formatCommit_no_newline. }
  rewrite Hparse. split; [reflexivity|].
  unfold makeSummary. cbn [totalCommits firstCommit lastCommit].
  split; [apply length_map|].
  destruct commits as [|c0 more]; [congruence|].
  split.
  - destruct c0 as [[[h a] d] m]. reflexivity.
  - cbn [map last_commit_of]. rewrite map_last_default.
    rewrite last_cons_default.
    destruct (last more c0) as [[[h a] d] m]. reflexivity.
Qed.

Lemma commit_log_round_trip_witness :
  parseCommitLog
    (join "010"
       (map formatCommit
          [(lit "b2", lit "Bob", lit "2024-02-01", lit "second");
           (lit "a1", lit "Ann", lit "2024-01-01", lit "first")]))
  = [commitOf (lit "b2", lit "Bob", lit "2024-02-01", lit "second");
     commitOf (lit "a1", lit "Ann", lit "2024-01-01", lit "first")].
Proof.
  refine (proj1 (@commit_log_round_trip
                   [(lit "b2", lit "Bob", lit "2024-02-01", lit "second");
                    (lit "a1", lit "Ann", lit "2024-01-01", lit "first")]
                   [] _ _ _)).
  - discriminate.
  - repeat constructor; simpl; intuition discriminate.
  - repeat constructor; simpl; intuition discriminate.
Defined.

(** X8.  A subject that contains a bar is cut at its first bar: the record
    keeps the text before it and loses the rest, since only the first four
    parts of the split line are used. *)
Theorem subject_cut_at_bar :
  forall h a d m1 m2 : str,
    ~ In "|" h -> ~ In "|" a -> ~ In "|" d -> ~ In "|" m1 ->
    parseCommitLine (formatCommit (h, a, d, m1 ++ "|" :: m2))
    = commitOf (h, a, d, m1).
Proof.
  intros h a d m1 m2 Hh Ha Hd Hm.
  exact (proj2 (@parseCommitLine_formatCommit h a d m1 m2 Hh Ha Hd Hm)).
Qed.

Lemma subject_cut_at_bar_witness :
  message (parseCommitLine (lit "a1|Ann|2024-01-01|fix a|b parsing"))
  = Some (lit "fix a").
Proof.
  change (lit "a1|Ann|2024-01-01|fix a|b parsing")
    with (formatCommit (lit "a1", lit "Ann", lit "2024-01-01",
                        lit "fix a" ++ "|" :: lit "b parsing")).
  rewrite subject_cut_at_bar; [reflexivity | | | |];
    simpl; intuition discriminate.
Defined.

(* ================================================================== *)
(** ** [analyzeContributors]: the commands *)

Section ContributorCommands.

Variable W : Type.
Variable sh : Shell W.

Lemma authorDetails_trace (entry : str * ContributorStats) (st : state W) :
  trace (snd (authorDetails sh entry st))
  = trace st ++ author_queries entry.
Proof.
  destruct entry as [email stats].
  unfold authorDetails, author_queries, bind, shell_exec, ret.
  destruct (sh_exec sh (cmd_author_dates email) (world st)) as [r1 w1].
  destruct (split "010" (stdout r1)); cbn [world trace fst];
    destruct (sh_exec sh (cmd_author_stats email) w1) as [r2 w2];
    cbn [snd trace]; now rewrite <- app_assoc.
Qed.

Lemma mapM_authorDetails_trace (l : list (str * ContributorStats)) :
  forall st,
    trace (snd (mapM (authorDetails sh) l st))
    = trace st ++ flat_map author_queries l.
Proof.
  induction l as [|entry l IH]; intros st.
  - simpl. now rewrite app_nil_r.
  - cbn [mapM flat_map]. unfold bind at 1.
    pose proof (authorDetails_trace entry st) as H1.
    destruct (authorDetails_returns sh entry st) as (c & st1 & E).
    rewrite E in *. cbn [snd] in H1. unfold bind at 1.
    pose proof (IH st1) as H2.
    destruct (mapM_authorDetails_returns sh l st1) as (cs & st2 & E2).
    rewrite E2 in *. cbn [snd] in H2. unfold ret. cbn [snd].
    now rewrite H2, H1, app_assoc.
Qed.

Lemma contributors_trace (st : state W) :
  trace (snd (analyzeContributors sh st))
  = trace st
    ++ EvExec cmd_shortlog
       :: flat_map author_queries
            (parseShortlog
               (stdout (fst (sh_exec sh cmd_shortlog (world st))))).
Proof.
  unfold analyzeContributors, bind at 1, shell_exec.
  destruct (sh_exec sh cmd_shortlog (world st)) as [r w]. cbn [fst stdout].
  unfold bind.
  pose proof (mapM_authorDetails_trace (parseShortlog (stdout r))
                (mkState w (trace st ++ [EvExec cmd_shortlog]))) as H.
  destruct (mapM_authorDetails_returns sh (parseShortlog (stdout r))
              (mkState w (trace st ++ [EvExec cmd_shortlog])))
    as (cs & st1 & E).
  rewrite E in *. unfold ret. cbn [snd trace] in *.
  now rewrite H, <- app_assoc.
Qed.

End ContributorCommands.

(* ================================================================== *)
(** ** [cloneAndAnalyze]: the result *)

(** X9.  A result of [cloneAndAnalyze] is consistent: the recent commits
    are at most ten and as many as the total allows, the newest of them
    gives the last-commit date, the number of contributors is that of the
    list returned, the path is that of the working copy, and the working
    copy was not removed after the acquisition. *)
Theorem analysis_result_consistent :
  forall (W : Type) (sh : Shell W) (self : RepositoryAnalyzer)
         (st st' : state W) (r : AnalysisResult),
    cloneAndAnalyze sh self st = (inr r, st') ->
    length (recentCommits r) = Nat.min 10 (totalCommits (summary r))
    /\ lastCommit (summary r) = date_or_empty (hd_error (recentCommits r))
    /\ totalContributors (summary r) = length (contributors r)
    /\ repositoryPath r = repoPath self
    /\ exists st1 t,
         cloneRepo sh self st = (inr tt, st1)
         /\ trace st' = trace st1 ++ t
         /\ forall x, ~ In (EvRm x) t.
Proof.
  intros W sh self st st' r.
  unfold cloneAndAnalyze, try_catch, analysis, bind at 1.
  destruct (cloneRepo sh self st) as [[e|[]] st0] eqn:Hclone.
  - unfold cleanup, bind, shell_rm_rf, throw. discriminate.
  - unfold bind at 1.
    destruct (analyzeContributors sh st0) as [[e|cs] st1] eqn:Hcs.
    { destruct (analyzeContributors_returns sh st0) as (? & ? & H).
      rewrite H in Hcs. discriminate. }
    unfold bind at 1, getCommitHistory, bind, shell_exec, ret.
    destruct (sh_exec sh cmd_log (world st1)) as [r0 w0].
    intros H.
    assert (Hr : r = mkAnalysisResult
                       (makeSummary cs (parseCommitLog (stdout r0))) cs
                       (firstn 10 (parseCommitLog (stdout r0)))
                       (repoPath self)) by congruence.
    assert (Hst : st' = mkState w0 (trace st1 ++ [EvExec cmd_log]))
      by congruence.
    clear H. subst r st'.
    cbn [summary makeSummary totalCommits totalContributors lastCommit
         recentCommits contributors repositoryPath trace].
    split; [apply length_firstn|].
    split.
    { pose proof (parseCommitLog_nonempty (stdout r0)) as Hne.
      destruct (parseCommitLog (stdout r0)); [congruence | reflexivity]. }
    split; [reflexivity|]. split; [reflexivity|].
    exists st0. eexists. split; [reflexivity|].
    pose proof (contributors_trace sh st0) as Ht.
    rewrite Hcs in Ht. cbn [snd] in Ht. rewrite Ht, <- app_assoc.
    split; [reflexivity|].
    intros x Hin. apply in_app_or in Hin as [Hin|[Hin|[]]];
      [|discriminate].
    destruct Hin as [Hin|Hin]; [discriminate|].
    apply in_flat_map in Hin as (entry & _ & [Hin|[Hin|[]]]); discriminate.
Qed.

Lemma analysis_result_consistent_witness :
  length [mkCommitInfo (Some []) None None None] = Nat.min 10 1.
Proof.
  refine (proj1 (@analysis_result_consistent unit
                   (scripted_shell false demo_silent_script)
                   (demo_analyzer "o" "r") (mkState tt [])
                   (mkState tt
                      [EvMkdir (lit "/work/temp/o/r/..");
                       EvExec (cmd_clone (lit "https://github.com/o/r")
                                 (lit "/work/temp/o/r"));
                       EvCd (lit "/work/temp/o/r");
                       EvExec cmd_shortlog; EvExec cmd_log])
                   (mkAnalysisResult (mkRepositorySummary 1 0 [] []) []
                      [mkCommitInfo (Some []) None None None]
                      (lit "/work/temp/o/r")) _)).
  vm_compute. reflexivity.
Defined.

(* ================================================================== *)
(** ** The shortlog *)

Module ShortlogFacts.
Import RunFacts.

Lemma plus_digits (st st1 : mstate) :
  In st1 (runs (Plus is_digit) st) ->
  exists x, (x <> [] /\ forallb is_digit x = true)
            /\ after x st st1 /\ caps st1 = caps st.
Proof.
  intros H. destruct (in_runs_Plus _ _ _ H) as (x & ? & ? & ? & ?). eauto.
Qed.

Lemma lazy_text (st st1 : mstate) :
  In st1 (runs (PlusLazy not_newline) st) ->
  exists x, (x <> [] /\ forallb not_newline x = true)
            /\ after x st st1 /\ caps st1 = caps st.
Proof.
  intros H. destruct (in_runs_PlusLazy _ _ _ H) as (x & ? & ? & ? & ?). eauto.
Qed.

Lemma plus_text (st st1 : mstate) :
  In st1 (runs (Plus not_newline) st) ->
  exists x, (x <> [] /\ forallb not_newline x = true)
            /\ after x st st1 /\ caps st1 = caps st.
Proof.
  intros H. destruct (in_runs_Plus _ _ _ H) as (x & ? & ? & ? & ?). eauto.
Qed.

(** What a match of the shortlog pattern says about the line. *)
Lemma shortlog_sound (line : str) (mt : rmatch) :
  exec 3 shortlog_re line = Some mt ->
  exists sp0 ds sp1 nm sp2 em,
    line = sp0 ++ ds ++ sp1 ++ nm ++ sp2 ++ "<" :: em ++ [">"]
    /\ forallb is_space sp0 = true
    /\ (sp1 <> [] /\ forallb is_space sp1 = true)
    /\ (sp2 <> [] /\ forallb is_space sp2 = true)
    /\ (ds <> [] /\ forallb is_digit ds = true)
    /\ (nm <> [] /\ forallb not_newline nm = true)
    /\ (em <> [] /\ forallb not_newline em = true)
    /\ group mt 1 = Some ds /\ group mt 2 = Some nm /\ group mt 3 = Some em.
Proof.
  intros Hexec.
  apply ParseSound.exec_some in Hexec as (k & st' & Hin & Hg).
  unfold shortlog_re in Hin.
  apply in_runs_Seq in Hin as (s0 & H0 & Hin).
  apply in_runs_Bol in H0 as [-> Hk]. cbn [pos] in Hk. subst k.
  cbn [skipn] in Hin.
  apply in_runs_Seq in Hin as (s1 & H1 & Hin).
  apply in_runs_Star in H1 as (sp0 & Hsp0 & [R0 _] & C0).
  cbn [rest caps] in R0, C0.
  apply in_runs_Seq in Hin as (s2 & H2 & Hin).
  apply (@in_runs_Grp_text _ _
           (fun x => x <> [] /\ forallb is_digit x = true) _ _
           (@plus_digits s1)) in H2 as (ds & Hds & [R1 _] & C1).
  apply in_runs_Seq in Hin as (s3 & H3 & Hin).
  apply in_runs_Plus in H3 as (sp1 & Hne1 & Hsp1 & [R2 _] & C2).
  apply in_runs_Seq in Hin as (s4 & H4 & Hin).
  apply (@in_runs_Grp_text _ _
           (fun x => x <> [] /\ forallb not_newline x = true) _ _
           (@lazy_text s3)) in H4 as (nm & Hnm & [R3 _] & C3).
  apply in_runs_Seq in Hin as (s5 & H5 & Hin).
  apply in_runs_Plus in H5 as (sp2 & Hne2 & Hsp2 & [R4 _] & C4).
  apply in_runs_Seq in Hin as (s6 & H6 & Hin).
  apply in_runs_Str in H6 as [[R5 _] C5].
  apply in_runs_Seq in Hin as (s7 & H7 & Hin).
  apply (@in_runs_Grp_text _ _
           (fun x => x <> [] /\ forallb not_newline x = true) _ _
           (@plus_text s6)) in H7 as (em & Hem & [R6 _] & C6).
  apply in_runs_Seq in Hin as (s8 & H8 & Hin).
  apply in_runs_Str in H8 as [[R7 _] C7].
  apply in_runs_Eol in Hin as [-> R8].
  exists sp0, ds, sp1, nm, sp2, em.
  rewrite R0, R1, R2, R3, R4, R5, R6, R7, R8.
  unfold group. rewrite Hg, C7, C6, C5, C4, C3, C2, C1, C0.
  repeat split; auto; try tauto.
Qed.

(** *** [parseInt] of the count *)

Lemma parseInt_digits (ds : str) :
  ds <> [] -> forallb is_digit ds = true ->
  parseInt ds = to_double (radix_value 10 digit_val ds).
Proof.
  intros Hne Hds. destruct ds as [|d ds]; [congruence|].
  cbn [forallb] in Hds. apply andb_true_iff in Hds as [Hd Hds].
  unfold parseInt.
  rewrite NormalizeFacts.trimStart_id by (now apply StatFacts.digit_not_space).
  cbv zeta.
  rewrite (@StatFacts.digit_differs d "-" Hd eq_refl),
    (@StatFacts.digit_differs d "+" Hd eq_refl).
  cbn [orb].
  assert (Hhex : match d :: ds with
                 | c0 :: c1 :: _ =>
                     Ascii.eqb c0 "0"
                     && (Ascii.eqb c1 "x" || Ascii.eqb c1 "X")
                 | _ => false
                 end = false).
  { destruct ds as [|d' ds]; [reflexivity|].
    cbn [forallb] in Hds. apply andb_true_iff in Hds as [Hd' _].
    rewrite (@StatFacts.digit_differs d' "x" Hd' eq_refl),
      (@StatFacts.digit_differs d' "X" Hd' eq_refl).
    now rewrite andb_false_r. }
  rewrite Hhex.
  assert (Htake : take_while is_digit (d :: ds) = d :: ds).
  { clear Hhex Hne. cbn [take_while]. rewrite Hd. f_equal.
    induction ds as [|d' ds IH]; [reflexivity|].
    cbn [forallb] in Hds. apply andb_true_iff in Hds as [Hd' Hds].
    cbn [take_while]. rewrite Hd'. f_equal. now apply IH. }
  rewrite Htake. now rewrite Z.mul_1_l.
Qed.

(** *** The map of contributors *)

Lemma map_set_keys (k : str) (v : ContributorStats)
    (m : list (str * ContributorStats)) :
  map fst (map_set k v m)
  = if in_dec (list_eq_dec ascii_dec) k (map fst m)
    then map fst m else map fst m ++ [k].
Proof.
  induction m as [|[k' v'] m IH]; [reflexivity|].
  cbn [map_set map fst].
  destruct (str_eqb k' k) eqn:E.
  - apply str_eqb_eq in E. subst k'. cbn [map fst].
    destruct (in_dec (list_eq_dec ascii_dec) k (k :: map fst m)) as [_|H]; [reflexivity|].
    exfalso. apply H. now left.
  - apply str_eqb_neq in E. cbn [map fst]. rewrite IH.
    destruct (in_dec (list_eq_dec ascii_dec) k (map fst m)) as [Hin|Hout];
      destruct (in_dec (list_eq_dec ascii_dec) k (k' :: map fst m)) as [Hin'|Hout'];
      try reflexivity.
    + exfalso. apply Hout'. now right.
    + destruct Hin' as [->|Hin']; [congruence | contradiction].
Qed.

Lemma map_set_In (k : str) (v : ContributorStats)
    (m : list (str * ContributorStats)) (kv : str * ContributorStats) :
  In kv (map_set k v m) -> kv = (k, v) \/ In kv m.
Proof.
  induction m as [|[k' v'] m IH]; cbn [map_set].
  - intros [<-|[]]. now left.
  - destruct (str_eqb k' k).
    + intros [<-|H]; [now left | right; now right].
    + intros [<-|H]; [right; now left|].
      destruct (IH H) as [->|H']; [now left | right; now right].
Qed.

Lemma map_set_NoDup (k : str) (v : ContributorStats)
    (m : list (str * ContributorStats)) :
  NoDup (map fst m) -> NoDup (map fst (map_set k v m)).
Proof.
  intros Hnd. rewrite map_set_keys.
  destruct (in_dec (list_eq_dec ascii_dec) k (map fst m)) as [Hin|Hout]; [exact Hnd|].
  apply NoDup_app; [exact Hnd | repeat constructor; auto |].
  intros x Hx [<-|[]]. contradiction.
Qed.

Lemma map_set_self (k : str) (v : ContributorStats)
    (m : list (str * ContributorStats)) :
  In (k, v) (map_set k v m).
Proof.
  induction m as [|[k' v'] m IH]; cbn [map_set]; [now left|].
  destruct (str_eqb k' k); [now left | now right].
Qed.

Lemma map_set_other (k k' : str) (v v' : ContributorStats)
    (m : list (str * ContributorStats)) :
  k' <> k -> In (k, v) m -> In (k, v) (map_set k' v' m).
Proof.
  intros Hne. induction m as [|[k0 v0] m IH]; [contradiction|].
  cbn [map_set]. destruct (str_eqb k0 k') eqn:E.
  - apply str_eqb_eq in E. subst k0.
    intros [H|H]; [congruence | now right].
  - intros [H|H]; [now left | right; now apply IH].
Qed.

(** *** One line *)

(** A line is skipped, or it has the form of the pattern and sets the entry
    of its address. *)
Lemma addShortlogLine_cases (m : list (str * ContributorStats)) (line : str) :
  addShortlogLine m line = m
  \/ exists sp0 ds sp1 nm sp2 em,
       trim line = sp0 ++ ds ++ sp1 ++ nm ++ sp2 ++ "<" :: em ++ [">"]
       /\ forallb is_space sp0 = true
       /\ shortlog_fields ds sp1 nm sp2 em
       /\ addShortlogLine m line = map_set em (shortlog_entry ds nm em) m.
Proof.
  unfold addShortlogLine.
  destruct (exec 3 shortlog_re (trim line)) as [mt|] eqn:E; [|now left].
  destruct (shortlog_sound _ E)
    as (sp0 & ds & sp1 & nm & sp2 & em & Hline & Hsp0 & Hsp1 & Hsp2
        & Hds & Hnm & Hem & -> & -> & ->).
  right. exists sp0, ds, sp1, nm, sp2, em.
  split; [exact Hline|]. split; [exact Hsp0|].
  split; [unfold shortlog_fields; tauto|].
  unfold shortlog_entry. now rewrite parseInt_digits by tauto.
Qed.

(** *** All the lines *)

Lemma parseShortlog_NoDup (lines : list str) :
  forall m,
    NoDup (map fst m) ->
    NoDup (map fst (fold_left addShortlogLine lines m)).
Proof.
  induction lines as [|line lines IH]; intros m Hnd; [exact Hnd|].
  cbn [fold_left]. apply IH.
  destruct (addShortlogLine_cases m line)
    as [->|(sp0 & ds & sp1 & nm & sp2 & em & _ & _ & _ & ->)];
    [exact Hnd | now apply map_set_NoDup].
Qed.

(** Every entry was set by a line. *)
Lemma parseShortlog_sound (all : list str) (lines : list str) :
  forall m,
    incl lines all ->
    (forall k v, In (k, v) m -> set_by_line all k v) ->
    forall k v,
      In (k, v) (fold_left addShortlogLine lines m) -> set_by_line all k v.
Proof.
  induction lines as [|line lines IH]; intros m Hincl Hm; [exact Hm|].
  cbn [fold_left]. apply IH.
  - intros x Hx. apply Hincl. now right.
  - destruct (addShortlogLine_cases m line)
      as [->|(sp0 & ds & sp1 & nm & sp2 & em & Hline & Hsp0 & Hf & ->)];
      [exact Hm|].
    intros k v Hin. apply map_set_In in Hin as [Heq|Hin]; [|now apply Hm].
    injection Heq as -> ->.
    exists line, sp0, ds, sp1, nm, sp2.
    split; [apply Hincl; now left|]. auto.
Qed.

(** An entry stays as it is when no later line has its address. *)
Lemma parseShortlog_keeps_entry (k : str) (v : ContributorStats)
    (lines : list str) :
  forall m,
    no_line_of k lines ->
    In (k, v) m -> In (k, v) (fold_left addShortlogLine lines m).
Proof.
  induction lines as [|line lines IH]; intros m Hno Hin; [exact Hin|].
  cbn [fold_left]. apply IH.
  - intros l pre Hl. apply Hno. now right.
  - destruct (addShortlogLine_cases m line)
      as [->|(sp0 & ds & sp1 & nm & sp2 & em & Hline & _ & _ & ->)];
      [exact Hin|].
    apply map_set_other; [|exact Hin].
    intros ->. apply (Hno line (sp0 ++ ds ++ sp1 ++ nm ++ sp2));
      [now left|].
    rewrite Hline. now rewrite <- !app_assoc.
Qed.

(** A key stays a key. *)
Lemma parseShortlog_has_key (k : str) (lines : list str) :
  forall m,
    In k (map fst m) -> In k (map fst (fold_left addShortlogLine lines m)).
Proof.
  induction lines as [|line lines IH]; intros m Hin; [exact Hin|].
  cbn [fold_left]. apply IH.
  destruct (addShortlogLine_cases m line)
    as [->|(sp0 & ds & sp1 & nm & sp2 & em & _ & _ & _ & ->)];
    [exact Hin|].
  rewrite map_set_keys.
  destruct (in_dec (list_eq_dec ascii_dec) em (map fst m));
    [exact Hin | apply in_or_app; now left].
Qed.

Lemma shortlog_entry_counted (ds nm em : str) :
  forallb is_digit ds = true -> counted (shortlog_entry ds nm em).
Proof.
  intros Hds. unfold counted, shortlog_entry. cbn [commits].
  apply NumFacts.to_double_not_negative.
  now apply StatFacts.radix_value_nonneg.
Qed.

End ShortlogFacts.
(* ================================================================== *)
(** ** The sort of the contributors *)

Module SortFacts.

Lemma num_leb_total (a b : number) :
  a <> NaN -> b <> NaN -> num_leb a b = false -> num_leb b a = true.
Proof.
  destruct a as [x|[]|], b as [y|[]|]; cbn [num_leb]; try congruence.
  intros _ _ H. apply Z.leb_gt in H. apply Z.leb_le. lia.
Qed.

Lemma num_leb_trans (a b c : number) :
  num_leb a b = true -> num_leb b c = true -> num_leb a c = true.
Proof.
  destruct a as [x|[]|], b as [y|[]|], c as [z|[]|]; cbn [num_leb];
    try congruence.
  intros H1 H2. apply Z.leb_le in H1, H2. apply Z.leb_le. lia.
Qed.

Lemma num_leb_refl (a : number) : a <> NaN -> num_leb a a = true.
Proof.
  destruct a as [x|[]|]; cbn [num_leb]; try congruence.
  intros _. apply Z.leb_refl.
Qed.

Lemma num_eqb_eq (a b : number) : num_eqb a b = true -> a = b.
Proof.
  destruct a as [x|s|], b as [y|t|]; cbn [num_eqb]; try discriminate.
  - intros H. apply Z.eqb_eq in H. now subst.
  - intros H. apply Bool.eqb_prop in H. now subst.
Qed.

(** The comparison function puts [a] after [b] exactly when [a] has fewer
    commits. *)
Lemma comes_after_leb (a b : ContributorStats) :
  commits a <> NaN -> commits b <> NaN ->
  comes_after a b = negb (num_leb (commits b) (commits a)).
Proof.
  unfold comes_after.
  destruct (commits a) as [x|s|], (commits b) as [y|t|]; try congruence;
    intros _ _.
  - cbn [num_sub num_leb]. rewrite NumFacts.to_double_sign.
    destruct (Z.ltb_spec 0 (y - x)), (Z.leb_spec y x); cbn [negb]; auto;
      lia.
  - destruct t; reflexivity.
  - destruct s; reflexivity.
  - destruct s, t; reflexivity.
Qed.

Lemma insert_sorted_perm (a : ContributorStats) (l : list ContributorStats) :
  Permutation (insert_sorted a l) (a :: l).
Proof.
  induction l as [|b l IH]; cbn [insert_sorted]; [reflexivity|].
  destruct (comes_after a b); [|reflexivity].
  rewrite IH. apply perm_swap.
Qed.

Lemma sortByCommits_perm (l : list ContributorStats) :
  Permutation (sortByCommits l) l.
Proof.
  induction l as [|a l IH]; [reflexivity|].
  unfold sortByCommits in *. cbn [fold_right].
  rewrite insert_sorted_perm. now constructor.
Qed.

Lemma insert_sorted_sorted (a : ContributorStats) (l : list ContributorStats) :
  commits a <> NaN -> Forall (fun c => commits c <> NaN) l ->
  StronglySorted by_commits_desc l ->
  StronglySorted by_commits_desc (insert_sorted a l).
Proof.
  intros Ha Hl Hs. induction Hs as [|b l Hs IH Hb]; cbn [insert_sorted].
  - repeat constructor.
  - inversion Hl as [|? ? Hbn Hln]; subst.
    rewrite comes_after_leb by assumption.
    destruct (num_leb (commits b) (commits a)) eqn:Hcmp; cbn [negb].
    + constructor; [now constructor|].
      constructor; [exact Hcmp|].
      eapply Forall_impl; [|exact Hb].
      unfold by_commits_desc. intros c Hc.
      now apply num_leb_trans with (commits b).
    + constructor; [now apply IH|].
      rewrite (insert_sorted_perm a l). constructor; [|exact Hb].
      unfold by_commits_desc. now apply num_leb_total.
Qed.

Lemma sortByCommits_sorted (l : list ContributorStats) :
  Forall (fun c => commits c <> NaN) l ->
  StronglySorted by_commits_desc (sortByCommits l).
Proof.
  induction l as [|a l IH]; intros Hl; [constructor|].
  inversion Hl as [|? ? Ha Hl']; subst.
  unfold sortByCommits in *. cbn [fold_right].
  apply insert_sorted_sorted; [exact Ha | | now apply IH].
  rewrite (sortByCommits_perm l). exact Hl'.
Qed.

Lemma insert_sorted_filter (n : number) (a : ContributorStats)
    (l : list ContributorStats) :
  commits a <> NaN -> Forall (fun c => commits c <> NaN) l ->
  filter (fun c => num_eqb (commits c) n) (insert_sorted a l)
  = filter (fun c => num_eqb (commits c) n) (a :: l).
Proof.
  intros Ha Hl. induction l as [|b l IH]; [reflexivity|].
  inversion Hl as [|? ? Hb Hl']; subst. cbn [insert_sorted].
  rewrite comes_after_leb by assumption.
  destruct (num_leb (commits b) (commits a)) eqn:Hcmp; cbn [negb];
    [reflexivity|].
  cbn [filter] in *. rewrite (IH Hl').
  destruct (num_eqb (commits a) n) eqn:Ea, (num_eqb (commits b) n) eqn:Eb;
    try reflexivity.
  apply num_eqb_eq in Ea, Eb. rewrite Ea, Eb in Hcmp.
  rewrite num_leb_refl in Hcmp by congruence. discriminate.
Qed.

Lemma sortByCommits_stable (n : number) (l : list ContributorStats) :
  Forall (fun c => commits c <> NaN) l ->
  filter (fun c => num_eqb (commits c) n) (sortByCommits l)
  = filter (fun c => num_eqb (commits c) n) l.
Proof.
  induction l as [|a l IH]; intros Hl; [reflexivity|].
  inversion Hl as [|? ? Ha Hl']; subst.
  unfold sortByCommits in *. cbn [fold_right].
  rewrite insert_sorted_filter.
  - cbn [filter]. now rewrite IH.
  - exact Ha.
  - change (fold_right insert_sorted [] l) with (sortByCommits l).
    rewrite (sortByCommits_perm l). exact Hl'.
Qed.

End SortFacts.

(** X11.  The sort of the contributors returns the same contributors; when
    no commit count is NaN they are ordered from the most commits to the
    fewest, and contributors with the same count keep their order. *)
Theorem sortByCommits_sorts :
  forall l : list ContributorStats,
    Permutation (sortByCommits l) l
    /\ (Forall (fun c => commits c <> NaN) l ->
        StronglySorted by_commits_desc (sortByCommits l)
        /\ forall n,
             filter (fun c => num_eqb (commits c) n) (sortByCommits l)
             = filter (fun c => num_eqb (commits c) n) l).
Proof.
  intros l. split; [apply SortFacts.sortByCommits_perm|].
  intros Hl. split; [now apply SortFacts.sortByCommits_sorted|].
  intros n. now apply SortFacts.sortByCommits_stable.
Qed.

Lemma sortByCommits_sorts_witness :
  StronglySorted by_commits_desc
    (sortByCommits
       [mkContributorStats (lit "Bob") (lit "b@e.c") (Num 2) (Num 0) (Num 0)
          [] [];
        mkContributorStats (lit "Ann") (lit "a@e.c") (Num 5) (Num 0) (Num 0)
          [] []]).
Proof.
  apply (proj2 (sortByCommits_sorts _)).
  repeat constructor; discriminate.
Defined.

(* ================================================================== *)
(** ** [analyzeContributors]: the lines that are taken *)

Module FirstRun.
Import RegexFacts RunFacts.

Lemma hd_error_app_some {A} (l l' : list A) (y : A) :
  hd_error l = Some y -> hd_error (l ++ l') = Some y.
Proof. destruct l; [discriminate | auto]. Qed.

Lemma first_Seq (r1 r2 : regex) (x y z : str) (c1 c2 : list (option str))
    (st st1 st2 : mstate) :
  first_run r1 x (y ++ z) c1 st st1 ->
  first_run r2 y z c2 st1 st2 ->
  first_run (Seq r1 r2) (x ++ y) z c2 st st2.
Proof.
  intros (H1 & R1 & R1' & P1 & C1) (H2 & R2 & R2' & P2 & C2).
  unfold first_run. cbn [runs].
  destruct (runs r1 st) as [|s l]; [discriminate|].
  injection H1 as ->. cbn [flat_map].
  split; [now apply hd_error_app_some|].
  rewrite <- app_assoc, length_app. repeat split; auto. lia.
Qed.

Lemma greedy_ends_first (p : ascii -> bool) (o z : str) :
  o <> [] -> forallb p o = true ->
  forallb p (firstn 1 z) = false \/ z = [] ->
  forall n, hd_error (greedy_ends p n (o ++ z)) = Some (n + length o, z).
Proof.
  intros Hne Ho Hz.
  assert (Hstop : forall n, greedy_ends p n z = []).
  { intros n. destruct z as [|c z]; [reflexivity|].
    destruct Hz as [Hz|Hz]; [|discriminate].
    cbn [firstn forallb] in Hz. rewrite andb_true_r in Hz.
    cbn [greedy_ends]. now rewrite Hz. }
  induction o as [|a o IH]; [congruence|]. intros n.
  cbn [forallb] in Ho. apply andb_true_iff in Ho as [Ha Ho].
  cbn [app greedy_ends]. rewrite Ha.
  destruct o as [|b o].
  - cbn [app]. rewrite Hstop. cbn. do 2 f_equal. lia.
  - apply hd_error_app_some. rewrite IH by (auto; discriminate).
    do 2 f_equal. cbn [length]. lia.
Qed.

Lemma first_Plus (p : ascii -> bool) (o z : str) (st : mstate) :
  rest st = o ++ z ->
  o <> [] -> forallb p o = true ->
  forallb p (firstn 1 z) = false \/ z = [] ->
  exists st', first_run (Plus p) o z (caps st) st st'.
Proof.
  intros Hrest Hne Ho Hz.
  pose proof (@greedy_ends_first p o z Hne Ho Hz 0) as Hhd.
  exists (MState (pos st + length o) z (caps st)).
  unfold first_run. cbn [runs pos rest caps]. rewrite Hrest.
  destruct (greedy_ends p 0 (o ++ z)) as [|e l]; [discriminate|].
  injection Hhd as ->. cbn [map hd_error at_end fst snd]. auto.
Qed.

Lemma first_Star_none (p : ascii -> bool) (st : mstate) :
  forallb p (firstn 1 (rest st)) = false ->
  first_run (Star p) [] (rest st) (caps st) st st.
Proof.
  intros Hz. unfold first_run. cbn [runs].
  destruct (rest st) as [|c z] eqn:E; [discriminate|].
  cbn [firstn forallb] in Hz. rewrite andb_true_r in Hz.
  cbn [greedy_ends]. rewrite Hz. cbn. auto.
Qed.

Lemma first_Grp (i : nat) (r : regex) (x z : str) (c : list (option str))
    (st st1 : mstate) :
  first_run r x z c st st1 ->
  exists st', first_run (Grp i r) x z (set_nth i (Some x) c) st st'.
Proof.
  intros (H1 & R1 & R1' & P1 & C1).
  eexists. unfold first_run. cbn [runs].
  destruct (runs r st) as [|s l]; [discriminate|].
  injection H1 as ->. cbn [map hd_error].
  split; [reflexivity|]. cbn [pos rest caps].
  repeat split; auto.
  rewrite P1, R1, C1.
  replace (pos st + length x - pos st) with (length x) by lia.
  now rewrite firstn_exact.
Qed.

Lemma first_Str (l z : str) (st : mstate) :
  rest st = l ++ z ->
  first_run (Str l) l z (caps st) st (advance (length l) st).
Proof.
  intros Hrest. unfold first_run. cbn [runs]. rewrite Hrest.
  rewrite is_prefix_app. unfold advance. cbn [hd_error pos rest caps].
  rewrite Hrest, skipn_exact. auto.
Qed.

Lemma first_Eol (st : mstate) :
  rest st = [] -> first_run Eol [] [] (caps st) st st.
Proof.
  intros Hrest. unfold first_run. cbn [runs]. rewrite Hrest.
  cbn. auto.
Qed.

Lemma first_Bol (st : mstate) :
  pos st = 0 -> first_run Bol [] (rest st) (caps st) st st.
Proof.
  intros Hpos. unfold first_run. cbn [runs]. rewrite Hpos.
  cbn. auto.
Qed.

(** A greedy [c]+ in a group before one literal character of the class
    and the end: the matcher gives back that character. *)
Lemma greedy_ends_last (p : ascii -> bool) (c : ascii) (o : str) :
  o <> [] -> forallb p o = true -> p c = true ->
  forall n, exists tl,
    greedy_ends p n (o ++ [c])
    = (n + length o + 1, []) :: (n + length o, [c]) :: tl.
Proof.
  intros Hne Ho Hc.
  induction o as [|a o IH]; [congruence|]. intros n.
  cbn [forallb] in Ho. apply andb_true_iff in Ho as [Ha Ho].
  cbn [app greedy_ends]. rewrite Ha.
  destruct o as [|b o].
  - exists []. cbn [app greedy_ends length]. rewrite Hc. cbn [app].
    replace (n + 1 + 1) with (S (S n)) by lia.
    replace (n + 1) with (S n) by lia. reflexivity.
  - destruct (IH ltac:(discriminate) Ho (S n)) as [tl ->].
    exists (tl ++ [(S n, (b :: o) ++ [c])]). cbn [app length].
    replace (S n + S (length o) + 1) with (n + S (S (length o)) + 1) by lia.
    replace (S n + S (length o)) with (n + S (S (length o))) by lia.
    reflexivity.
Qed.

Lemma first_greedy_back (i : nat) (p : ascii -> bool) (c : ascii)
    (o : str) (st : mstate) :
  rest st = o ++ [c] ->
  o <> [] -> forallb p o = true -> p c = true ->
  exists st',
    first_run (Seq (Grp i (Plus p)) (Seq (Str [c]) Eol)) (o ++ [c]) []
      (set_nth i (Some o) (caps st)) st st'.
Proof.
  intros Hrest Hne Ho Hc.
  destruct (@greedy_ends_last p c o Hne Ho Hc 0) as [tl Hends].
  eexists. unfold first_run. cbn [runs]. rewrite Hrest, Hends.
  cbn [map flat_map at_end fst snd pos rest caps is_prefix app].
  rewrite Ascii.eqb_refl.
  cbn [flat_map advance pos rest caps length skipn app hd_error].
  split; [reflexivity|]. unfold advance. cbn [pos rest caps skipn].
  rewrite app_nil_r.
  replace (pos st + (0 + length o) - pos st) with (length o) by lia.
  rewrite firstn_exact, length_app. cbn [length].
  repeat split; auto. lia.
Qed.

(** A run of white space cannot reach past text that ends otherwise. *)
Lemma space_run_inside (c : ascii) (y z x r : str) :
  y ++ z = x ++ c :: r ->
  forallb is_space x = true ->
  y <> [] -> is_space (last y "x") = false ->
  In c y.
Proof.
  revert x. induction y as [|a y IH]; intros x Heq Hx Hne Hlast;
    [congruence|].
  destruct x as [|b x].
  - cbn [app] in Heq. injection Heq as -> _. now left.
  - cbn [app] in Heq. injection Heq as -> Heq.
    cbn [forallb] in Hx. apply andb_true_iff in Hx as [Hb Hx].
    destruct y as [|a' y].
    + cbn [last] in Hlast. congruence.
    + right. apply (IH x Heq Hx); [discriminate | exact Hlast].
Qed.

Lemma spaces_then_fails (c : ascii) (k : regex) (y z : str) (st : mstate) :
  rest st = y ++ z ->
  y <> [] -> is_space (last y "x") = false -> ~ In c y ->
  runs (Seq (Plus is_space) (Seq (Str [c]) k)) st = [].
Proof.
  intros Hrest Hne Hlast Hout.
  destruct (runs (Seq (Plus is_space) (Seq (Str [c]) k)) st)
    as [|st' l] eqn:E; [reflexivity|].
  exfalso.
  assert (Hin : In st' (runs (Seq (Plus is_space) (Seq (Str [c]) k)) st))
    by (rewrite E; now left).
  apply in_runs_Seq in Hin as (s1 & H1 & Hin).
  apply in_runs_Plus in H1 as (x & _ & Hx & [R1 _] & _).
  apply in_runs_Seq in Hin as (s2 & H2 & _).
  apply in_runs_Str in H2 as [[R2 _] _].
  rewrite R2, Hrest in R1. cbn [app] in R1.
  apply Hout. exact (@space_run_inside c y z x (rest s2) R1 Hx Hne Hlast).
Qed.

Lemma last_skipn (q : str) (k : nat) (d : ascii) :
  k < length q -> last (skipn k q) d = last q d.
Proof.
  intros Hk. rewrite <- (firstn_skipn k q) at 2.
  symmetry. apply last_of_app.
  intros H. apply (f_equal (@length ascii)) in H.
  rewrite length_skipn in H. cbn in H. lia.
Qed.

(** A lazy [.]+? in a group before white space and a character that the
    text does not have: the group takes the text up to its last
    character that is not white space. *)
Lemma first_lazy (i : nat) (p : ascii -> bool) (c : ascii) (k : regex)
    (nm w z : str) (cs : list (option str)) (st : mstate) :
  rest st = nm ++ w ++ z ->
  nm <> [] -> forallb p nm = true ->
  is_space (last nm "x") = false -> ~ In c nm ->
  (forall st1,
      rest st1 = w ++ z -> pos st1 = pos st + length nm ->
      caps st1 = set_nth i (Some nm) (caps st) ->
      exists st',
        first_run (Seq (Plus is_space) (Seq (Str [c]) k)) w z cs st1 st') ->
  exists st',
    first_run
      (Seq (Grp i (PlusLazy p)) (Seq (Plus is_space) (Seq (Str [c]) k)))
      (nm ++ w) z cs st st'.
Proof.
  intros Hrest Hne Hp Hlast Hout Hnext.
  destruct nm as [|a q]; [congruence|].
  cbn [forallb] in Hp. apply andb_true_iff in Hp as [Ha Hq].
  set (wrap := fun st1 : mstate =>
                 MState (pos st1) (rest st1)
                   (set_nth i
                      (Some (firstn (pos st1 - pos st) (a :: q ++ w ++ z)))
                      (caps st1))).
  set (kk := Seq (Plus is_space) (Seq (Str [c]) k)).
  assert (Hruns : runs (Seq (Grp i (PlusLazy p)) kk) st
                  = flat_map (runs kk)
                      (map (fun e => wrap (at_end st e))
                         (lazy_ends p 0 (a :: q ++ w ++ z)))).
  { cbn [runs]. rewrite Hrest, map_map. reflexivity. }
  rewrite (@lazy_then _ p (runs kk) (fun e => wrap (at_end st e)) (w ++ z)
             q 0 a Ha Hq) in Hruns.
  - specialize (Hnext (wrap (at_end st (0 + 1 + length q, w ++ z)))).
    destruct Hnext as (st' & H1 & R1 & R1' & P1 & C1).
    + reflexivity.
    + cbn [wrap at_end pos fst length]. lia.
    + cbn [wrap at_end pos rest caps fst snd].
      replace (pos st + (0 + 1 + length q) - pos st)
        with (length (a :: q)) by (cbn [length]; lia).
      change (a :: q ++ w ++ z) with ((a :: q) ++ w ++ z).
      now rewrite firstn_exact.
    + exists st'. unfold first_run. rewrite Hruns.
      split; [now apply hd_error_app_some|].
      rewrite Hrest, <- app_assoc, length_app.
      cbn [wrap at_end pos fst] in P1.
      repeat split; auto. cbn [length] in *. lia.
  - intros m j Hj. apply (@spaces_then_fails c k (skipn j q) (w ++ z)).
    + reflexivity.
    + intros H. apply (f_equal (@length ascii)) in H.
      rewrite length_skipn in H. cbn in H. lia.
    + rewrite last_skipn by exact Hj.
      destruct q as [|b q]; [cbn in Hj; lia | exact Hlast].
    + intros Hin. apply Hout. right.
      rewrite <- (firstn_skipn j q). apply in_or_app. now right.
Qed.

Lemma first_run_eq (r : regex) (x x' z z' : str)
    (c c' : list (option str)) (st st' : mstate) :
  first_run r x z c st st' -> x = x' -> z = z' -> c = c' ->
  first_run r x' z' c' st st'.
Proof. now intros H <- <- <-. Qed.

Lemma space_not_digit (c : ascii) : is_space c = true -> is_digit c = false.
Proof.
  intros Hc. destruct (is_digit c) eqn:E; [|reflexivity].
  apply StatFacts.digit_not_space in E. congruence.
Qed.

Lemma starts_outside (p : ascii -> bool) (x z : str) :
  x <> [] -> p (hd "x" x) = false -> forallb p (firstn 1 (x ++ z)) = false.
Proof.
  destruct x as [|a x]; [congruence|]. intros _ H. cbn in *. now rewrite H.
Qed.

(** The pattern of a line of the shortlog, on a line of that form. *)
Lemma shortlog_first_run (ds sp1 nm sp2 em : str) :
  ds <> [] -> forallb is_digit ds = true ->
  sp1 <> [] -> forallb is_space sp1 = true ->
  nm <> [] -> forallb not_newline nm = true ->
  is_space (hd "x" nm) = false -> is_space (last nm "x") = false ->
  ~ In "<" nm ->
  sp2 <> [] -> forallb is_space sp2 = true ->
  em <> [] -> forallb not_newline em = true ->
  exists st',
    first_run shortlog_re
      (ds ++ sp1 ++ nm ++ sp2 ++ "<" :: em ++ [">"]) []
      [None; Some ds; Some nm; Some em]
      (MState 0 (ds ++ sp1 ++ nm ++ sp2 ++ "<" :: em ++ [">"])
         (repeat None 4))
      st'.
Proof.
  intros Hds0 Hds Hsp10 Hsp1 Hnm0 Hnm Hhd Hlast Hlt Hsp20 Hsp2 Hem0 Hem.
  set (line := ds ++ sp1 ++ nm ++ sp2 ++ "<" :: em ++ [">"]).
  set (st0 := MState 0 line (repeat None 4)).
  unfold shortlog_re. change (lit "<") with ["<"]. change (lit ">") with [">"].
  (* ^ and \s* take nothing *)
  pose proof (@first_Bol st0 eq_refl) as HB.
  assert (HS : first_run (Star is_space) [] line (repeat None 4) st0 st0).
  { apply (@first_Star_none is_space st0). cbn [st0 rest]. unfold line.
    apply starts_outside; [exact Hds0|].
    destruct ds as [|d ds]; [congruence|]. cbn [hd].
    cbn [forallb] in Hds. apply andb_true_iff in Hds as [Hd _].
    now apply StatFacts.digit_not_space. }
  (* the count *)
  destruct (@first_Plus is_digit ds (sp1 ++ nm ++ sp2 ++ "<" :: em ++ [">"])
              st0 eq_refl Hds0 Hds) as (s1' & H1').
  { left. apply starts_outside; [exact Hsp10|].
    destruct sp1 as [|c sp1]; [congruence|]. cbn [hd].
    cbn [forallb] in Hsp1. apply andb_true_iff in Hsp1 as [Hc _].
    now apply space_not_digit. }
  destruct (@first_Grp 1 _ _ _ _ _ _ H1') as (s1 & H1).
  cbn [st0 caps repeat set_nth] in H1.
  pose proof H1 as (_ & _ & R1 & P1 & C1).
  (* the white space after it *)
  destruct (@first_Plus is_space sp1 (nm ++ sp2 ++ "<" :: em ++ [">"])
              s1 R1 Hsp10 Hsp1) as (s2 & H2).
  { left. now apply starts_outside. }
  pose proof H2 as (_ & _ & R2 & P2 & C2).
  (* the name, the white space, the address *)
  destruct (@first_lazy 2 not_newline "<"
              (Seq (Grp 3 (Plus not_newline)) (Seq (Str [">"]) Eol))
              nm (sp2 ++ "<" :: em ++ [">"]) []
              [None; Some ds; Some nm; Some em] s2) as (s3 & H3);
    try assumption.
  { now rewrite app_nil_r. }
  { intros s Rs Ps Cs. rewrite app_nil_r in Rs.
    destruct (@first_Plus is_space sp2 ("<" :: em ++ [">"]) s Rs Hsp20 Hsp2)
      as (s4 & H4); [left; reflexivity|].
    pose proof H4 as (_ & _ & R4 & P4 & C4).
    pose proof (@first_Str ["<"] (em ++ [">"]) s4 R4) as H5.
    destruct (@first_greedy_back 3 not_newline ">" em
                (advance (length ["<"]) s4)) as (s6 & H6);
      [ unfold advance; cbn [rest length]; rewrite R4; reflexivity
      | exact Hem0 | exact Hem | reflexivity | ].
    exists s6.
    apply (@first_run_eq _ (sp2 ++ ["<"] ++ em ++ [">"]) _ [] _
             (set_nth 3 (Some em) (caps (advance (length ["<"]) s4))));
      [| reflexivity | reflexivity |].
    - apply (@first_Seq _ _ sp2 (["<"] ++ em ++ [">"]) [] (caps s) _ s s4 s6).
      + now rewrite app_nil_r.
      + apply (@first_Seq _ _ ["<"] (em ++ [">"]) [] (caps s4) _ s4
                 (advance (length ["<"]) s4) s6).
        * now rewrite app_nil_r.
        * exact H6.
    - unfold advance. cbn [caps]. rewrite C4, Cs, C2, C1. reflexivity. }
  exists s3.
  apply (@first_run_eq _
           ([] ++ [] ++ ds ++ sp1 ++ nm ++ sp2 ++ "<" :: em ++ [">"]) _ []
           _ [None; Some ds; Some nm; Some em]);
    [| reflexivity | reflexivity | reflexivity].
  apply (@first_Seq _ _ [] _ [] (repeat None 4) _ st0 st0 s3);
    [ rewrite app_nil_r; exact HB |].
  apply (@first_Seq _ _ [] _ [] (repeat None 4) _ st0 st0 s3);
    [ rewrite app_nil_r; exact HS |].
  apply (@first_Seq _ _ ds _ [] [None; Some ds; None; None] _ st0 s1 s3);
    [ rewrite app_nil_r; exact H1 |].
  apply (@first_Seq _ _ sp1 _ [] (caps s1) _ s1 s2 s3);
    [ rewrite app_nil_r; exact H2 | exact H3 ].
Qed.

End FirstRun.

Lemma shortlog_exec (ds sp1 nm sp2 em : str) :
  ds <> [] -> forallb is_digit ds = true ->
  sp1 <> [] -> forallb is_space sp1 = true ->
  nm <> [] -> forallb not_newline nm = true ->
  is_space (hd "x" nm) = false -> is_space (last nm "x") = false ->
  ~ In "<" nm ->
  sp2 <> [] -> forallb is_space sp2 = true ->
  em <> [] -> forallb not_newline em = true ->
  exists mt,
    exec 3 shortlog_re (ds ++ sp1 ++ nm ++ sp2 ++ "<" :: em ++ [">"])
    = Some mt
    /\ group mt 1 = Some ds /\ group mt 2 = Some nm /\ group mt 3 = Some em.
Proof.
  intros Hds0 Hds Hsp10 Hsp1 Hnm0 Hnm Hhd Hlast Hlt Hsp20 Hsp2 Hem0 Hem.
  destruct (@FirstRun.shortlog_first_run ds sp1 nm sp2 em)
    as (st' & Hrun & _ & _ & _ & Hcaps); try assumption.
  unfold exec.
  assert (Hhere :
            match_here 3 shortlog_re 0
              (ds ++ sp1 ++ nm ++ sp2 ++ "<" :: em ++ [">"])
            = Some (RMatch 0
                      (firstn (pos st' - 0)
                         (ds ++ sp1 ++ nm ++ sp2 ++ "<" :: em ++ [">"]))
                      (caps st'))).
  { unfold match_here.
    change (repeat None 4) with (@repeat (option str) None 4) in Hrun.
    destruct (runs shortlog_re
                (MState 0 (ds ++ sp1 ++ nm ++ sp2 ++ "<" :: em ++ [">"])
                   (repeat None 4))) as [|s l]; [discriminate|].
    now injection Hrun as ->. }
  exists (RMatch 0
            (firstn (pos st' - 0)
               (ds ++ sp1 ++ nm ++ sp2 ++ "<" :: em ++ [">"]))
            (caps st')).
  split.
  - destruct (ds ++ sp1 ++ nm ++ sp2 ++ "<" :: em ++ [">"]);
      cbn [search_from]; rewrite Hhere; reflexivity.
  - unfold group. cbn [groups]. rewrite Hcaps. auto.
Qed.

Lemma shortlog_line_trim (sp0 ds tl sp3 : str) :
  forallb is_space sp0 = true -> forallb is_space sp3 = true ->
  ds <> [] -> forallb is_digit ds = true ->
  trim (sp0 ++ (ds ++ tl ++ [">"]) ++ sp3) = ds ++ tl ++ [">"].
Proof.
  intros H0 H3 Hds0 Hds.
  rewrite NormalizeMore.trim_spaces by assumption.
  destruct ds as [|d ds]; [congruence|].
  cbn [forallb] in Hds. apply andb_true_iff in Hds as [Hd _].
  cbn [app]. apply NormalizeMore.trim_clean.
  - now apply StatFacts.digit_not_space.
  - now rewrite app_assoc, last_last.
Qed.

(** A line of the form of the shortlog sets the entry of its address. *)
Lemma addShortlogLine_taken (m : list (str * ContributorStats))
    (sp0 ds sp1 nm sp2 em sp3 : str) :
  forallb is_space sp0 = true -> forallb is_space sp3 = true ->
  shortlog_fields ds sp1 nm sp2 em -> plain_name nm ->
  addShortlogLine m
    (sp0 ++ (ds ++ (sp1 ++ nm ++ sp2 ++ "<" :: em) ++ [">"]) ++ sp3)
  = map_set em (shortlog_entry ds nm em) m.
Proof.
  intros H0 H3 ([Hds0 Hds] & [Hsp10 Hsp1] & [Hnm0 Hnm] & [Hsp20 Hsp2]
                & [Hem0 Hem]) (Hhd & Hlast & Hlt).
  unfold addShortlogLine.
  rewrite shortlog_line_trim by assumption.
  replace (ds ++ (sp1 ++ nm ++ sp2 ++ "<" :: em) ++ [">"])
    with (ds ++ sp1 ++ nm ++ sp2 ++ "<" :: em ++ [">"])
    by (now rewrite <- !app_assoc).
  destruct (@shortlog_exec ds sp1 nm sp2 em)
    as (mt & -> & -> & -> & ->); try assumption.
  unfold shortlog_entry. now rewrite ShortlogFacts.parseInt_digits.
Qed.

(** X21.  A line of [git shortlog -sne]: a count in digits, white space, a
    name, white space and an address in angle brackets, with or without
    white space around, sets the entry of that address to the name, the
    address and the count: the double nearest to the decimal value of the
    digits, which is that value itself up to 2^53.  The name is taken
    whole when it has no [<] and neither starts nor ends with white
    space. *)
Theorem shortlog_line_is_taken :
  forall (m : list (str * ContributorStats))
         (sp0 ds sp1 nm sp2 em sp3 : str),
    forallb is_space sp0 = true -> forallb is_space sp3 = true ->
    shortlog_fields ds sp1 nm sp2 em -> plain_name nm ->
    let line :=
      sp0 ++ (ds ++ (sp1 ++ nm ++ sp2 ++ "<" :: em) ++ [">"]) ++ sp3 in
    let count := radix_value 10 digit_val ds in
    addShortlogLine m line
    = map_set em
        (mkContributorStats nm em (to_double count) (Num 0) (Num 0) [] [])
        m
    /\ ((count <= 2 ^ 53)%Z -> to_double count = Num count)
    /\ counted (shortlog_entry ds nm em).
Proof.
  intros m sp0 ds sp1 nm sp2 em sp3 H0 H3 Hfields Hname line count.
  split; [|split].
  - subst line count. now apply addShortlogLine_taken.
  - intros Hle. apply NumFacts.to_double_exact.
    pose proof (@StatFacts.radix_value_nonneg ds) as Hpos.
    destruct Hfields as ([_ Hds] & _). specialize (Hpos Hds).
    subst count. lia.
  - destruct Hfields as ([_ Hds] & _).
    now apply ShortlogFacts.shortlog_entry_counted.
Qed.

Lemma shortlog_line_is_taken_witness :
  addShortlogLine []
    (lit "    " ++ (lit "12" ++ (["009"] ++ lit "Alice Smith" ++ lit " "
                                  ++ "<" :: lit "alice@example.com")
                      ++ [">"]) ++ [])
  = [(lit "alice@example.com",
      mkContributorStats (lit "Alice Smith") (lit "alice@example.com")
        (Num 12) (Num 0) (Num 0) [] [])].
Proof.
  refine (proj1 (@shortlog_line_is_taken [] (lit "    ") (lit "12") ["009"]
                   (lit "Alice Smith") (lit " ") (lit "alice@example.com")
                   [] _ _ _ _)).
  - reflexivity.
  - reflexivity.
  - unfold shortlog_fields. repeat split; try reflexivity; discriminate.
  - unfold plain_name. split; [reflexivity|]. split; [reflexivity|].
    simpl. intuition discriminate.
Defined.

(* ================================================================== *)
(** ** The map of contributors and the lines of the shortlog *)

(** X10.  The map built from the shortlog has one entry per address, and
    its entries are those that the lines set: every entry is the name, the
    address and the count of a line of the form of the pattern (the count
    a number that is not negative, never NaN; additions and deletions 0;
    dates empty), and every line of that form whose name is set off from
    the rest has the entry of its address in the map, with its own name
    and count when no later line has the same address. *)
Theorem parseShortlog_entries :
  forall shortlog : str,
    NoDup (map fst (parseShortlog shortlog))
    /\ (forall k v,
          In (k, v) (parseShortlog shortlog) ->
          set_by_line (split "010" shortlog) k v /\ counted v)
    /\ (forall before after sp0 ds sp1 nm sp2 em sp3,
          split "010" shortlog
          = before
            ++ (sp0 ++ (ds ++ (sp1 ++ nm ++ sp2 ++ "<" :: em) ++ [">"])
                  ++ sp3)
               :: after ->
          forallb is_space sp0 = true -> forallb is_space sp3 = true ->
          shortlog_fields ds sp1 nm sp2 em -> plain_name nm ->
          In em (map fst (parseShortlog shortlog))
          /\ (no_line_of em after ->
              In (em, shortlog_entry ds nm em) (parseShortlog shortlog))).
Proof.
  intros shortlog. unfold parseShortlog. split; [|split].
  - apply ShortlogFacts.parseShortlog_NoDup. constructor.
  - intros k v Hin.
    assert (Hset : set_by_line (split "010" shortlog) k v).
    { revert k v Hin. apply ShortlogFacts.parseShortlog_sound.
      - apply incl_refl.
      - intros k v []. }
    split; [exact Hset|].
    destruct Hset as (line & sp0 & ds & sp1 & nm & sp2 & _ & _ & _
                      & ([_ Hds] & _) & ->).
    now apply ShortlogFacts.shortlog_entry_counted.
  - intros before after sp0 ds sp1 nm sp2 em sp3 Hlines H0 H3 Hf Hname.
    rewrite Hlines, fold_left_app. cbn [fold_left].
    rewrite addShortlogLine_taken by assumption.
    split.
    + apply ShortlogFacts.parseShortlog_has_key.
      apply in_map_iff. exists (em, shortlog_entry ds nm em).
      split; [reflexivity | apply ShortlogFacts.map_set_self].
    + intros Hno. apply ShortlogFacts.parseShortlog_keeps_entry;
        [exact Hno | apply ShortlogFacts.map_set_self].
Qed.

Lemma parseShortlog_entries_witness :
  In (lit "a@e.c", shortlog_entry (lit "3") (lit "Ann") (lit "a@e.c"))
     (parseShortlog
        (lit "     3" ++ "009" :: lit "Ann <a@e.c>" ++ "010"
           :: lit "     1" ++ "009" :: lit "Bob <b@e.c>")).
Proof.
  destruct (parseShortlog_entries
              (lit "     3" ++ "009" :: lit "Ann <a@e.c>" ++ "010"
                 :: lit "     1" ++ "009" :: lit "Bob <b@e.c>"))
    as (_ & _ & Hlines).
  destruct (Hlines [] [lit "     1" ++ "009" :: lit "Bob <b@e.c>"]
              (lit "     ") (lit "3") ["009"] (lit "Ann") (lit " ")
              (lit "a@e.c") []) as [_ Hin].
  - vm_compute. reflexivity.
  - reflexivity.
  - reflexivity.
  - unfold shortlog_fields. repeat split; try reflexivity; discriminate.
  - unfold plain_name. split; [reflexivity|]. split; [reflexivity|].
    simpl. intuition discriminate.
  - apply Hin. intros line pre [<-|[]] H. vm_compute in H.
    apply (f_equal (@rev ascii)) in H. rewrite rev_app_distr in H.
    simpl in H. discriminate H.
Defined.
(* ================================================================== *)
(** ** [analyzeContributors]: the result *)

Module ContributorFacts.

Lemma authorDetails_details {W} (sh : Shell W)
    (entry : str * ContributorStats) (st st' : state W)
    (c : ContributorStats) :
  authorDetails sh entry st = (inr c, st') -> details_of entry c.
Proof.
  destruct entry as [k stats]. unfold authorDetails, bind, shell_exec.
  destruct (sh_exec sh (cmd_author_dates k) (world st)) as [r1 w1].
  destruct (split "010" (stdout r1)); cbn [world trace];
    destruct (sh_exec sh (cmd_author_stats k) w1) as [r2 w2];
    unfold ret; intros H; injection H as <- _;
    unfold details_of, totalled;
    cbn [email name commits additions deletions fst snd];
    repeat split;
    apply StatFacts.sumMatches_not_negative; reflexivity.
Qed.

Lemma mapM_authorDetails_details {W} (sh : Shell W)
    (l : list (str * ContributorStats)) :
  forall (st st' : state W) (cs : list ContributorStats),
    mapM (authorDetails sh) l st = (inr cs, st') ->
    Forall2 details_of l cs.
Proof.
  induction l as [|entry l IH]; intros st st' cs.
  - cbn [mapM]. unfold ret. intros H. injection H as <- _. constructor.
  - cbn [mapM]. unfold bind at 1.
    destruct (authorDetails sh entry st) as [[e|c] st1] eqn:E1;
      [discriminate|].
    unfold bind at 1.
    destruct (mapM (authorDetails sh) l st1) as [[e|cs'] st2] eqn:E2;
      [discriminate|].
    unfold ret. intros H. injection H as <- _.
    constructor; [eapply authorDetails_details; eassumption|].
    eapply IH; eassumption.
Qed.

Lemma details_emails (l : list (str * ContributorStats))
    (cs : list ContributorStats) :
  Forall2 details_of l cs -> map email cs = map fst l.
Proof.
  induction 1 as [|entry c l cs (He & _) _ IH]; [reflexivity|].
  cbn [map]. now rewrite He, IH.
Qed.

(** Each contributor is the detailed form of an entry, and each entry has
    one. *)
Lemma details_of_entry (l : list (str * ContributorStats))
    (cs : list ContributorStats) :
  Forall2 details_of l cs ->
  (forall c, In c cs -> exists entry, In entry l /\ details_of entry c)
  /\ (forall entry, In entry l -> exists c, In c cs /\ details_of entry c).
Proof.
  induction 1 as [|entry c l cs Hd _ [IH1 IH2]].
  - split; intros ? [].
  - split.
    + intros c' [<-|Hin]; [exists entry; split; [now left | exact Hd]|].
      destruct (IH1 c' Hin) as (e & He & Hde). exists e. split; auto.
      now right.
    + intros e [<-|Hin]; [exists c; split; [now left | exact Hd]|].
      destruct (IH2 e Hin) as (c' & Hc & Hde). exists c'. split; auto.
      now right.
Qed.

Lemma unique_value (m : list (str * ContributorStats)) (k : str)
    (v v' : ContributorStats) :
  NoDup (map fst m) -> In (k, v) m -> In (k, v') m -> v = v'.
Proof.
  induction m as [|[k0 v0] m IH]; [contradiction|].
  cbn [map fst]. intros Hnd. inversion Hnd as [|? ? Hout Hnd']; subst.
  intros [H1|H1] [H2|H2].
  - congruence.
  - injection H1 as -> ->. exfalso. apply Hout.
    apply in_map_iff. now exists (k, v').
  - injection H2 as -> ->. exfalso. apply Hout.
    apply in_map_iff. now exists (k, v).
  - now apply IH.
Qed.

End ContributorFacts.

(** X12.  [analyzeContributors] never throws.  It returns the contributors
    of the lines of the shortlog output, each address once, ordered from
    the most commits to the fewest: every contributor has the address, the
    name and the count of a line of the form of the pattern, and every
    such line whose name is set off from the rest has a contributor with
    its address (with its name and count when no later line has the same
    address).  Counts, additions and deletions are numbers that are not
    negative, never NaN.  It runs the shortlog and then, for each address
    in the order of the map, the date query and the shortstat query. *)
Theorem analyzeContributors_result :
  forall (W : Type) (sh : Shell W) (st : state W),
    let shortlog := stdout (fst (sh_exec sh cmd_shortlog (world st))) in
    exists cs st',
      analyzeContributors sh st = (inr cs, st')
      /\ NoDup (map email cs)
      /\ StronglySorted by_commits_desc cs
      /\ (forall c,
            In c cs ->
            (exists v,
                set_by_line (split "010" shortlog) (email c) v
                /\ name c = name v /\ commits c = commits v)
            /\ counted c /\ totalled c)
      /\ (forall before after sp0 ds sp1 nm sp2 em sp3,
            split "010" shortlog
            = before
              ++ (sp0 ++ (ds ++ (sp1 ++ nm ++ sp2 ++ "<" :: em) ++ [">"])
                    ++ sp3)
                 :: after ->
            forallb is_space sp0 = true -> forallb is_space sp3 = true ->
            shortlog_fields ds sp1 nm sp2 em -> plain_name nm ->
            exists c,
              In c cs /\ email c = em
              /\ (no_line_of em after ->
                  name c = nm
                  /\ commits c = to_double (radix_value 10 digit_val ds)))
      /\ trace st'
         = trace st
           ++ EvExec cmd_shortlog
              :: flat_map author_queries (parseShortlog shortlog).
Proof.
  intros W sh st shortlog.
  pose proof (contributors_trace sh st) as Htrace.
  fold shortlog in Htrace. subst shortlog.
  destruct (sh_exec sh cmd_shortlog (world st)) as [r w] eqn:Hexec.
  cbn [fst] in *.
  destruct (mapM_authorDetails_returns sh (parseShortlog (stdout r))
              (mkState w (trace st ++ [EvExec cmd_shortlog])))
    as (detailed & st1 & E).
  assert (Hrun : analyzeContributors sh st
                 = (inr (sortByCommits detailed), st1)).
  { unfold analyzeContributors, bind at 1, shell_exec. rewrite Hexec.
    unfold bind. rewrite E. reflexivity. }
  rewrite Hrun in Htrace. cbn [snd] in Htrace.
  exists (sortByCommits detailed), st1. split; [exact Hrun|].
  apply ContributorFacts.mapM_authorDetails_details in E.
  pose proof (@ShortlogFacts.parseShortlog_NoDup (split "010" (stdout r)) []
                (NoDup_nil _)) as Hnd.
  fold (parseShortlog (stdout r)) in Hnd.
  assert (Hsound : forall k v,
             In (k, v) (parseShortlog (stdout r)) ->
             set_by_line (split "010" (stdout r)) k v).
  { unfold parseShortlog. apply ShortlogFacts.parseShortlog_sound.
    - apply incl_refl.
    - intros k v []. }
  pose proof (ContributorFacts.details_emails E) as Hemails.
  destruct (ContributorFacts.details_of_entry E) as [Hfrom Hto].
  pose proof (SortFacts.sortByCommits_perm detailed) as Hperm.
  assert (Hgood : forall c,
             In c detailed ->
             (exists v,
                 set_by_line (split "010" (stdout r)) (email c) v
                 /\ name c = name v /\ commits c = commits v)
             /\ counted c /\ totalled c).
  { intros c Hc.
    destruct (Hfrom c Hc) as ([k v] & Hentry & He & Hn & Hcount & Htot).
    cbn [fst snd] in *. apply Hsound in Hentry.
    split; [exists v; rewrite He; auto|]. split; [|exact Htot].
    destruct Hentry as (line & sp0 & ds & sp1 & nm & sp2 & _ & _ & _
                        & ([_ Hds] & _) & ->).
    unfold counted. rewrite Hcount.
    now apply ShortlogFacts.shortlog_entry_counted. }
  split; [|split; [|split; [|split]]].
  - apply (Permutation_NoDup (l := map fst (parseShortlog (stdout r)))).
    + rewrite <- Hemails. symmetry. now apply Permutation_map.
    + exact Hnd.
  - apply SortFacts.sortByCommits_sorted.
    apply Forall_forall. intros c Hc.
    destruct (Hgood c Hc) as (_ & Hcount & _).
    unfold counted in Hcount. intros Hnan. now rewrite Hnan in Hcount.
  - intros c Hc. apply Hgood.
    now apply (Permutation_in _ Hperm).
  - intros before after sp0 ds sp1 nm sp2 em sp3 Hlines H0 H3 Hf Hname.
    assert (Hentry : no_line_of em after ->
                     In (em, shortlog_entry ds nm em)
                        (parseShortlog (stdout r))).
    { intros Hno. unfold parseShortlog. rewrite Hlines, fold_left_app.
      cbn [fold_left]. rewrite addShortlogLine_taken by assumption.
      apply ShortlogFacts.parseShortlog_keeps_entry;
        [exact Hno | apply ShortlogFacts.map_set_self]. }
    assert (Hkey : In em (map fst (parseShortlog (stdout r)))).
    { unfold parseShortlog. rewrite Hlines, fold_left_app.
      cbn [fold_left]. rewrite addShortlogLine_taken by assumption.
      apply ShortlogFacts.parseShortlog_has_key.
      apply in_map_iff. exists (em, shortlog_entry ds nm em).
      split; [reflexivity | apply ShortlogFacts.map_set_self]. }
    apply in_map_iff in Hkey as ([k v] & Hk & Hin). cbn [fst] in Hk.
    subst k.
    destruct (Hto (em, v) Hin) as (c & Hc & He & Hn & Hcount & _).
    cbn [fst snd] in *.
    exists c. split; [apply Permutation_in with (l := detailed);
                      [now symmetry | exact Hc]|].
    split; [exact He|].
    intros Hno.
    assert (Hv : v = shortlog_entry ds nm em).
    { apply (@ContributorFacts.unique_value (parseShortlog (stdout r)) em
               v (shortlog_entry ds nm em) Hnd Hin).
      now apply Hentry. }
    subst v. split; [exact Hn | exact Hcount].
  - exact Htrace.
Qed.

Lemma analyzeContributors_result_witness :
  exists c,
    In c (match fst (analyzeContributors
                       (scripted_shell true demo_shortlog_script)
                       (mkState tt [])) with
          | inr cs => cs
          | inl _ => []
          end)
    /\ email c = lit "a@e.c" /\ name c = lit "Ann" /\ commits c = Num 3.
Proof.
  destruct (@analyzeContributors_result unit
              (scripted_shell true demo_shortlog_script) (mkState tt []))
    as (cs & st' & Hrun & _ & _ & _ & Hlines & _).
  destruct (Hlines [] [lit "     1" ++ "009" :: lit "Bob <b@e.c>"]
              (lit "     ") (lit "3") ["009"] (lit "Ann") (lit " ")
              (lit "a@e.c") []) as (c & Hc & He & Hrest).
  - vm_compute. reflexivity.
  - reflexivity.
  - reflexivity.
  - unfold shortlog_fields. repeat split; try reflexivity; discriminate.
  - unfold plain_name. split; [reflexivity|]. split; [reflexivity|].
    simpl. intuition discriminate.
  - exists c. rewrite Hrun. cbn [fst]. split; [exact Hc|].
    split; [exact He|]. apply Hrest.
    intros line pre [<-|[]] H. vm_compute in H.
    apply (f_equal (@rev ascii)) in H. rewrite rev_app_distr in H.
    simpl in H. discriminate H.
Defined.

(* ================================================================== *)
(** ** The batch coordinator: directory, concurrency, chunks *)

Section RestoreCwd.

Variable W : Type.
Variable sh : Shell W.
Variable cwd : str.

Lemma run_one_restores (a : RepositoryAnalyzer) (st : state W) :
  exists t w,
    snd (run_one sh cwd a st) = mkState (sh_cd sh cwd w) (t ++ [EvCd cwd]).
Proof.
  unfold run_one.
  destruct (cloneAndAnalyze sh a st) as [[e|r] st1]; cbn [snd];
    unfold shell_cd, console_error_failure; cbn [snd world trace]; eauto.
Qed.

Lemma run_each_restores (analyzers : list RepositoryAnalyzer) :
  forall st,
    analyzers <> [] ->
    exists t w,
      snd (run_each sh cwd analyzers st)
      = mkState (sh_cd sh cwd w) (t ++ [EvCd cwd]).
Proof.
  induction analyzers as [|a more IH]; intros st Hne; [congruence|].
  cbn [run_each].
  pose proof (run_one_restores a st) as H1.
  destruct (run_one sh cwd a st) as [r st1]. cbn [snd] in H1.
  destruct more as [|b more].
  - cbn [run_each snd]. exact H1.
  - specialize (IH st1 ltac:(discriminate)).
    destruct (run_each sh cwd (b :: more) st1) as [rs st2].
    cbn [snd] in *. exact IH.
Qed.

End RestoreCwd.

(** X13.  In sequential mode the coordinator goes back to the original
    directory after each repository, whether its analysis succeeded or
    failed: the state in which a repository leaves the shell, and the one
    in which [analyzeAll] over a list that is not empty ends, is the result
    of a [cd] to that directory, and that [cd] is the last thing done.  The
    results are never more than the repositories. *)
Theorem analyzeAll_restores_directory :
  forall (W : Type) (sh : Shell W) (cwd : str),
    (forall a st, exists t w,
        snd (run_one sh cwd a st) = mkState (sh_cd sh cwd w) (t ++ [EvCd cwd]))
    /\ (forall analyzers st,
          analyzers <> [] ->
          exists results t w,
            analyzeAll sh cwd analyzers st
            = (inr results, mkState (sh_cd sh cwd w) (t ++ [EvCd cwd]))
            /\ length results <= length analyzers).
Proof.
  intros W sh cwd. split; [apply run_one_restores|].
  intros analyzers st Hne. unfold analyzeAll.
  rewrite analyzeAll_loop_run_each.
  destruct (run_each_restores sh cwd st Hne) as (t & w & ->).
  eexists _, t, w. split; [reflexivity|].
  cbn [app]. rewrite <- (run_each_length sh cwd analyzers st).
  generalize (fst (run_each sh cwd analyzers st)). clear.
  induction l as [|[e|x] l IH]; simpl; lia.
Qed.

Lemma analyzeAll_restores_directory_witness :
  exists results t w,
    analyzeAll (scripted_shell false demo_failing_script) (lit "/work")
      [demo_analyzer "o" "r"] (mkState tt [])
    = (inr results, mkState w (t ++ [EvCd (lit "/work")])).
Proof.
  destruct (proj2 (@analyzeAll_restores_directory unit
                     (scripted_shell false demo_failing_script) (lit "/work"))
              [demo_analyzer "o" "r"] (mkState tt []))
    as (results & t & w & H & _).
  - discriminate.
  - exists results, t, (sh_cd (scripted_shell false demo_failing_script)
                          (lit "/work") w).
    exact H.
Defined.

Section ChunkCount.

Variable A : Type.
Variable analyzers : list A.
Variable concurrency : nat.
Hypothesis concurrency_pos : 1 <= concurrency.

Lemma chunks_after (i : nat) :
  i < length analyzers ->
  (length analyzers - i + concurrency - 1) / concurrency
  = S ((length analyzers - (i + concurrency) + concurrency - 1) / concurrency).
Proof.
  intros Hi.
  replace (length analyzers - i + concurrency - 1)
    with (length analyzers - i - 1 + 1 * concurrency) by lia.
  rewrite Nat.div_add by lia.
  destruct (Nat.le_gt_cases concurrency (length analyzers - i)) as [Hge|Hlt].
  - replace (length analyzers - (i + concurrency) + concurrency - 1)
      with (length analyzers - i - 1) by lia. lia.
  - replace (length analyzers - (i + concurrency) + concurrency - 1)
      with (concurrency - 1) by lia.
    rewrite !Nat.div_small by lia. reflexivity.
Qed.

Lemma chunk_loop_count (fuel : nat) :
  forall i chunks r,
    chunk_loop fuel i concurrency analyzers chunks = Some r ->
    length r
    = length chunks
      + (length analyzers - i + concurrency - 1) / concurrency.
Proof.
  induction fuel as [|fuel IH]; intros i chunks r Hrun; [discriminate|].
  cbn [chunk_loop] in Hrun.
  destruct (i <? length analyzers)%nat eqn:Hi.
  - apply Nat.ltb_lt in Hi. apply IH in Hrun.
    rewrite Hrun, length_app, (chunks_after Hi). simpl. lia.
  - apply Nat.ltb_ge in Hi. injection Hrun as <-.
    replace (length analyzers - i + concurrency - 1) with (concurrency - 1)
      by lia.
    rewrite Nat.div_small by lia. lia.
Qed.

End ChunkCount.

(** X15.  For a concurrency of at least 1 the chunk-splitting loop ends
    and makes the number of repositories divided by the concurrency,
    rounded up, chunks: none for no repository, and one chunk when the
    concurrency is at least the number of repositories. *)
Theorem chunk_loop_count_chunks :
  forall (A : Type) (analyzers : list A) (concurrency fuel : nat),
    1 <= concurrency -> length analyzers < fuel ->
    exists chunks,
      chunk_loop fuel 0 concurrency analyzers [] = Some chunks
      /\ length chunks = (length analyzers + concurrency - 1) / concurrency
      /\ (analyzers <> [] -> length analyzers <= concurrency ->
          chunks = [analyzers]).
Proof.
  intros A analyzers concurrency fuel Hpos Hfuel.
  destruct (@chunk_loop_runs A analyzers concurrency Hpos fuel 0 [])
    as (chunks & Hrun & Htl); [lia | lia |].
  cbn [app] in Hrun. exists chunks. split; [exact Hrun|].
  pose proof (@chunk_loop_count A analyzers concurrency Hpos fuel 0 [] chunks
                Hrun) as Hlen.
  rewrite Nat.sub_0_r in Hlen. cbn [length Nat.add] in Hlen.
  split; [exact Hlen|].
  intros Hne Hle.
  assert (Hone : length chunks = 1).
  { rewrite Hlen.
    replace (length analyzers + concurrency - 1)
      with (length analyzers - 1 + 1 * concurrency) by
      (destruct analyzers; [congruence | simpl; lia]).
    rewrite Nat.div_add by lia.
    rewrite Nat.div_small; [reflexivity|].
    destruct analyzers; [congruence | simpl in *; lia]. }
  destruct chunks as [|c [|c' more]]; try discriminate Hone.
  pose proof (cf_concat Htl) as Hcat. cbn [concat skipn] in Hcat.
  rewrite app_nil_r in Hcat. now subst c.
Qed.

Lemma chunk_loop_count_chunks_witness :
  exists chunks,
    chunk_loop 6 0 2 [1; 2; 3; 4; 5] [] = Some chunks
    /\ length chunks = (length [1; 2; 3; 4; 5] + 2 - 1) / 2.
Proof.
  destruct (@chunk_loop_count_chunks nat [1; 2; 3; 4; 5] 2 6
              (le_S 1 1 (le_n 1)) (le_n 6)) as (chunks & Hrun & Hlen & _).
  exists chunks. split; [exact Hrun | exact Hlen].
Defined.

(* ================================================================== *)
(** ** The constructors *)

Section ConstructionFacts.

Variable path_join : list str -> str.
Variable cwd : str.
Variable gitInstalled : bool.

Lemma newRepositoryAnalyzer_ok (url tempDir : str) (a : RepositoryAnalyzer) :
  newRepositoryAnalyzer path_join cwd gitInstalled url tempDir = inr a ->
  gitInstalled = true
  /\ repoUrl a = url
  /\ exists owner repo,
       parseGitUrl url = inr (mkUrlParts (Some owner) (Some repo))
       /\ urlParts a = mkUrlParts (Some owner) (Some repo)
       /\ repoPath a = path_join [cwd; tempDir; owner; repo]
       /\ owner <> [] /\ repo <> []
       /\ ~ In "/" owner /\ ~ In "/" repo.
Proof.
  unfold newRepositoryAnalyzer.
  destruct (parseGitUrl url) as [e|parts] eqn:Hparse; [discriminate|].
  destruct (@parse_sound url parts Hparse)
    as (pre & sep & owner & repo & g & _ & _ & _ & -> & Hrest).
  cbn [username repoName].
  destruct gitInstalled; [|discriminate].
  intros H. injection H as <-. cbn [repoUrl urlParts repoPath].
  split; [reflexivity|]. split; [reflexivity|].
  exists owner, repo. auto.
Qed.

Lemma newRepositoryAnalyzer_fails (url tempDir : str) (e : construction_error) :
  newRepositoryAnalyzer path_join cwd gitInstalled url tempDir = inl e ->
  (e = UrlError (UnableToParse url) /\ exists e', parseGitUrl url = inl e')
  \/ (e = GitRequired /\ gitInstalled = false
      /\ exists parts, parseGitUrl url = inr parts).
Proof.
  unfold newRepositoryAnalyzer.
  destruct (parseGitUrl url) as [e'|parts] eqn:Hparse.
  - intros H. injection H as <-. left. split; [|eauto].
    unfold parseGitUrl in Hparse.
    destruct (exec 3 https_re url); [discriminate|].
    destruct (exec 3 ssh_re url); [discriminate|]. congruence.
  - destruct (@parse_sound url parts Hparse)
      as (pre & sep & owner & repo & g & _ & _ & _ & -> & _).
    cbn [username repoName].
    destruct gitInstalled; [discriminate|].
    intros H. injection H as <-. right. eauto.
Qed.

Lemma newMultiRepoAnalyzer_ok (tempDir : str) (repoUrls : list str) :
  forall analyzers,
    newMultiRepoAnalyzer path_join cwd gitInstalled repoUrls tempDir
      = inr analyzers
    <-> Forall2 (fun url a =>
                   newRepositoryAnalyzer path_join cwd gitInstalled url tempDir
                   = inr a)
          repoUrls analyzers.
Proof.
  induction repoUrls as [|url more IH]; intros analyzers; cbn.
  - split.
    + intros H. injection H as <-. constructor.
    + intros H. inversion H. reflexivity.
  - destruct (newRepositoryAnalyzer path_join cwd gitInstalled url tempDir)
      as [e|a] eqn:E.
    + split; [discriminate|]. intros H. inversion H; subst. congruence.
    + destruct (newMultiRepoAnalyzer path_join cwd gitInstalled more tempDir)
        as [e|rest] eqn:E'.
      * split; [discriminate|]. intros H. inversion H as [|? b ? l' Hb Hl];
          subst. apply IH in Hl. discriminate.
      * split.
        -- intros H. injection H as <-. constructor; [exact E|].
           now apply IH.
        -- intros H. inversion H as [|? b ? l' Hb Hl]; subst.
           apply IH in Hl. congruence.
Qed.

Lemma newMultiRepoAnalyzer_fails (tempDir : str) (repoUrls : list str) :
  forall e,
    newMultiRepoAnalyzer path_join cwd gitInstalled repoUrls tempDir = inl e ->
    exists before url rest built,
      repoUrls = before ++ url :: rest
      /\ newMultiRepoAnalyzer path_join cwd gitInstalled before tempDir
         = inr built
      /\ newRepositoryAnalyzer path_join cwd gitInstalled url tempDir = inl e.
Proof.
  induction repoUrls as [|url more IH]; intros e; cbn; [discriminate|].
  destruct (newRepositoryAnalyzer path_join cwd gitInstalled url tempDir)
    as [e0|a] eqn:E.
  - intros H. injection H as <-. exists [], url, more, []. auto.
  - destruct (newMultiRepoAnalyzer path_join cwd gitInstalled more tempDir)
      as [e1|rest] eqn:E'; [|discriminate].
    intros H. injection H as <-.
    destruct (IH e1 eq_refl) as (before & u & post & built & -> & Hb & Hu).
    exists (url :: before), u, post, (a :: built).
    cbn. rewrite E, Hb. auto.
Qed.

End ConstructionFacts.

(** X16.  The constructor of [RepositoryAnalyzer] succeeds exactly when the
    URL parses and git is found; the analyzer then has an owner and a
    repository name that are defined, not empty and without a slash, and
    its working copy is at the join of the current directory, the temporary
    directory, the owner and the name.  A URL that does not parse is
    reported before the missing git, and [path.join] never receives an
    undefined segment. *)
Theorem newRepositoryAnalyzer_result :
  forall (path_join : list str -> str) (cwd : str) (gitInstalled : bool)
         (url tempDir : str),
    match newRepositoryAnalyzer path_join cwd gitInstalled url tempDir with
    | inr a =>
        gitInstalled = true /\ repoUrl a = url
        /\ exists owner repo,
             parseGitUrl url = inr (mkUrlParts (Some owner) (Some repo))
             /\ getRepositoryInfo a
                = mkRepositoryInfo (Some owner) (Some repo)
                    (path_join [cwd; tempDir; owner; repo])
             /\ owner <> [] /\ repo <> []
             /\ ~ In "/" owner /\ ~ In "/" repo
    | inl (UrlError e) =>
        e = UnableToParse url /\ parseGitUrl url = inl e
    | inl GitRequired =>
        gitInstalled = false /\ exists parts, parseGitUrl url = inr parts
    | inl PathArgument => False
    end.
Proof.
  intros path_join cwd gitInstalled url tempDir.
  destruct (newRepositoryAnalyzer path_join cwd gitInstalled url tempDir)
    as [e|a] eqn:E.
  - apply newRepositoryAnalyzer_fails in E
      as [[-> [e' He]]|(-> & Hgit & Hparts)].
    + split; [reflexivity|]. rewrite He. f_equal.
      unfold parseGitUrl in He.
      destruct (exec 3 https_re url); [discriminate|].
      destruct (exec 3 ssh_re url); [discriminate|]. congruence.
    + auto.
  - apply newRepositoryAnalyzer_ok in E
      as (Hgit & Hurl & owner & repo & Hparse & Hparts & Hpath & Hrest).
    split; [exact Hgit|]. split; [exact Hurl|].
    exists owner, repo. split; [exact Hparse|].
    unfold getRepositoryInfo. rewrite Hparts, Hpath.
    split; [reflexivity | exact Hrest].
Qed.

(** X17.  The three ways of writing a repository of github.com (see C2)
    give analyzers with the same owner, name and working-copy path: they
    share one local directory. *)
Theorem equivalent_urls_share_working_copy :
  forall (path_join : list str -> str) (cwd tempDir owner repo : str),
    owner <> [] -> repo <> [] ->
    ~ In "/" owner -> ~ In "/" repo ->
    (forall pre, pre <> [] -> repo <> pre ++ lit ".git") ->
    let info :=
      mkRepositoryInfo (Some owner) (Some repo)
        (path_join [cwd; tempDir; owner; repo]) in
    forall url,
      In url [lit "https://github.com/" ++ owner ++ lit "/" ++ repo;
              lit "https://github.com/" ++ owner ++ lit "/" ++ repo
                ++ lit ".git";
              lit "git@github.com:" ++ owner ++ lit "/" ++ repo
                ++ lit ".git"] ->
      exists a,
        newRepositoryAnalyzer path_join cwd true url tempDir = inr a
        /\ repoUrl a = url /\ getRepositoryInfo a = info.
Proof.
  intros path_join cwd tempDir owner repo Ho Hr Hos Hrs Hgit info url Hin.
  assert (Hparse : parseGitUrl url
                   = inr (mkUrlParts (Some owner) (Some repo))).
  { destruct Hin as [<-|[<-|[<-|[]]]].
    - now apply parse_https_plain.
    - now apply parse_https_git.
    - now apply parse_ssh_git. }
  unfold newRepositoryAnalyzer. rewrite Hparse. cbn [username repoName].
  eexists. split; [reflexivity|]. split; reflexivity.
Qed.

Lemma equivalent_urls_share_working_copy_witness :
  exists a,
    newRepositoryAnalyzer demo_path_join (lit "/work") true
      (lit "git@github.com:" ++ lit "o" ++ lit "/" ++ lit "r" ++ lit ".git")
      (lit "temp") = inr a
    /\ fullPath (getRepositoryInfo a) = lit "/work/temp/o/r".
Proof.
  destruct (@equivalent_urls_share_working_copy demo_path_join (lit "/work")
              (lit "temp") (lit "o") (lit "r"))
    with (url := lit "git@github.com:" ++ lit "o" ++ lit "/" ++ lit "r"
                   ++ lit ".git")
    as (a & Ha & _ & Hinfo); try discriminate.
  - simpl. intuition discriminate.
  - simpl. intuition discriminate.
  - intros pre _ H. apply (f_equal (@length ascii)) in H.
    rewrite length_app in H. simpl in H. lia.
  - simpl. tauto.
  - exists a. split; [exact Ha|]. now rewrite Hinfo.
Defined.

(** X18.  The constructor of [MultiRepoAnalyzer] builds one analyzer per
    URL, in order, or throws what the first URL that cannot be constructed
    throws; no analyzer is returned then, so nothing is analyzed. *)
Theorem newMultiRepoAnalyzer_result :
  forall (path_join : list str -> str) (cwd : str) (gitInstalled : bool)
         (repoUrls : list str) (tempDir : str),
    match newMultiRepoAnalyzer path_join cwd gitInstalled repoUrls tempDir with
    | inr analyzers =>
        Forall2 (fun url a =>
                   newRepositoryAnalyzer path_join cwd gitInstalled url
                     tempDir = inr a)
          repoUrls analyzers
        /\ map repoUrl analyzers = repoUrls
        /\ length (getRepositoriesInfo analyzers) = length repoUrls
    | inl e =>
        exists before url rest built,
          repoUrls = before ++ url :: rest
          /\ newMultiRepoAnalyzer path_join cwd gitInstalled before tempDir
             = inr built
          /\ newRepositoryAnalyzer path_join cwd gitInstalled url tempDir
             = inl e
    end.
Proof.
  intros path_join cwd gitInstalled repoUrls tempDir.
  destruct (newMultiRepoAnalyzer path_join cwd gitInstalled repoUrls tempDir)
    as [e|analyzers] eqn:E.
  - now apply newMultiRepoAnalyzer_fails in E.
  - apply newMultiRepoAnalyzer_ok in E. split; [exact E|].
    unfold getRepositoriesInfo. rewrite length_map.
    induction E as [|url a urls l Ha _ [IH1 IH2]]; [auto|].
    apply newRepositoryAnalyzer_ok in Ha as (_ & Hurl & _).
    cbn. now rewrite Hurl, IH1, IH2.
Qed.

(* ================================================================== *)
(** ** A working copy of the same repository is kept *)

Lemma normalize_github_form (path f : str) :
  path <> [] ->
  is_space (last path "x") = false ->
  ~ In "@" path ->
  (forall pre, path <> pre ++ lit ".git") ->
  In f (github_forms path) ->
  normalizeGitUrl f = lit "https://github.com/" ++ path.
Proof.
  intros Hne Hend Hat Hgit Hin.
  destruct Hin as [<-|[<-|[<-|[<-|[]]]]].
  - now apply normalize_https_plain.
  - now apply normalize_https_git.
  - now apply normalize_ssh_plain.
  - apply normalize_ssh_git.
Qed.

Lemma trim_github_form (path f : str) :
  path <> [] ->
  is_space (last path "x") = false ->
  In f (github_forms path) ->
  trim f = f.
Proof.
  intros Hne Hend Hin.
  assert (Hgit : last (path ++ lit ".git") "x" = "t").
  { change (lit ".git") with (lit ".gi" ++ ["t"]).
    rewrite app_assoc. apply last_last. }
  destruct Hin as [<-|[<-|[<-|[<-|[]]]]].
  - apply (@NormalizeMore.trim_clean "h" (lit "ttps://github.com/" ++ path));
      [reflexivity|]. now rewrite (@last_of_app path Hne _ "h" "x").
  - apply (@NormalizeMore.trim_clean "h"
             (lit "ttps://github.com/" ++ path ++ lit ".git"));
      [reflexivity|].
    rewrite (@last_of_app (path ++ lit ".git")) with (d' := "x").
    + now rewrite Hgit.
    + intros H. now apply app_eq_nil in H as [_ H].
  - apply (@NormalizeMore.trim_clean "g" (lit "it@github.com:" ++ path));
      [reflexivity|]. now rewrite (@last_of_app path Hne _ "g" "x").
  - apply (@NormalizeMore.trim_clean "g"
             (lit "it@github.com:" ++ path ++ lit ".git"));
      [reflexivity|].
    rewrite (@last_of_app (path ++ lit ".git")) with (d' := "x").
    + now rewrite Hgit.
    + intros H. now apply app_eq_nil in H as [_ H].
Qed.

Lemma normalize_printed_form (path f w1 w2 : str) :
  path <> [] ->
  is_space (last path "x") = false ->
  ~ In "@" path ->
  (forall pre, path <> pre ++ lit ".git") ->
  In f (github_forms path) ->
  forallb is_space w1 = true -> forallb is_space w2 = true ->
  normalizeGitUrl (trim (w1 ++ f ++ w2)) = lit "https://github.com/" ++ path.
Proof.
  intros Hne Hend Hat Hgit Hin H1 H2.
  rewrite NormalizeMore.trim_spaces by assumption.
  rewrite (@trim_github_form path f Hne Hend Hin).
  now apply normalize_github_form.
Qed.

(** X19.  A working copy whose remote is the analyzer's repository, written
    in any of the four forms and printed with white space around it (the
    newline of [git remote get-url origin]), is updated in place: after
    [mkdir -p], [cd] and the query of the remote, [cloneRepo] goes on as
    the update does, and it neither removes the directory nor clones. *)
Theorem same_repository_is_updated_in_place :
  forall (W : Type) (sh : Shell W) (self : RepositoryAnalyzer) (w : W)
         (path printed w1 w2 : str),
    path <> [] ->
    is_space (last path "x") = false ->
    ~ In "@" path ->
    (forall pre, path <> pre ++ lit ".git") ->
    In (repoUrl self) (github_forms path) ->
    In printed (github_forms path) ->
    forallb is_space w1 = true -> forallb is_space w2 = true ->
    let p := repoPath self in
    let dir := path_dirname sh p in
    let ws := sh_mkdir_p sh dir w in
    let current := sh_exec sh cmd_get_url (sh_cd sh p ws) in
    fs_existsSync sh p ws = true ->
    fs_existsSync sh (p ++ lit "/.git") ws = true ->
    code (fst current) = 0%Z ->
    stdout (fst current) = w1 ++ printed ++ w2 ->
    cloneRepo sh self (mkState w [])
    = updateExisting sh
        (mkState (snd current) [EvMkdir dir; EvCd p; EvExec cmd_get_url])
    /\ (forall x,
          ~ In (EvRm x) (trace (snd (cloneRepo sh self (mkState w [])))))
    /\ (forall url target,
          ~ In (EvExec (cmd_clone url target))
               (trace (snd (cloneRepo sh self (mkState w []))))).
Proof.
  intros W sh self w path printed w1 w2 Hne Hend Hat Hgit Hself Hprinted
         H1 H2 p dir ws current Hdir Hdotgit Hcode Hout.
  assert (Hsame :
            str_eqb (normalizeGitUrl (trim (stdout (fst current))))
                    (normalizeGitUrl (repoUrl self)) = true).
  { rewrite Hout.
    rewrite (@normalize_printed_form path printed w1 w2) by assumption.
    rewrite (@normalize_github_form path (repoUrl self)) by assumption.
    now apply str_eqb_eq. }
  destruct (@cloneRepo_destructive_cases W sh self w) as [Hrm Hclone].
  fold p in Hrm, Hclone. fold dir in Hrm, Hclone. fold ws in Hrm, Hclone.
  fold current in Hrm, Hclone.
  rewrite Hcode in Hrm, Hclone. cbn [Z.eqb] in Hrm, Hclone.
  rewrite Hsame, Hdir, Hdotgit in Hrm, Hclone.
  split; [|split].
  - unfold cloneRepo, isValidGitRepo, getCurrentRemoteUrl, shell_mkdir_p,
      shell_cd, shell_exec, existsSync, bind, ret.
    cbn [world trace app]. fold p. fold dir. fold ws. rewrite Hdir.
    cbn [world trace app]. rewrite Hdotgit.
    cbn [world trace app]. fold current.
    destruct current as [r w3] eqn:Ecur. cbn [fst snd] in *.
    rewrite Hcode. cbn [Z.eqb]. rewrite Hsame. reflexivity.
  - intros x Hin. apply Hrm in Hin as (_ & _ & Hd). discriminate.
  - intros url target Hin. apply Hclone in Hin as [Hv|Hd]; discriminate.
Qed.

Lemma same_repository_is_updated_in_place_witness :
  cloneRepo (scripted_shell true demo_ssh_remote_script)
    (demo_analyzer "o" "r") (mkState tt [])
  = updateExisting (scripted_shell true demo_ssh_remote_script)
      (mkState tt
         [EvMkdir (lit "/work/temp/o/r/.."); EvCd (lit "/work/temp/o/r");
          EvExec cmd_get_url]).
Proof.
  refine (proj1 (@same_repository_is_updated_in_place unit
                   (scripted_shell true demo_ssh_remote_script)
                   (demo_analyzer "o" "r") tt (lit "o/r")
                   (lit "git@github.com:o/r.git") [] ["010"]
                   _ _ _ _ _ _ _ _ _ _ _ _)).
  - discriminate.
  - reflexivity.
  - simpl. intuition discriminate.
  - intros pre H. apply (f_equal (@rev ascii)) in H.
    rewrite rev_app_distr in H. simpl in H. discriminate.
  - simpl. tauto.
  - simpl. tauto.
  - reflexivity.
  - reflexivity.
  - reflexivity.
  - reflexivity.
  - reflexivity.
  - reflexivity.
Defined.

(* ================================================================== *)
(** ** [cloneRepo]: the characters of the branch name *)

(** X20.  The branch check rejects exactly the empty string and the strings
    with a character other than a letter, a digit, [_], [.] and [-]; so
    the name in every [git reset --hard origin/<name>] that [cloneRepo]
    runs is not empty and made of these characters only: it has no white
    space, slash, quote or shell operator. *)
Theorem reset_branch_characters :
  forall (W : Type) (sh : Shell W) (self : RepositoryAnalyzer) (w : W),
    (forall b,
        invalid_branch b = false
        <-> b <> [] /\ forallb branch_char b = true)
    /\ (forall b,
          In (EvExec (cmd_reset b))
             (trace (snd (cloneRepo sh self (mkState w [])))) ->
          b <> [] /\ forall c, In c b -> branch_char c = true).
Proof.
  intros W sh self w. split.
  - intros b. rewrite invalid_branch_test, negb_false_iff.
    apply branch_re_test.
  - intros b Hin.
    assert (Htest : test 0 branch_re b = true).
    { apply (@keeps_cloneRepo W sh self (mkState w [])); [|exact Hin].
      intros b' []. }
    apply branch_re_test in Htest as [Hne Hall].
    split; [exact Hne|]. now apply forallb_forall.
Qed.

Lemma reset_branch_characters_witness :
  lit "main" <> [] /\ branch_char "m" = true.
Proof.
  destruct (proj2 (@reset_branch_characters unit
                     (scripted_shell true demo_update_script)
                     (demo_analyzer "o" "r") tt)
              (lit "main")) as [Hne Hall].
  - vm_compute. tauto.
  - split; [exact Hne|]. apply Hall. now left.
Defined.

(* ================================================================== *)
(** ** [cloneRepo]: a working copy whose remote cannot be read *)

Module NormalizeNonEmpty.
Import NormalizeFacts NormalizeMore.

Lemma trimStart_keeps (c : ascii) (s : str) :
  is_space c = false -> In c s -> In c (trimStart s).
Proof.
  intros Hc. induction s as [|a s IH]; [auto|].
  intros Hin. cbn [trimStart]. destruct (is_space a) eqn:Ha; [|exact Hin].
  destruct Hin as [->|Hin]; [congruence | auto].
Qed.

Lemma trim_keeps (c : ascii) (s : str) :
  is_space c = false -> In c s -> In c (trim s).
Proof.
  intros Hc Hin. unfold trim, trimEnd.
  apply in_rev. rewrite rev_involutive.
  apply trimStart_keeps; [exact Hc|]. apply in_rev. rewrite rev_involutive.
  now apply trimStart_keeps.
Qed.

Lemma strip_keeps (t : str) :
  In "h" t -> In "h" (replace 0 dot_git_re [] t).
Proof.
  intros Hin.
  destruct (list_eq_dec ascii_dec (skipn (length t - 4) t) (lit ".git"))
    as [Hyes|Hno].
  - assert (Ht : t = firstn (length t - 4) t ++ lit ".git")
      by (now rewrite <- Hyes, firstn_skipn).
    rewrite Ht in Hin |- *. rewrite strip_dot_git.
    apply in_app_or in Hin as [Hin|Hin]; [exact Hin|].
    simpl in Hin. intuition discriminate.
  - rewrite strip_without_git; [exact Hin|].
    intros pre Heq. apply Hno. rewrite Heq, length_app.
    replace (length pre + length (lit ".git") - 4) with (length pre)
      by (cbn [lit list_ascii_of_string length]; lia).
    apply skipn_exact.
Qed.

Lemma replace_str_nonempty (pat rep s : str) :
  rep <> [] -> s <> [] -> replace_str pat rep s <> [].
Proof.
  intros Hrep Hs. destruct s as [|a s]; [congruence|].
  cbn [replace_str]. destruct (is_prefix pat (a :: s)); [|discriminate].
  destruct rep; [congruence | discriminate].
Qed.

Lemma normalize_nonempty (url : str) :
  In "h" url -> normalizeGitUrl url <> [].
Proof.
  intros Hin. unfold normalizeGitUrl. apply replace_str_nonempty.
  - discriminate.
  - apply (@trim_keeps "h" url eq_refl), strip_keeps in Hin.
    intros H. rewrite H in Hin. contradiction.
Qed.

End NormalizeNonEmpty.

(** X22.  A working copy whose remote cannot be read
    ([git remote get-url origin] fails, as without an [origin]) is treated
    as a clone of another repository: whatever URL the analyzer was built
    from, the directory is removed and the repository cloned afresh. *)
Theorem unreadable_remote_reclones :
  forall (W : Type) (sh : Shell W) (self : RepositoryAnalyzer) (w : W)
         (parts : UrlParts),
    parseGitUrl (repoUrl self) = inr parts ->
    let p := repoPath self in
    let d := path_dirname sh p in
    let w1 := sh_mkdir_p sh d w in
    let current := sh_exec sh cmd_get_url (sh_cd sh p w1) in
    fs_existsSync sh p w1 = true ->
    fs_existsSync sh (p ++ lit "/.git") w1 = true ->
    code (fst current) <> 0%Z ->
    cloneRepo sh self (mkState w [])
    = performFreshClone sh self
        (mkState (sh_rm_rf sh p (snd current))
                 [EvMkdir d; EvCd p; EvExec cmd_get_url; EvRm p]).
Proof.
  intros W sh self w parts Hparse p d w1 current Hdir Hgit Hcode.
  assert (Hdiff : str_eqb (normalizeGitUrl [])
                    (normalizeGitUrl (repoUrl self)) = false).
  { apply str_eqb_neq. intros Heq. symmetry in Heq. revert Heq.
    change (normalizeGitUrl []) with (@nil ascii).
    apply NormalizeNonEmpty.normalize_nonempty.
    destruct (@parse_sound (repoUrl self) parts Hparse)
      as (pre & sep & owner & repo & g & -> & _).
    apply in_or_app. right. apply in_or_app. left.
    simpl. tauto. }
  apply Z.eqb_neq in Hcode.
  unfold cloneRepo, isValidGitRepo, getCurrentRemoteUrl, shell_mkdir_p,
    shell_cd, shell_exec, shell_rm_rf, existsSync, bind, ret.
  cbn [world trace app]. fold p. fold d. fold w1. rewrite Hdir.
  cbn [world trace app]. rewrite Hgit.
  cbn [world trace app]. fold current.
  destruct current as [r w3] eqn:Ecur. cbn [fst snd] in *.
  rewrite Hcode, Hdiff. reflexivity.
Qed.

Lemma unreadable_remote_reclones_witness :
  cloneRepo (scripted_shell true demo_failing_script) (demo_analyzer "o" "r")
    (mkState tt [])
  = performFreshClone (scripted_shell true demo_failing_script)
      (demo_analyzer "o" "r")
      (mkState tt
         [EvMkdir (lit "/work/temp/o/r/.."); EvCd (lit "/work/temp/o/r");
          EvExec cmd_get_url; EvRm (lit "/work/temp/o/r")]).
Proof.
  apply (@unreadable_remote_reclones unit
           (scripted_shell true demo_failing_script) (demo_analyzer "o" "r")
           tt (mkUrlParts (Some (lit "o")) (Some (lit "r")))).
  - vm_compute. reflexivity.
  - reflexivity.
  - reflexivity.
  - vm_compute. discriminate.
Defined.

(* ================================================================== *)
(** ** [cloneAndAnalyze]: commands that fail *)

Section FatalCommands.

Variable W : Type.
Variable sh : Shell W.

Lemma world_after_app (t1 t2 : list event) (w : W) :
  world_after sh w (t1 ++ t2) = world_after sh (world_after sh w t1) t2.
Proof. unfold world_after. apply fold_left_app. Qed.

Lemma fatal_ok_app (t1 t2 : list event) :
  forall w,
    fatal_ok sh w (t1 ++ t2)
    <-> fatal_ok sh w t1 /\ fatal_ok sh (world_after sh w t1) t2.
Proof.
  induction t1 as [|ev t1 IH]; intros w; cbn [app fatal_ok].
  - unfold world_after. cbn [fold_left]. tauto.
  - rewrite IH. unfold world_after. cbn [fold_left]. tauto.
Qed.

(** The history queries are not among the commands whose failure is
    fatal. *)
Lemma fatal_ok_queries (t : list event) :
  Forall (fun ev => match ev with
                    | EvExec cmd => fatal_if_failed cmd = false
                    | _ => True
                    end) t ->
  forall w, fatal_ok sh w t.
Proof.
  induction 1 as [|ev t Hev _ IH]; intros w; cbn [fatal_ok]; [exact I|].
  split; [|apply IH].
  destruct ev; try exact I. intros H. congruence.
Qed.

Lemma author_queries_not_fatal (entries : list (str * ContributorStats)) :
  Forall (fun ev => match ev with
                    | EvExec cmd => fatal_if_failed cmd = false
                    | _ => True
                    end) (flat_map author_queries entries).
Proof.
  induction entries as [|[k v] entries IH]; cbn [flat_map]; [constructor|].
  apply Forall_app. split; [|exact IH].
  unfold author_queries. cbn [fst].
  repeat constructor.
Qed.

(** The trace of the history queries tells the world they leave. *)
Lemma authorDetails_world (entry : str * ContributorStats) (st : state W) :
  world (snd (authorDetails sh entry st))
  = world_after sh (world st) (author_queries entry).
Proof.
  destruct entry as [k stats].
  unfold authorDetails, author_queries, bind, shell_exec, ret, world_after.
  cbn [fst fold_left world_step].
  destruct (sh_exec sh (cmd_author_dates k) (world st)) as [r1 w1].
  destruct (split "010" (stdout r1)); cbn [world trace snd];
    destruct (sh_exec sh (cmd_author_stats k) w1) as [r2 w2];
    reflexivity.
Qed.

Lemma mapM_authorDetails_world (l : list (str * ContributorStats)) :
  forall st,
    world (snd (mapM (authorDetails sh) l st))
    = world_after sh (world st) (flat_map author_queries l).
Proof.
  induction l as [|entry l IH]; intros st; [reflexivity|].
  cbn [mapM flat_map]. unfold bind at 1.
  pose proof (authorDetails_world entry st) as H1.
  destruct (authorDetails_returns sh entry st) as (c & st1 & E).
  rewrite E in *. cbn [snd] in H1. unfold bind at 1.
  pose proof (IH st1) as H2.
  destruct (mapM_authorDetails_returns sh l st1) as (cs & st2 & E2).
  rewrite E2 in *. cbn [snd] in H2. unfold ret. cbn [snd].
  now rewrite H2, H1, world_after_app.
Qed.

Lemma contributors_world (st : state W) :
  world (snd (analyzeContributors sh st))
  = world_after sh (world st)
      (EvExec cmd_shortlog
       :: flat_map author_queries
            (parseShortlog
               (stdout (fst (sh_exec sh cmd_shortlog (world st)))))).
Proof.
  unfold analyzeContributors, bind at 1, shell_exec, world_after.
  cbn [fold_left world_step].
  destruct (sh_exec sh cmd_shortlog (world st)) as [r w].
  cbn [fst snd stdout]. unfold bind.
  pose proof (mapM_authorDetails_world (parseShortlog (stdout r))
                (mkState w (trace st ++ [EvExec cmd_shortlog]))) as H.
  destruct (mapM_authorDetails_returns sh (parseShortlog (stdout r))
              (mkState w (trace st ++ [EvExec cmd_shortlog])))
    as (cs & st1 & E).
  rewrite E in *. unfold ret. cbn [snd world] in *. exact H.
Qed.

End FatalCommands.

Ltac replay sh :=
  repeat (cbn [app world_after fold_left world_step fatal_ok fst snd];
          match goal with
          | E : sh_exec sh ?c ?w = _ |- context [sh_exec sh ?c ?w] =>
              rewrite E
          end);
  cbn [app world_after fold_left world_step fatal_ok fst snd].

Ltac code_facts :=
  repeat match goal with
         | E : negb (code _ =? 0)%Z = true |- _ => apply negb_code in E
         | E : negb (code _ =? 0)%Z = false |- _ =>
             apply negb_false_iff, Z.eqb_eq in E
         | E : (code _ =? 0)%Z = true |- _ => apply Z.eqb_eq in E
         | E : (code _ =? 0)%Z = false |- _ => apply Z.eqb_neq in E
         | E : invalid_branch ?b = false |- _ =>
             rewrite invalid_branch_test in E; apply negb_false_iff in E
         end.

Ltac fatal_goals :=
  repeat match goal with
         | |- _ /\ _ => split
         | |- True => exact I
         | |- fatal_if_failed _ = true -> _ =>
             let H := fresh "H" in
             intros H; first [ assumption
                             | vm_compute in H; discriminate H ]
         end.

Ltac not_fetch H :=
  cbv [cmd_reset cmd_fetch cmd_head_branch cmd_symbolic_ref cmd_rev_parse
       cmd_clean cmd_get_url cmd_clone lit list_ascii_of_string app] in H;
  discriminate H.

(** The acquisition: the trace tells the world, every clone, fetch, reset
    and clean that it ran exited with 0 when it returns, and when it
    throws, all of them but the last command, which the error is about.
    An update that returns has reset to a branch name that passes the
    test. *)
Lemma cloneRepo_fatal_commands :
  forall (W : Type) (sh : Shell W) (self : RepositoryAnalyzer) (w : W),
    world (snd (cloneRepo sh self (mkState w [])))
    = world_after sh w (trace (snd (cloneRepo sh self (mkState w []))))
    /\ match fst (cloneRepo sh self (mkState w [])) with
       | inr _ =>
           fatal_ok sh w (trace (snd (cloneRepo sh self (mkState w []))))
           /\ (In (EvExec cmd_fetch)
                  (trace (snd (cloneRepo sh self (mkState w [])))) ->
               exists b,
                 In (EvExec (cmd_reset b))
                    (trace (snd (cloneRepo sh self (mkState w []))))
                 /\ test 0 branch_re b = true)
       | inl e =>
           exists t cmd,
             trace (snd (cloneRepo sh self (mkState w [])))
             = t ++ [EvExec cmd]
             /\ fatal_ok sh w t
             /\ failed_at self e cmd
                  (fst (sh_exec sh cmd (world_after sh w t)))
       end.
Proof.
  intros W sh self w. unfold_methods. run_shell sh.
  all: try match goal with
           | E : invalid_branch (lit _) = true |- _ =>
               vm_compute in E; discriminate E
           end.
  all: split; [replay sh; reflexivity|].
  all: try (eexists; eexists; split; [reflexivity|]).
  all: code_facts.
  all: try match goal with
           | |- fatal_ok _ _ _ /\ (In _ _ -> _) =>
               split;
               [| let H := fresh "H" in
                  intros H; cbn [app In] in H |- *;
                  match goal with
                  | Ht : test 0 branch_re ?b = true |- _ =>
                      exists b; split; [tauto | exact Ht]
                  | _ =>
                      exfalso;
                      repeat (destruct H as [H|H];
                              [try discriminate H;
                               try (injection H as H; not_fetch H)|]);
                      exact H
                  end]
           end.
  all: replay sh.
  all: fatal_goals.
  all: cbn [failed_at].
  all: try congruence.
  all: auto 6.
Qed.

(** What [cloneAndAnalyze] does after an acquisition that returned. *)
Lemma analysis_after_acquisition {W} (sh : Shell W)
    (self : RepositoryAnalyzer) (st st0 : state W) :
  cloneRepo sh self st = (inr tt, st0) ->
  exists r st' t,
    cloneAndAnalyze sh self st = (inr r, st')
    /\ trace st' = trace st0 ++ t
    /\ world st' = world_after sh (world st0) t
    /\ Forall (fun ev => match ev with
                         | EvExec cmd => fatal_if_failed cmd = false
                         | _ => True
                         end) t.
Proof.
  intros Hclone.
  unfold cloneAndAnalyze, try_catch, analysis, bind at 1. rewrite Hclone.
  unfold bind at 1.
  pose proof (contributors_trace sh st0) as Ht.
  pose proof (contributors_world sh st0) as Hw.
  destruct (analyzeContributors_returns sh st0) as (cs & st1 & Hcs).
  rewrite Hcs in *. cbn [snd] in Ht, Hw.
  unfold bind at 1, getCommitHistory, bind, shell_exec, ret.
  destruct (sh_exec sh cmd_log (world st1)) as [r0 w0] eqn:Hlog.
  eexists. eexists. eexists. split; [reflexivity|].
  cbn [trace world]. rewrite Ht, <- app_assoc. split; [reflexivity|].
  split.
  - rewrite world_after_app, <- Hw. unfold world_after.
    cbn [fold_left world_step]. now rewrite Hlog.
  - cbn [app]. constructor; [reflexivity|].
    apply Forall_app. split; [apply author_queries_not_fatal|].
    repeat constructor.
Qed.

(** C6.  When a clone, a fetch, a reset or a clean that [cloneAndAnalyze]
    runs exits with a code other than 0, the run ends there: the working
    copy is removed, nothing else is done, and the error of that command is
    thrown, with no result.  Every error that [cloneAndAnalyze] throws is
    the one the acquisition threw (a command that failed, or no valid
    default branch), after the last command of the acquisition and one
    removal of the working copy; a run that returns a result has had every
    clone, fetch, reset and clean exit with 0 and, when it fetched, has
    reset to a branch name that passes the test.  Exit codes are those of the
    commands of the trace run again from the first world, which gives the
    world the run ends in. *)
Theorem failure_cleans_up_and_rethrows :
  forall (W : Type) (sh : Shell W) (self : RepositoryAnalyzer) (w : W),
    let run := cloneAndAnalyze sh self (mkState w []) in
    let p := repoPath self in
    (forall t1 cmd t2,
        trace (snd run) = t1 ++ EvExec cmd :: t2 ->
        fatal_if_failed cmd = true ->
        code (fst (sh_exec sh cmd (world_after sh w t1))) <> 0%Z ->
        t2 = [EvRm p]
        /\ exists e,
             fst run = inl e
             /\ failed_at self e cmd
                  (fst (sh_exec sh cmd (world_after sh w t1))))
    /\ match fst run with
       | inr _ =>
           fatal_ok sh w (trace (snd run))
           /\ (In (EvExec cmd_fetch) (trace (snd run)) ->
               exists b,
                 In (EvExec (cmd_reset b)) (trace (snd run))
                 /\ test 0 branch_re b = true)
       | inl e =>
           exists t cmd st1,
             cloneRepo sh self (mkState w []) = (inl e, st1)
             /\ snd run = cleaned sh self st1
             /\ trace (snd run) = t ++ [EvExec cmd; EvRm p]
             /\ fatal_ok sh w t
             /\ failed_at self e cmd
                  (fst (sh_exec sh cmd (world_after sh w t)))
       end
    /\ world (snd run) = world_after sh w (trace (snd run)).
Proof.
  intros W sh self w run p.
  assert (Hcases :
            match fst run with
            | inr _ =>
                fatal_ok sh w (trace (snd run))
                /\ (In (EvExec cmd_fetch) (trace (snd run)) ->
                    exists b,
                      In (EvExec (cmd_reset b)) (trace (snd run))
                      /\ test 0 branch_re b = true)
            | inl e =>
                exists t cmd st1,
                  cloneRepo sh self (mkState w []) = (inl e, st1)
                  /\ snd run = cleaned sh self st1
                  /\ trace (snd run) = t ++ [EvExec cmd; EvRm p]
                  /\ fatal_ok sh w t
                  /\ failed_at self e cmd
                       (fst (sh_exec sh cmd (world_after sh w t)))
            end).
  { destruct (@cloneRepo_fatal_commands W sh self w) as [_ Hfatal].
    subst run.
    destruct (cloneRepo sh self (mkState w [])) as [[e|[]] st1] eqn:Hclone;
      cbn [fst snd] in Hfatal.
    - destruct Hfatal as (t & cmd & Ht & Hok & Hfail).
      assert (Hrun : cloneAndAnalyze sh self (mkState w [])
                     = (inl e, cleaned sh self st1)).
      { unfold cloneAndAnalyze, try_catch.
        apply (analysis_fails_in_cloneRepo sh self) in Hclone.
        rewrite Hclone. reflexivity. }
      rewrite Hrun. cbn [fst snd].
      exists t, cmd, st1. split; [reflexivity|]. split; [reflexivity|].
      unfold cleaned. cbn [trace]. rewrite Ht, <- app_assoc.
      auto.
    - destruct (@analysis_after_acquisition W sh self _ _ Hclone)
        as (r & st' & t & Hrun & Ht & _ & Hqueries).
      rewrite Hrun. cbn [fst snd]. rewrite Ht.
      destruct Hfatal as [Hfatal Hreset]. split.
      + apply fatal_ok_app. split; [exact Hfatal|].
        now apply fatal_ok_queries.
      + intros Hin. apply in_app_or in Hin as [Hin|Hin].
        * destruct (Hreset Hin) as (b & Hb & Hvalid).
          exists b. split; [apply in_or_app; now left | exact Hvalid].
        * rewrite Forall_forall in Hqueries.
          specialize (Hqueries _ Hin). discriminate Hqueries. }
  assert (Hworld : world (snd run) = world_after sh w (trace (snd run))).
  { destruct (@cloneRepo_fatal_commands W sh self w) as [Hw _].
    subst run.
    destruct (cloneRepo sh self (mkState w [])) as [[e|[]] st1] eqn:Hclone;
      cbn [fst snd] in Hw.
    - assert (Hrun : cloneAndAnalyze sh self (mkState w [])
                     = (inl e, cleaned sh self st1)).
      { unfold cloneAndAnalyze, try_catch.
        apply (analysis_fails_in_cloneRepo sh self) in Hclone.
        rewrite Hclone. reflexivity. }
      rewrite Hrun. unfold cleaned. cbn [snd world trace].
      rewrite world_after_app, <- Hw. reflexivity.
    - destruct (@analysis_after_acquisition W sh self _ _ Hclone)
        as (r & st' & t & Hrun & Ht & Hw' & _).
      rewrite Hrun. cbn [snd]. rewrite Ht, world_after_app, <- Hw.
      exact Hw'. }
  split; [|split; [exact Hcases | exact Hworld]].
  intros t1 cmd t2 Htrace Hf Hcode.
  destruct (fst run) as [e|r].
  - destruct Hcases as (t & cmd0 & st1 & _ & _ & Ht & Hok & Hfail).
    rewrite Ht in Htrace.
    change (t ++ [EvExec cmd0; EvRm p])
      with (t ++ EvExec cmd0 :: [EvRm p]) in Htrace.
    apply app_eq_app in Htrace as (l & [[H1 H2]|[H1 H2]]).
    + (* the command is among those that exited with 0 *)
      destruct l as [|ev l].
      * rewrite app_nil_r in H1. subst t. cbn [app] in H2.
        injection H2 as -> ->. split; [reflexivity|]. now exists e.
      * cbn [app] in H2. injection H2 as <- H2. exfalso.
        rewrite H1 in Hok. apply fatal_ok_app in Hok as [_ Hok].
        cbn [fatal_ok] in Hok. destruct Hok as [Hok _].
        now apply Hcode, Hok.
    + destruct l as [|ev l].
      * rewrite app_nil_r in H1. subst t1. cbn [app] in H2.
        injection H2 as -> ->. split; [reflexivity|]. now exists e.
      * cbn [app] in H2. injection H2 as _ H2.
        destruct l as [|ev' l]; [discriminate H2|].
        cbn [app] in H2. injection H2 as _ H2.
        now destruct l.
  - exfalso. destruct Hcases as [Hcases _]. rewrite Htrace in Hcases.
    apply fatal_ok_app in Hcases as [_ Hok].
    cbn [fatal_ok] in Hok. destruct Hok as [Hok _].
    now apply Hcode, Hok.
Qed.

Lemma failure_cleans_up_and_rethrows_witness :
  exists e,
    fst (cloneAndAnalyze (scripted_shell false demo_failing_script)
           (demo_analyzer "o" "r") (mkState tt [])) = inl e
    /\ failed_at (demo_analyzer "o" "r") e
         (cmd_clone (repoUrl (demo_analyzer "o" "r"))
            (repoPath (demo_analyzer "o" "r")))
         (mkExecResult 128 [] (lit "fatal")).
Proof.
  destruct (@failure_cleans_up_and_rethrows unit
              (scripted_shell false demo_failing_script)
              (demo_analyzer "o" "r") tt) as (Hstop & _ & _).
  destruct (Hstop [EvMkdir (lit "/work/temp/o/r/..")]
              (cmd_clone (repoUrl (demo_analyzer "o" "r"))
                 (repoPath (demo_analyzer "o" "r")))
              [EvRm (lit "/work/temp/o/r")]) as [_ He].
  - vm_compute. reflexivity.
  - vm_compute. reflexivity.
  - vm_compute. discriminate.
  - exact He.
Defined.

(** The history queries are not checked: in a clone without commits
    [git log] fails, and [cloneAndAnalyze] still returns a result, keeps the
    working copy and throws nothing. *)
Lemma failure_in_history_counterexample :
  cloneAndAnalyze (scripted_shell false demo_history_fails_script)
    (demo_analyzer "o" "r") (mkState tt [])
  = (inr (mkAnalysisResult (mkRepositorySummary 1 0 [] []) []
            [mkCommitInfo (Some []) None None None]
            (lit "/work/temp/o/r")),
     mkState tt
       [EvMkdir (lit "/work/temp/o/r/..");
        EvExec (cmd_clone (lit "https://github.com/o/r")
                  (lit "/work/temp/o/r"));
        EvCd (lit "/work/temp/o/r");
        EvExec cmd_shortlog; EvExec cmd_log])
  /\ code (fst (sh_exec (scripted_shell false demo_history_fails_script)
                  cmd_log tt)) = 128%Z
  /\ code (fst (sh_exec (scripted_shell false demo_history_fails_script)
                  cmd_shortlog tt)) = 128%Z.
Proof.
  split; [vm_compute; reflexivity|].
  split; vm_compute; reflexivity.
Qed.
